(** * FNO_Multiple.py: a shallow embedding and its verified properties

    The program trains a multi-variable Fourier neural operator.  This file
    embeds the parts of [FNO_Multiple.py] that its specification speaks
    about: the four normalizers, the relative Lp loss, the Fourier layer
    [SpectralConv2d], the network [FNO2d_Multi] and the autoregressive
    rollout loop; and, with them, the split of the data into training and
    test sets, the parameter count and the testing block.

    Numbers.  The program computes on floating-point tensors.  They are
    embedded over [xreal], the real numbers extended with the IEEE special
    values [PInf], [NInf] and [NaN]: finite results are exact (no rounding,
    no overflow, one unsigned zero), and division by zero and the arithmetic
    of the special values follow IEEE 754.  The three torch functions the
    network calls and that have no closed form here ([rfft2], [irfft2],
    [gelu]) are the fields of the class [TorchLib]; every property of the
    network holds for all of its instances.

    Tensors.  A tensor is a shape and a function from indices to entries;
    operations that torch rejects for a shape mismatch return [None]. *)

From Stdlib Require Import Reals Lra Lia List Arith PeanoNat ZArith Bool.
From Stdlib Require Import FunctionalExtensionality.
Import ListNotations.

Set Implicit Arguments.

(* ===================================================================== *)
(** * Part I: definitions *)
(* ===================================================================== *)

(** ** The option monad, for operations that can raise *)

Definition obind {A B : Type} (m : option A) (k : A -> option B) : option B :=
  match m with
  | Some a => k a
  | None => None
  end.

Notation "x <- m ;; k" := (obind m (fun x => k))
  (at level 61, m at next level, right associativity).

(** ** Extended reals *)

Inductive xreal : Type :=
| Fin (r : R)
| PInf
| NInf
| NaN.

Definition sgn (r : R) : comparison :=
  match total_order_T r 0 with
  | inleft (left _) => Lt
  | inleft (right _) => Eq
  | inright _ => Gt
  end.

Definition finite (x : xreal) : Prop :=
  match x with Fin _ => True | _ => False end.

Definition xneg (x : xreal) : xreal :=
  match x with
  | Fin r => Fin (- r)
  | PInf => NInf
  | NInf => PInf
  | NaN => NaN
  end.

Definition xadd (x y : xreal) : xreal :=
  match x, y with
  | NaN, _ | _, NaN => NaN
  | Fin a, Fin b => Fin (a + b)
  | PInf, NInf | NInf, PInf => NaN
  | PInf, _ | _, PInf => PInf
  | NInf, _ | _, NInf => NInf
  end.

Definition xsub (x y : xreal) : xreal := xadd x (xneg y).

(** An infinity with the sign of [r]; [NaN] at zero (0 times infinity). *)
Definition inf_of_sign (r : R) (pos : bool) : xreal :=
  match sgn r with
  | Gt => if pos then PInf else NInf
  | Lt => if pos then NInf else PInf
  | Eq => NaN
  end.

Definition xmul (x y : xreal) : xreal :=
  match x, y with
  | NaN, _ | _, NaN => NaN
  | Fin a, Fin b => Fin (a * b)
  | Fin a, PInf | PInf, Fin a => inf_of_sign a true
  | Fin a, NInf | NInf, Fin a => inf_of_sign a false
  | PInf, PInf | NInf, NInf => PInf
  | PInf, NInf | NInf, PInf => NInf
  end.

(** Division.  A finite value over zero is an infinity of the sign of the
    numerator, and [0 / 0] is [NaN]; nothing raises. *)
Definition xdiv (x y : xreal) : xreal :=
  match x, y with
  | NaN, _ | _, NaN => NaN
  | Fin a, Fin b =>
      match sgn b with
      | Eq => inf_of_sign a true
      | _ => Fin (a / b)
      end
  | Fin _, PInf | Fin _, NInf => Fin 0
  | PInf, Fin b => match sgn b with Lt => NInf | _ => PInf end
  | NInf, Fin b => match sgn b with Lt => PInf | _ => NInf end
  | PInf, PInf | PInf, NInf | NInf, PInf | NInf, NInf => NaN
  end.

Definition xabs (x : xreal) : xreal :=
  match x with
  | Fin r => Fin (Rabs r)
  | PInf | NInf => PInf
  | NaN => NaN
  end.

Definition xsqrt (x : xreal) : xreal :=
  match x with
  | Fin r => match sgn r with Lt => NaN | _ => Fin (sqrt r) end
  | PInf => PInf
  | NInf | NaN => NaN
  end.

(** [r] to the power [p] for [0 <= r] and [0 < p]; [0 ^ p = 0]. *)
Definition rpow (r p : R) : R :=
  match sgn r with
  | Gt => Rpower r p
  | _ => 0%R
  end.

(** [x ** p] for a non-negative base and a finite exponent [0 < p]. *)
Definition xpow (x : xreal) (p : R) : xreal :=
  match x with
  | Fin r => match sgn r with Lt => NaN | _ => Fin (rpow r p) end
  | PInf => PInf
  | NInf | NaN => NaN
  end.

(** [torch.min] and [torch.max] of two entries: a [NaN] wins. *)
Definition xmin (x y : xreal) : xreal :=
  match x, y with
  | NaN, _ | _, NaN => NaN
  | NInf, _ | _, NInf => NInf
  | PInf, z | z, PInf => z
  | Fin a, Fin b => Fin (Rmin a b)
  end.

Definition xmax (x y : xreal) : xreal :=
  match x, y with
  | NaN, _ | _, NaN => NaN
  | PInf, _ | _, PInf => PInf
  | NInf, z | z, NInf => z
  | Fin a, Fin b => Fin (Rmax a b)
  end.

(** ** Tensors *)

Record Tensor (A : Type) : Type := mkTensor {
  shape : list nat;
  data : list nat -> A
}.

Arguments mkTensor {A} shape data.

Definition numel (s : list nat) : nat := fold_right Nat.mul 1 s.

(** [inb s idx]: the index [idx] addresses an entry of a tensor of shape [s]. *)
Fixpoint inb (s idx : list nat) : bool :=
  match s, idx with
  | [], [] => true
  | d :: s', i :: idx' => (i <? d) && inb s' idx'
  | _, _ => false
  end.

(** All indices of a shape, in row-major order. *)
Fixpoint indices (s : list nat) : list (list nat) :=
  match s with
  | [] => [[]]
  | d :: s' => flat_map (fun i => map (cons i) (indices s')) (seq 0 d)
  end.

(** Row-major position of an index, and its inverse. *)
Fixpoint flat (s idx : list nat) : nat :=
  match s, idx with
  | _ :: s', i :: idx' => i * numel s' + flat s' idx'
  | _, _ => 0
  end.

Fixpoint unflat (s : list nat) (k : nat) : list nat :=
  match s with
  | [] => []
  | _ :: s' => (k / numel s') :: unflat s' (k mod numel s')
  end.

(** [reshape] and [view]: the same entries in row-major order under another
    shape of the same number of elements. *)
Definition reshape {A} (t : Tensor A) (s : list nat) : option (Tensor A) :=
  if numel (shape t) =? numel s
  then Some (mkTensor s (fun idx => data t (unflat (shape t) (flat s idx))))
  else None.

(** [t.reshape(n, -1)]: raises when the tensor has no element (the inferred
    size is ambiguous) and when [n] does not divide the number of elements. *)
Definition reshape_2d {A} (t : Tensor A) (n : nat) : option (Tensor A) :=
  if (numel (shape t) =? 0) || (n =? 0) then None
  else if numel (shape t) mod n =? 0
       then reshape t [n; numel (shape t) / n]
       else None.

(** [x.reshape(s[0], -1)] with [s = x.size()]: raises on a 0-dimensional
    tensor. *)
Definition reshape_rows {A} (t : Tensor A) : option (Tensor A) :=
  d0 <- hd_error (shape t) ;;
  reshape_2d t d0.

Definition tmap {A B} (f : A -> B) (t : Tensor A) : Tensor B :=
  mkTensor (shape t) (fun idx => f (data t idx)).

(** *** Broadcasting *)

Definition bdim (a b : nat) : option nat :=
  if a =? b then Some a
  else if a =? 1 then Some b
  else if b =? 1 then Some a
  else None.

(** Shapes are aligned at their last axis; the arguments are reversed shapes. *)
Fixpoint bshape_rev (r1 r2 : list nat) : option (list nat) :=
  match r1, r2 with
  | [], r => Some r
  | r, [] => Some r
  | a :: r1', b :: r2' =>
      d <- bdim a b ;;
      r <- bshape_rev r1' r2' ;;
      Some (d :: r)
  end.

Definition bshape (s1 s2 : list nat) : option (list nat) :=
  option_map (@rev nat) (bshape_rev (rev s1) (rev s2)).

Fixpoint clamp1 (s idx : list nat) : list nat :=
  match s, idx with
  | d :: s', i :: idx' => (if d =? 1 then 0 else i) :: clamp1 s' idx'
  | _, _ => []
  end.

(** The index into an operand of shape [s] for the index [idx] of the
    broadcast result. *)
Definition bidx (s idx : list nat) : list nat :=
  clamp1 s (skipn (length idx - length s) idx).

(** An elementwise binary operation with broadcasting. *)
Definition tbin {A B C} (f : A -> B -> C) (t1 : Tensor A) (t2 : Tensor B)
  : option (Tensor C) :=
  s <- bshape (shape t1) (shape t2) ;;
  Some (mkTensor s (fun idx =>
          f (data t1 (bidx (shape t1) idx)) (data t2 (bidx (shape t2) idx)))).

(** *** Reductions *)

Definition xsum (l : list xreal) : xreal := fold_left xadd l (Fin 0).

Definition entries {A} (t : Tensor A) : list A := map (data t) (indices (shape t)).

(** The entries along axis 0 at the trailing index [idx]. *)
Definition column {A} (t : Tensor A) (idx : list nat) : list A :=
  map (fun i => data t (i :: idx)) (seq 0 (hd 0 (shape t))).

(** Reduction of a non-empty list with [f]; [None] on the empty list, where
    [torch.min] and [torch.max] raise. *)
Definition reduce1 {A} (f : A -> A -> A) (l : list A) : option A :=
  match l with
  | [] => None
  | a :: l' => Some (fold_left f l' a)
  end.

(** [torch.mean]: the sum over the number of elements ([NaN] on no element). *)
Definition xmean (l : list xreal) : xreal :=
  xdiv (xsum l) (Fin (INR (length l))).

(** [torch.std]: the unbiased estimator, [NaN] on fewer than two elements. *)
Definition xstd (l : list xreal) : xreal :=
  let m := xmean l in
  xsqrt (xdiv (xsum (map (fun v => xmul (xsub v m) (xsub v m)) l))
              (Fin (INR (length l) - 1))).

(** [torch.mean(x, 0)] and [torch.std(x, 0)]: reduction of axis 0.  On a
    0-dimensional tensor the single entry is the whole column. *)
Definition reduce_dim0 (f : list xreal -> xreal) (t : Tensor xreal) : Tensor xreal :=
  match shape t with
  | [] => mkTensor [] (fun _ => f [data t []])
  | _ :: s' => mkTensor s' (fun idx => f (column t idx))
  end.

(** [torch.min(x, 0)[0]] and [torch.max(x, 0)[0]]: raise when axis 0 is empty. *)
Definition extremum_dim0 (f : xreal -> xreal -> xreal) (t : Tensor xreal)
  : option (Tensor xreal) :=
  match shape t with
  | [] => Some t
  | d :: s' =>
      if d =? 0 then None
      else Some (mkTensor s' (fun idx =>
                   match reduce1 f (column t idx) with
                   | Some v => v
                   | None => NaN
                   end))
  end.

(** [torch.min(x)] and [torch.max(x)] over all entries, a 0-dimensional
    tensor; they raise on a tensor without entries. *)
Definition extremum_all (f : xreal -> xreal -> xreal) (t : Tensor xreal)
  : option (Tensor xreal) :=
  v <- reduce1 f (entries t) ;;
  Some (mkTensor [] (fun _ => v)).

(** A 0-dimensional tensor. *)
Definition scalar {A} (v : A) : Tensor A := mkTensor [] (fun _ => v).

(** [t.view(-1)] *)
Definition view_flat {A} (t : Tensor A) : option (Tensor A) :=
  reshape t [numel (shape t)].

(** ** Normalisation functions (FNO_Multiple.py, lines 83-210) *)


(** normalization, pointwise gaussian *)
Module UnitGaussianNormalizer.

Record t : Type := mk {
  mean : Tensor xreal;
  std : Tensor xreal;
  eps : R
}.

Definition init (x : Tensor xreal) (eps : R) : t :=
  mk (reduce_dim0 xmean x) (reduce_dim0 xstd x) eps.

(** [x = (x - self.mean) / (self.std + self.eps)] *)
Definition encode (self : t) (x : Tensor xreal) : option (Tensor xreal) :=
  num <- tbin xsub x (mean self) ;;
  tbin xdiv num (tmap (fun v => xadd v (Fin (eps self))) (std self)).

(** [decode(x)] with [sample_idx=None], the only way the program calls it:
    [std = self.std + self.eps; mean = self.mean; x = (x * std) + mean]. *)
Definition decode (self : t) (x : Tensor xreal) : option (Tensor xreal) :=
  let std := tmap (fun v => xadd v (Fin (eps self))) (std self) in
  let mean := mean self in
  prod <- tbin xmul x std ;;
  tbin xadd prod mean.

End UnitGaussianNormalizer.

(** normalization, Gaussian *)
Module GaussianNormalizer.

Record t : Type := mk {
  mean : xreal;
  std : xreal;
  eps : R
}.

Definition init (x : Tensor xreal) (eps : R) : t :=
  mk (xmean (entries x)) (xstd (entries x)) eps.

Definition encode (self : t) (x : Tensor xreal) : Tensor xreal :=
  tmap (fun v => xdiv (xsub v (mean self)) (xadd (std self) (Fin (eps self)))) x.

Definition decode (self : t) (x : Tensor xreal) : Tensor xreal :=
  tmap (fun v => xadd (xmul v (xadd (std self) (Fin (eps self)))) (mean self)) x.

End GaussianNormalizer.

(** The statistics shared by the two range normalizers:
    [a = (high - low)/(mymax - mymin)] and [b = -a*mymax + high]. *)
Definition range_a (low high : R) (mymin mymax : xreal) : xreal :=
  xdiv (Fin (high - low)) (xsub mymax mymin).

Definition range_b (high : R) (a mymax : xreal) : xreal :=
  xadd (xmul (xneg a) mymax) (Fin high).

(** normalization, scaling by range *)
Module RangeNormalizer.

Record t : Type := mk {
  a : Tensor xreal;
  b : Tensor xreal
}.

Definition init (x : Tensor xreal) (low high : R) : option t :=
  mymin0 <- extremum_dim0 xmin x ;;
  mymin <- view_flat mymin0 ;;
  mymax0 <- extremum_dim0 xmax x ;;
  mymax <- view_flat mymax0 ;;
  a <- tbin (fun mx mn => range_a low high mn mx) mymax mymin ;;
  b <- tbin (range_b high) a mymax ;;
  Some (mk a b).

Definition encode (self : t) (x : Tensor xreal) : option (Tensor xreal) :=
  let s := shape x in
  x <- reshape_rows x ;;
  x <- tbin xmul (a self) x ;;
  x <- tbin xadd x (b self) ;;
  reshape x s.

Definition decode (self : t) (x : Tensor xreal) : option (Tensor xreal) :=
  let s := shape x in
  x <- reshape_rows x ;;
  x <- tbin xsub x (b self) ;;
  x <- tbin xdiv x (a self) ;;
  reshape x s.

End RangeNormalizer.

(** normalization, rangewise but single value. *)
Module MinMax_Normalizer.

Record t : Type := mk {
  a : xreal;
  b : xreal
}.

Definition init (x : Tensor xreal) (low high : R) : option t :=
  mymin <- reduce1 xmin (entries x) ;;
  mymax <- reduce1 xmax (entries x) ;;
  let a := range_a low high mymin mymax in
  Some (mk a (range_b high a mymax)).

Definition encode (self : t) (x : Tensor xreal) : option (Tensor xreal) :=
  let s := shape x in
  x <- reshape_rows x ;;
  let x := tmap (fun v => xadd (xmul (a self) v) (b self)) x in
  reshape x s.

Definition decode (self : t) (x : Tensor xreal) : option (Tensor xreal) :=
  let s := shape x in
  x <- reshape_rows x ;;
  let x := tmap (fun v => xdiv (xsub v (b self)) (a self)) x in
  reshape x s.

End MinMax_Normalizer.

(** ** Loss functions (lines 218-262) *)

Module LpLoss.

Record t : Type := mk {
  d : R;
  p : R;
  reduction : bool;
  size_average : bool
}.

(** [assert d > 0 and p > 0]: the constructor raises otherwise. *)
Definition init (d p : R) (size_average reduction : bool) : option t :=
  if Rlt_dec 0 d then
    if Rlt_dec 0 p then Some (mk d p reduction size_average) else None
  else None.

(** [torch.norm(m, p, 1)] of a two-axis tensor: one norm per row. *)
Definition norm_rows (m : Tensor xreal) (p : R) : Tensor xreal :=
  mkTensor [hd 0 (shape m)] (fun idx =>
    let i := hd 0 idx in
    xpow (xsum (map (fun j => xpow (xabs (data m [i; j])) p)
                    (seq 0 (hd 0 (tl (shape m))))))
         (1 / p)).

Definition rel (self : t) (x y : Tensor xreal) : option (Tensor xreal) :=
  num_examples <- hd_error (shape x) ;;
  x2 <- reshape_2d x num_examples ;;
  y2 <- reshape_2d y num_examples ;;
  diff <- tbin xsub x2 y2 ;;
  let diff_norms := norm_rows diff (p self) in
  let y_norms := norm_rows y2 (p self) in
  q <- tbin xdiv diff_norms y_norms ;;
  if reduction self then
    if size_average self
    then Some (scalar (xmean (entries q)))
    else Some (scalar (xsum (entries q)))
  else Some q.

Definition call (self : t) (x y : Tensor xreal) : option (Tensor xreal) :=
  rel self x y.

End LpLoss.

(** ** The torch library functions the network calls

    [torch.fft.rfft2] and [torch.fft.irfft2] act on the last two axes; they
    are given here on one two-axis slice of sizes [X] by [Y], the spectrum
    having [Y/2+1] columns.  [F.gelu] acts entrywise. *)

Definition cplx : Type := (xreal * xreal)%type.

Class TorchLib : Type := {
  fft_rfft2 : nat -> nat -> (nat -> nat -> xreal) -> nat -> nat -> cplx;
  fft_irfft2 : nat -> nat -> (nat -> nat -> cplx) -> nat -> nat -> xreal;
  F_gelu : xreal -> xreal
}.

Definition czero : cplx := (Fin 0, Fin 0).

Definition cadd (u v : cplx) : cplx :=
  (xadd (fst u) (fst v), xadd (snd u) (snd v)).

Definition cmul (u v : cplx) : cplx :=
  (xsub (xmul (fst u) (fst v)) (xmul (snd u) (snd v)),
   xadd (xmul (fst u) (snd v)) (xmul (snd u) (fst v))).

(** A real factor times a complex entry. *)
Definition cscale (s : xreal) (v : cplx) : cplx := (xmul s (fst v), xmul s (snd v)).

Definition csum (l : list cplx) : cplx := fold_left cadd l czero.

(** [torch.zeros(shape)] *)
Definition zeros {A} (zero : A) (s : list nat) : Tensor A := mkTensor s (fun _ => zero).

(** [t[:, :, :, start:start+rows, :cols]] of a five-axis tensor, the bounds
    already clipped to the axes. *)
Definition slice_block {A} (t : Tensor A) (start rows cols : nat) : option (Tensor A) :=
  match shape t with
  | [b; i; p; _; _] =>
      Some (mkTensor [b; i; p; rows; cols] (fun idx =>
              match idx with
              | [ib; ii; ip; ix; iy] => data t [ib; ii; ip; start + ix; iy]
              | _ => data t idx
              end))
  | _ => None
  end.

(** First row of the slice [-m:] of an axis of length [n]: Python reads
    [-0] as [0], and clips a start before the axis to its first row. *)
Definition neg_start (n m : nat) : nat := if m =? 0 then 0 else n - m.

(** A right-hand side of shape [src] can be expanded to the shape [dst] of
    the view it is assigned to. *)
Fixpoint expandable (src dst : list nat) : bool :=
  match src, dst with
  | [], [] => true
  | a :: src', d :: dst' => ((a =? d) || (a =? 1)) && expandable src' dst'
  | _, _ => false
  end.

(** [out[:, :, :, start:start+rows, :cols] = rhs] *)
Definition assign_block {A} (out rhs : Tensor A) (start rows cols : nat)
  : option (Tensor A) :=
  match shape out with
  | [b; j; q; _; _] =>
      if expandable (shape rhs) [b; j; q; rows; cols] then
        Some (mkTensor (shape out) (fun idx =>
                match idx with
                | [ib; ij; iq; ix; iy] =>
                    if (start <=? ix) && (ix <? start + rows) && (iy <? cols)
                    then data rhs (clamp1 (shape rhs) [ib; ij; iq; ix - start; iy])
                    else data out idx
                | _ => data out idx
                end))
      else None
  | _ => None
  end.

(** ** fourier layer (lines 377-416) *)

Module SpectralConv2d.

Record t : Type := mk {
  in_channels_time : nat;
  out_channels_time : nat;
  in_channels_dim : nat;
  out_channels_dim : nat;
  modes1 : nat;
  modes2 : nat;
  scale : xreal;
  weights1 : Tensor cplx;
  weights2 : Tensor cplx
}.

(** [rand1] and [rand2] are the entries [torch.rand] draws for the two
    weight tensors.  [1 / (in_channels_time * out_channels_time)] is a
    division of Python integers and raises on zero. *)
Definition init (in_channels_time out_channels_time in_channels_dim
                 out_channels_dim modes1 modes2 : nat)
                (rand1 rand2 : list nat -> cplx) : option t :=
  if in_channels_time * out_channels_time =? 0 then None
  else
    let scale := Fin (1 / INR (in_channels_time * out_channels_time)) in
    let s := [in_channels_time; out_channels_time; in_channels_dim;
              out_channels_dim; modes1; modes2] in
    Some (mk in_channels_time out_channels_time in_channels_dim
             out_channels_dim modes1 modes2 scale
             (mkTensor s (fun idx => cscale scale (rand1 idx)))
             (mkTensor s (fun idx => cscale scale (rand2 idx)))).

(** The sum over [i] and [p] of [input[b,i,p,x,y] * weights[i,j,p,q,x,y]]. *)
Definition contraction (input weights : Tensor cplx) (ni np : nat)
                       (ib ij iq ix iy : nat) : cplx :=
  csum (map (fun ii =>
    csum (map (fun ip =>
      cmul (data input (clamp1 (shape input) [ib; ii; ip; ix; iy]))
           (data weights (clamp1 (shape weights) [ii; ij; ip; iq; ix; iy])))
      (seq 0 np)))
    (seq 0 ni)).

(** [torch.einsum("bipxy,ijpqxy->bjqxy", input, weights)]: the sizes of a
    shared label agree or one of them is 1. *)
Definition compl_mul2d (input weights : Tensor cplx) : option (Tensor cplx) :=
  match shape input, shape weights with
  | [b; i1; p1; x1; y1], [i2; j; p2; q; x2; y2] =>
      i <- bdim i1 i2 ;;
      p <- bdim p1 p2 ;;
      x <- bdim x1 x2 ;;
      y <- bdim y1 y2 ;;
      Some (mkTensor [b; j; q; x; y] (fun idx =>
              match idx with
              | [ib; ij; iq; ix; iy] => contraction input weights i p ib ij iq ix iy
              | _ => czero
              end))
  | _, _ => None
  end.

(** The weight tensors have the shape the constructor gave them (training
    changes their entries only). *)
Definition wf (self : t) : Prop :=
  let s := [in_channels_time self; out_channels_time self; in_channels_dim self;
            out_channels_dim self; modes1 self; modes2 self] in
  shape (weights1 self) = s /\ shape (weights2 self) = s.

(** The entry [(b, j, q)] of the product of the mode in row [r], column [c]
    of the spectrum [x_ft] with the row [rw], column [c] of the weights:
    the sum over the in-time channels [i] and the in-variable channels [p]
    of [x_ft[b,i,p,r,c] * weights[i,j,p,q,rw,c]]. *)
Definition mode_product (x_ft weights : Tensor cplx) (ni np : nat)
                        (b j q r c rw : nat) : cplx :=
  csum (map (fun i =>
    csum (map (fun p =>
      cmul (data x_ft [b; i; p; r; c]) (data weights [i; j; p; q; rw; c]))
      (seq 0 np)))
    (seq 0 ni)).

Section Forward.
Context {lib : TorchLib}.

(** [torch.fft.rfft2(x)] on a five-axis tensor; no transform of an
    empty axis. *)
Definition rfft2 (x : Tensor xreal) : option (Tensor cplx) :=
  match shape x with
  | [b; i; p; X; Y] =>
      if (X =? 0) || (Y =? 0) then None
      else Some (mkTensor [b; i; p; X; Y / 2 + 1] (fun idx =>
             match idx with
             | [ib; ii; ip; k1; k2] =>
                 fft_rfft2 X Y (fun n1 n2 => data x [ib; ii; ip; n1; n2]) k1 k2
             | _ => czero
             end))
  | _ => None
  end.

(** [torch.fft.irfft2(out_ft, s=(X, Y))] *)
Definition irfft2 (out_ft : Tensor cplx) (X Y : nat) : option (Tensor xreal) :=
  match shape out_ft with
  | [b; j; q; _; _] =>
      if (X =? 0) || (Y =? 0) then None
      else Some (mkTensor [b; j; q; X; Y] (fun idx =>
             match idx with
             | [ib; ij; iq; n1; n2] =>
                 fft_irfft2 X Y (fun k1 k2 => data out_ft [ib; ij; iq; k1; k2]) n1 n2
             | _ => Fin 0
             end))
  | _ => None
  end.

(** The output spectrum [out_ft] of [forward] after its two block
    assignments. *)
Definition forward_spectrum (self : t) (x : Tensor xreal) : option (Tensor cplx) :=
  match shape x with
  | [batchsize; _; _; X; Y] =>
      x_ft <- rfft2 x ;;
      let out_ft := zeros czero [batchsize; out_channels_time self;
                                 out_channels_dim self; X; Y / 2 + 1] in
      let rows1 := Nat.min (modes1 self) X in
      let cols := Nat.min (modes2 self) (Y / 2 + 1) in
      lo <- slice_block x_ft 0 rows1 cols ;;
      r1 <- compl_mul2d lo (weights1 self) ;;
      out_ft <- assign_block out_ft r1 0 rows1 cols ;;
      let start := neg_start X (modes1 self) in
      hi <- slice_block x_ft start (X - start) cols ;;
      r2 <- compl_mul2d hi (weights2 self) ;;
      assign_block out_ft r2 start (X - start) cols
  | _ => None
  end.

Definition forward (self : t) (x : Tensor xreal) : option (Tensor xreal) :=
  match shape x with
  | [_; _; _; X; Y] =>
      out_ft <- forward_spectrum self x ;;
      irfft2 out_ft X Y
  | _ => None
  end.

End Forward.

End SpectralConv2d.

(** ** Tensor operations of the network and of the rollout *)

(** [torch.cat((a, b), dim=-1)]: the other axes agree. *)
Definition cat_last {A} (a b : Tensor A) : option (Tensor A) :=
  match shape a, shape b with
  | [], _ | _, [] => None
  | sa, sb =>
      if list_eq_dec Nat.eq_dec (removelast sa) (removelast sb) then
        let la := last sa 0 in
        Some (mkTensor (removelast sa ++ [la + last sb 0]) (fun idx =>
                let c := last idx 0 in
                if c <? la then data a idx
                else data b (removelast idx ++ [c - la])))
      else None
  end.

(** [t[..., start:stop]] with non-negative bounds, clipped to the axis. *)
Definition slice_last {A} (t : Tensor A) (start stop : nat) : option (Tensor A) :=
  match shape t with
  | [] => None
  | s =>
      let L := last s 0 in
      let a := Nat.min start L in
      let b := Nat.min stop L in
      Some (mkTensor (removelast s ++ [b - a]) (fun idx =>
              data t (removelast idx ++ [a + last idx 0])))
  end.

(** [t[..., start:]] *)
Definition slice_last_from {A} (t : Tensor A) (start : nat) : option (Tensor A) :=
  slice_last t start (last (shape t) 0).

(** [x.permute(0, 4, 1, 2, 3)] *)
Definition permute_04123 {A} (x : Tensor A) : option (Tensor A) :=
  match shape x with
  | [s0; s1; s2; s3; s4] =>
      Some (mkTensor [s0; s4; s1; s2; s3] (fun idx =>
              match idx with
              | [i0; i4; i1; i2; i3] => data x [i0; i1; i2; i3; i4]
              | _ => data x idx
              end))
  | _ => None
  end.

(** [x.permute(0, 2, 3, 4, 1)] *)
Definition permute_02341 {A} (x : Tensor A) : option (Tensor A) :=
  match shape x with
  | [s0; s1; s2; s3; s4] =>
      Some (mkTensor [s0; s2; s3; s4; s1] (fun idx =>
              match idx with
              | [i0; i2; i3; i4; i1] => data x [i0; i1; i2; i3; i4]
              | _ => data x idx
              end))
  | _ => None
  end.

(** [nn.Linear]: a linear map of the last axis, the same at every position
    of the other axes. *)
Module Linear.

Record t : Type := mk {
  in_features : nat;
  out_features : nat;
  weight : Tensor xreal;   (* shape [out_features; in_features] *)
  bias : Tensor xreal      (* shape [out_features] *)
}.

Definition init (in_features out_features : nat)
                (w b : list nat -> xreal) : t :=
  mk in_features out_features
     (mkTensor [out_features; in_features] w)
     (mkTensor [out_features] b).

(** The output channel [o] at the position [pos] of the other axes. *)
Definition point (self : t) (x : Tensor xreal) (pos : list nat) (o : nat) : xreal :=
  xadd (xsum (map (fun i => xmul (data x (pos ++ [i])) (data (weight self) [o; i]))
                  (seq 0 (in_features self))))
       (data (bias self) [o]).

Definition forward (self : t) (x : Tensor xreal) : option (Tensor xreal) :=
  match shape x with
  | [] => None
  | s =>
      if last s 0 =? in_features self then
        Some (mkTensor (removelast s ++ [out_features self]) (fun idx =>
                point self x (removelast idx) (last idx 0)))
      else None
  end.

End Linear.

(** [nn.Conv3d(in_channels, out_channels, 1)]: a kernel of one point, that
    is a linear map of the channel axis (axis 1) at every position.  The
    network passes it five-axis tensors only ([conv] has accepted the same
    tensor before); input without a batch axis is not embedded. *)
Module Conv3d.

Record t : Type := mk {
  in_channels : nat;
  out_channels : nat;
  weight : Tensor xreal;   (* shape [out_channels; in_channels; 1; 1; 1] *)
  bias : Tensor xreal      (* shape [out_channels] *)
}.

Definition init (in_channels out_channels : nat)
                (w b : list nat -> xreal) : t :=
  mk in_channels out_channels
     (mkTensor [out_channels; in_channels; 1; 1; 1] w)
     (mkTensor [out_channels] b).

Definition forward (self : t) (x : Tensor xreal) : option (Tensor xreal) :=
  match shape x with
  | [n; c; d; h; w] =>
      if (c =? in_channels self) && negb ((d =? 0) || (h =? 0) || (w =? 0)) then
        Some (mkTensor [n; out_channels self; d; h; w] (fun idx =>
                match idx with
                | [i_n; o; i_d; i_h; i_w] =>
                    xadd (xsum (map (fun ci =>
                                  xmul (data (weight self) [o; ci; 0; 0; 0])
                                       (data x [i_n; ci; i_d; i_h; i_w]))
                                (seq 0 (in_channels self))))
                         (data (bias self) [o])
                | _ => NaN
                end))
      else None
  | _ => None
  end.

End Conv3d.

(** ** The module-level names the network and the training loop read *)

Record Globals : Type := mkGlobals {
  T_in : nat;
  T : nat;
  step : nat;
  num_vars : nat;
  batch_size : nat;
  x_grid : list xreal;
  y_grid : list xreal
}.

(** [self.norm = nn.Identity()] *)
Definition Identity {A} (x : A) : A := x.

(** ** The operator blocks of [FNO2d_Multi.forward] (lines 489-526)

    The six blocks use the layers [conv i] and [w i], the tensor sum [add]
    and the activation [gelu].  They are kept generic in these four, so that
    the sequence of operations can be read off. *)

Section Blocks.
Variable Tn : Type.
Variable conv : nat -> Tn -> option Tn.
Variable w : nat -> Tn -> option Tn.
Variable add : Tn -> Tn -> option Tn.
Variable gelu : Tn -> Tn.

Let norm : Tn -> Tn := Identity.

Definition block_stack (x : Tn) : option Tn :=
  x1 <- option_map norm (conv 0 (norm x)) ;;
  x2 <- w 0 x ;;
  x <- add x1 x2 ;;
  let x := gelu x in

  x1 <- option_map norm (conv 1 (norm x)) ;;
  x2 <- w 1 x ;;
  x <- add x1 x2 ;;
  let x := gelu x in

  x1 <- option_map norm (conv 2 (norm x)) ;;
  x2 <- w 2 x ;;
  x <- add x1 x2 ;;
  let x := gelu x in

  x1 <- option_map norm (conv 3 (norm x)) ;;
  x2 <- w 3 x ;;
  x <- add x1 x2 ;;

  x1 <- option_map norm (conv 4 (norm x)) ;;
  x2 <- w 4 x ;;
  x <- add x1 x2 ;;

  x1 <- option_map norm (conv 5 (norm x)) ;;
  x2 <- w 5 x ;;
  x <- add x1 x2 ;;
  Some x.

(** One block as the specification describes it: the sum of the spectral
    path and of the pointwise path, followed by the activation when [act]. *)
Definition spec_block (act : bool) (i : nat) (latent : Tn) : option Tn :=
  k <- conv i latent ;;
  l <- w i latent ;;
  s <- add k l ;;
  Some (if act then gelu s else s).

(** The blocks [i], [i+1], ... of a stack whose block [j] applies the
    activation when [acts j]. *)
Fixpoint spec_stack_from (acts : nat -> bool) (i n : nat) (latent : Tn) : option Tn :=
  match n with
  | 0 => Some latent
  | S n' =>
      latent' <- spec_block (acts i) i latent ;;
      spec_stack_from acts (S i) n' latent'
  end.

Definition spec_stack (acts : nat -> bool) (latent : Tn) : option Tn :=
  spec_stack_from acts 0 6 latent.

End Blocks.

(** The entries the random initialisers draw, by parameter in the order the
    constructor creates them (real and complex parameters counted apart). *)
Record Draws : Type := mkDraws {
  draw_real : nat -> list nat -> xreal;
  draw_cplx : nat -> list nat -> cplx
}.

(** ** The network (lines 420-557) *)

Module FNO2d_Multi.

Record t : Type := mk {
  modes1 : nat;
  modes2 : nat;
  width : nat;
  fc0 : Linear.t;
  fc_d0 : Linear.t;
  conv0 : SpectralConv2d.t;
  conv1 : SpectralConv2d.t;
  conv2 : SpectralConv2d.t;
  conv3 : SpectralConv2d.t;
  conv4 : SpectralConv2d.t;
  conv5 : SpectralConv2d.t;
  w0 : Conv3d.t;
  w1 : Conv3d.t;
  w2 : Conv3d.t;
  w3 : Conv3d.t;
  w4 : Conv3d.t;
  w5 : Conv3d.t;
  fc1 : Linear.t;
  fc2 : Linear.t;
  fc_d1 : Linear.t;
  fc_d2 : Linear.t;
  training : bool
}.

Definition init (g : Globals) (modes1 modes2 width : nat) (r : Draws) : option t :=
  let lin k i o := Linear.init i o (draw_real r (2 * k)) (draw_real r (2 * k + 1)) in
  let spectral k :=
    SpectralConv2d.init width width (num_vars g) (num_vars g) modes1 modes2
                        (draw_cplx r (2 * k)) (draw_cplx r (2 * k + 1)) in
  let pointwise k :=
    Conv3d.init width width (draw_real r (2 * k)) (draw_real r (2 * k + 1)) in
  let fc0 := lin 0 (T_in g + 2) width in
  let fc_d0 := lin 1 (num_vars g) width in
  conv0 <- spectral 0 ;;
  conv1 <- spectral 1 ;;
  conv2 <- spectral 2 ;;
  conv3 <- spectral 3 ;;
  conv4 <- spectral 4 ;;
  conv5 <- spectral 5 ;;
  let w0 := pointwise 2 in
  let w1 := pointwise 3 in
  let w2 := pointwise 4 in
  let w3 := pointwise 5 in
  let w4 := pointwise 6 in
  let w5 := pointwise 7 in
  let fc1 := lin 8 width 128 in
  let fc2 := lin 9 128 (step g) in
  let fc_d1 := lin 10 width 128 in
  let fc_d2 := lin 11 128 (num_vars g) in
  Some (mk modes1 modes2 width fc0 fc_d0 conv0 conv1 conv2 conv3 conv4 conv5
           w0 w1 w2 w3 w4 w5 fc1 fc2 fc_d1 fc_d2 true).



Definition conv (self : t) (i : nat) : SpectralConv2d.t :=
  match i with
  | 0 => conv0 self
  | 1 => conv1 self
  | 2 => conv2 self
  | 3 => conv3 self
  | 4 => conv4 self
  | _ => conv5 self
  end.

Definition w (self : t) (i : nat) : Conv3d.t :=
  match i with
  | 0 => w0 self
  | 1 => w1 self
  | 2 => w2 self
  | 3 => w3 self
  | 4 => w4 self
  | _ => w5 self
  end.

(** The layers have the sizes the constructor gave them (training changes
    the entries of the weights only). *)
Definition wf (g : Globals) (self : t) : Prop :=
  Linear.in_features (fc0 self) = T_in g + 2 /\
  Linear.out_features (fc0 self) = width self /\
  Linear.in_features (fc1 self) = width self /\
  Linear.out_features (fc1 self) = 128 /\
  Linear.in_features (fc2 self) = 128 /\
  Linear.out_features (fc2 self) = step g /\
  forall i,
    SpectralConv2d.wf (conv self i) /\
    SpectralConv2d.in_channels_time (conv self i) = width self /\
    SpectralConv2d.out_channels_time (conv self i) = width self /\
    SpectralConv2d.in_channels_dim (conv self i) = num_vars g /\
    SpectralConv2d.out_channels_dim (conv self i) = num_vars g /\
    SpectralConv2d.modes1 (conv self i) = modes1 self /\
    SpectralConv2d.modes2 (conv self i) = modes2 self /\
    Conv3d.in_channels (w self i) = width self /\
    Conv3d.out_channels (w self i) = width self.

(** Using x and y values from the simulation discretisation *)
Definition get_grid (g : Globals) (shape : list nat) : option (Tensor xreal) :=
  match shape with
  | batchsize :: num_vars :: size_x :: size_y :: _ =>
      if (length (x_grid g) =? size_x) && (length (y_grid g) =? size_y) then
        let gridx := mkTensor [batchsize; num_vars; size_x; size_y; 1]
                       (fun idx => nth (nth 2 idx 0) (x_grid g) NaN) in
        let gridy := mkTensor [batchsize; num_vars; size_x; size_y; 1]
                       (fun idx => nth (nth 3 idx 0) (y_grid g) NaN) in
        cat_last gridx gridy
      else None
  | _ => None
  end.

Section Forward.
Context {lib : TorchLib}.
Variable g : Globals.

(** Lines 483-486: the grid is appended and [fc0] lifts the channels. *)
Definition lift (self : t) (x : Tensor xreal) : option (Tensor xreal) :=
  grid <- get_grid g (shape x) ;;
  x <- cat_last x grid ;;
  Linear.forward (fc0 self) x.

(** Lines 529-531: [fc1], the activation, [fc2]. *)
Definition project (self : t) (x : Tensor xreal) : option (Tensor xreal) :=
  x <- Linear.forward (fc1 self) x ;;
  let x := tmap F_gelu x in
  Linear.forward (fc2 self) x.

Definition blocks (self : t) (x : Tensor xreal) : option (Tensor xreal) :=
  block_stack (fun i => SpectralConv2d.forward (conv self i))
              (fun i => Conv3d.forward (w self i))
              (tbin xadd)
              (tmap F_gelu)
              x.

Definition forward (self : t) (x : Tensor xreal) : option (Tensor xreal) :=
  x <- lift self x ;;
  x <- permute_04123 x ;;
  x <- blocks self x ;;
  x <- permute_02341 x ;;
  project self x.

(** [model(xx)]: the call runs [forward] and leaves the module as it was
    ([forward] assigns to no attribute of [self]). *)
Definition call (self : t) (x : Tensor xreal) : option (Tensor xreal) * t :=
  (forward self x, self).

End Forward.

End FNO2d_Multi.

(** ** The rollout of one batch (lines 689-709)

    [range(0, T, step)] raises on a zero step. *)
Definition py_range (stop step : nat) : option (list nat) :=
  if step =? 0 then None
  else Some (map (fun k => k * step) (seq 0 ((stop + step - 1) / step))).

Module Rollout.

(** The variables of the loop: the window [xx], the prediction buffer
    [pred] (unbound before the first pass) and the summed step loss
    (the Python integer [0] before the first pass). *)
Record state : Type := mkState {
  xx : Tensor xreal;
  pred : option (Tensor xreal);
  loss : option (Tensor xreal)
}.

Section Loop.
Context {lib : TorchLib}.
Variable g : Globals.
Variable model : FNO2d_Multi.t.
Variable myloss : LpLoss.t.

(** [myloss(a.reshape(batch_size, -1), b.reshape(batch_size, -1))] *)
Definition batch_loss (a b : Tensor xreal) : option (Tensor xreal) :=
  a2 <- reshape_2d a (batch_size g) ;;
  b2 <- reshape_2d b (batch_size g) ;;
  LpLoss.call myloss a2 b2.

(** One pass of the body of [for t in range(0, T, step)]. *)
Definition transition (yy : Tensor xreal) (t : nat) (st : state) : option state :=
  y <- slice_last yy t (t + step g) ;;
  im <- fst (FNO2d_Multi.call g model (xx st)) ;;
  l <- batch_loss im y ;;
  loss' <- match loss st with
           | None => Some l
           | Some acc => tbin xadd acc l
           end ;;
  pred' <- (if t =? 0 then Some im
            else p <- pred st ;; cat_last p im) ;;
  tail <- slice_last_from (xx st) (step g) ;;
  xx' <- cat_last tail im ;;
  Some (mkState xx' (Some pred') (Some loss')).

Fixpoint run (yy : Tensor xreal) (ts : list nat) (st : state) : option state :=
  match ts with
  | [] => Some st
  | t :: ts' =>
      st' <- transition yy t st ;;
      run yy ts' st'
  end.

(** [loss.item()] *)
Definition item (l : Tensor xreal) : option xreal :=
  if numel (shape l) =? 1 then Some (data l (map (fun _ => 0) (shape l))) else None.

(** What holds after [j] passes of the loop: the window has [T_in]
    time channels, the prediction buffer [j * step] of them, and the summed
    loss is one number. *)
Definition invariant (B X Y j : nat) (st : state) : Prop :=
  shape (xx st) = [B; num_vars g; X; Y; T_in g] /\
  match pred st with
  | None => j = 0
  | Some p => 0 < j /\ shape p = [B; num_vars g; X; Y; j * step g]
  end /\
  match loss st with
  | None => j = 0
  | Some l => 0 < j /\ shape l = []
  end.

(** The body of [for xx, yy in train_loader] up to [l2_full]: the final
    state, [loss.item()] and [l2_full.item()]. *)
Definition rollout (xx0 yy : Tensor xreal) : option (state * xreal * xreal) :=
  ts <- py_range (T g) (step g) ;;
  st <- run yy ts (mkState xx0 None None) ;;
  l <- loss st ;;
  l2_step <- item l ;;
  p <- pred st ;;
  l2_full <- batch_loss p yy ;;
  l2_full_item <- item l2_full ;;
  Some (st, l2_step, l2_full_item).

End Loop.

End Rollout.

(** What a norm or a quotient of norms can be: a non-negative real, [PInf]
    or [NaN]. *)
Definition nonneg (v : xreal) : Prop :=
  match v with
  | Fin r => (0 <= r)%R
  | PInf | NaN => True
  | NInf => False
  end.

(** What a loss on a zero target is: an infinity or [NaN]. *)
Definition non_finite (v : xreal) : Prop := v = PInf \/ v = NaN.

(** ** The four normalisation strategies under one interface

    The program picks its normalizer by the line left uncommented
    (lines 630-639); the four classes share [encode] and [decode]. *)

Inductive strategy : Type :=
| PerFeatureGaussian   (* UnitGaussianNormalizer *)
| GlobalGaussian       (* GaussianNormalizer *)
| PerFeatureRange      (* RangeNormalizer *)
| GlobalMinMax.        (* MinMax_Normalizer *)

Module Normalizer.

Inductive t : Type :=
| OfUnitGaussian (n : UnitGaussianNormalizer.t)
| OfGaussian (n : GaussianNormalizer.t)
| OfRange (n : RangeNormalizer.t)
| OfMinMax (n : MinMax_Normalizer.t).

(** The constructor call for a strategy; [eps] goes to the std-based
    classes, [low] and [high] to the range classes. *)
Definition fit (st : strategy) (x : Tensor xreal) (eps low high : R) : option t :=
  match st with
  | PerFeatureGaussian => Some (OfUnitGaussian (UnitGaussianNormalizer.init x eps))
  | GlobalGaussian => Some (OfGaussian (GaussianNormalizer.init x eps))
  | PerFeatureRange => option_map OfRange (RangeNormalizer.init x low high)
  | GlobalMinMax => option_map OfMinMax (MinMax_Normalizer.init x low high)
  end.

Definition encode (self : t) (x : Tensor xreal) : option (Tensor xreal) :=
  match self with
  | OfUnitGaussian n => UnitGaussianNormalizer.encode n x
  | OfGaussian n => Some (GaussianNormalizer.encode n x)
  | OfRange n => RangeNormalizer.encode n x
  | OfMinMax n => MinMax_Normalizer.encode n x
  end.

Definition decode (self : t) (x : Tensor xreal) : option (Tensor xreal) :=
  match self with
  | OfUnitGaussian n => UnitGaussianNormalizer.decode n x
  | OfGaussian n => Some (GaussianNormalizer.decode n x)
  | OfRange n => RangeNormalizer.decode n x
  | OfMinMax n => MinMax_Normalizer.decode n x
  end.

End Normalizer.

(** Every entry of the tensor is a real number. *)
Definition all_finite (t : Tensor xreal) : Prop :=
  forall idx, inb (shape t) idx = true -> finite (data t idx).




(** ** Concrete library functions and inputs, for the examples below *)

(** The discrete Fourier transforms in exact arithmetic. *)
Definition angle (k n N : nat) : R := (2 * PI * INR (k * n) / INR N)%R.

Definition cis (theta : R) : cplx := (Fin (cos theta), Fin (sin theta)).

Definition dft_rfft2 (X Y : nat) (f : nat -> nat -> xreal) (k1 k2 : nat) : cplx :=
  csum (map (fun n1 =>
    csum (map (fun n2 =>
      cscale (f n1 n2) (cis (- (angle k1 n1 X + angle k2 n2 Y))))
      (seq 0 Y)))
    (seq 0 X)).

(** The inverse over the first axis, then the complex-to-real inverse over
    the half spectrum of the second axis. *)
Definition dft_irfft2 (X Y : nat) (F : nat -> nat -> cplx) (n1 n2 : nat) : xreal :=
  let Z k2 := cscale (Fin (1 / INR X))
                (csum (map (fun k1 => cmul (F k1 k2) (cis (angle k1 n1 X))) (seq 0 X))) in
  let middle := xsum (map (fun k2 =>
                   xmul (Fin 2) (fst (cmul (Z k2) (cis (angle k2 n2 Y)))))
                   (seq 1 ((Y - 1) / 2))) in
  let nyquist := if Nat.even Y
                 then xmul (fst (Z (Y / 2))) (Fin (if Nat.even n2 then 1 else -1))
                 else Fin 0 in
  xmul (Fin (1 / INR Y)) (xadd (xadd (fst (Z 0)) middle) nyquist).

(** GELU in its tanh form, a stand-in where an example needs a concrete
    activation. *)
Definition gelu_tanh (x : xreal) : xreal :=
  match x with
  | Fin r => Fin (r / 2 * (1 + tanh (sqrt (2 / PI) * (r + 44715 / 1000000 * (r * r * r)))))
  | PInf => PInf
  | NInf | NaN => NaN
  end.

Definition example_lib : TorchLib := {|
  fft_rfft2 := dft_rfft2;
  fft_irfft2 := dft_irfft2;
  F_gelu := gelu_tanh
|}.

(** The operations of the block stack as a term: the trace of a run. *)
Inductive trace : Type :=
| Latent
| SpectralConv (i : nat) (x : trace)
| PointwiseLinear (i : nat) (x : trace)
| Sum (a b : trace)
| Gelu (x : trace).

Definition trace_conv (i : nat) (x : trace) : option trace := Some (SpectralConv i x).
Definition trace_w (i : nat) (x : trace) : option trace := Some (PointwiseLinear i x).
Definition trace_add (a b : trace) : option trace := Some (Sum a b).

(** A two-axis tensor (samples by features) from its rows. *)
Definition tensor_of_rows (rows : list (list R)) : Tensor xreal :=
  mkTensor [length rows; length (hd [] rows)] (fun idx =>
    match idx with
    | [i; j] => Fin (nth j (nth i rows []) 0%R)
    | _ => NaN
    end).

Definition varied_rows : Tensor xreal := tensor_of_rows [[0]; [2]]%R.

(** [myloss = LpLoss(size_average=False)] (line 673), with the defaults
    [d=2, p=2, reduction=True]. *)
Definition myloss : LpLoss.t := LpLoss.mk 2 2 true false.

(** A prediction and a target whose first example is zero. *)
Definition ones_rows : Tensor xreal := tensor_of_rows [[1]; [1]]%R.

(** Draws that are 1 everywhere, and 2 everywhere. *)
Definition draw_ones (idx : list nat) : cplx := (Fin 1, Fin 0).
Definition draw_twos (idx : list nat) : cplx := (Fin 2, Fin 0).




(** A small configuration: a window of two steps, a horizon of four, two
    steps per pass, one variable on a grid of 4 by 1 points. *)
Definition example_globals : Globals :=
  mkGlobals 2 4 2 1 1 [Fin 0; Fin 1; Fin 2; Fin 3]%R [Fin 0].

(** The same with a window shorter than the step. *)
Definition short_window_globals : Globals :=
  mkGlobals 1 2 2 1 1 [Fin 0; Fin 1; Fin 2; Fin 3]%R [Fin 0].

Definition example_draws : Draws :=
  mkDraws (fun _ _ => Fin 1) (fun _ _ => (Fin 1, Fin 0)).

(** A tensor of shape [s] that is 1 everywhere. *)
Definition ones (s : list nat) : Tensor xreal := mkTensor s (fun _ => Fin 1).

(** A Fourier layer of one channel that keeps the single mode (0, 0). *)
Definition mean_layer : SpectralConv2d.t :=
  let scale := Fin (1 / INR (1 * 1)) in
  SpectralConv2d.mk 1 1 1 1 1 1 scale
    (mkTensor [1; 1; 1; 1; 1; 1] (fun idx => cscale scale (draw_ones idx)))
    (mkTensor [1; 1; 1; 1; 1; 1] (fun idx => cscale scale (draw_twos idx))).

(** Inputs on a grid of 1 by 4 points that have the same sum: 1 at the
    point [at_], 0 elsewhere. *)
Definition delta_y (at_ : nat) : Tensor xreal :=
  mkTensor [1; 1; 1; 1; 4] (fun idx =>
    if last idx 0 =? at_ then Fin 1 else Fin 0).

(** ** The number of parameters (lines 552-557) *)






(** ** The split into training and test data (lines 619-623) *)

(** [uvp[a0:b0, :, :, :, a4:b4]] with non-negative bounds, clipped to the
    axes.  [uvp] is the stack of three permuted four-axis fields
    (lines 578-589) and has five axes. *)
Definition slice_samples_time {A} (uvp : Tensor A) (nan : A) (a0 b0 a4 b4 : nat)
  : option (Tensor A) :=
  match shape uvp with
  | [N; V; X; Y; L] =>
      let a0' := Nat.min a0 N in
      let b0' := Nat.min b0 N in
      let a4' := Nat.min a4 L in
      let b4' := Nat.min b4 L in
      Some (mkTensor [b0' - a0'; V; X; Y; b4' - a4'] (fun idx =>
              match idx with
              | [i; v; x; y; c] => data uvp [a0' + i; v; x; y; a4' + c]
              | _ => nan
              end))
  | _ => None
  end.

Record Split : Type := mkSplit {
  train_a : Tensor xreal;
  train_u : Tensor xreal;
  test_a : Tensor xreal;
  test_u : Tensor xreal
}.

(** [train_a = uvp[:ntrain,:,:,:,:T_in]], [train_u =
    uvp[:ntrain,:,:,:,T_in:T+T_in]], [test_a = uvp[-ntest:,:,:,:,:T_in]],
    [test_u = uvp[-ntest:,:,:,:,T_in:T+T_in]]. *)
Definition split (g : Globals) (ntrain ntest : nat) (uvp : Tensor xreal) : option Split :=
  let N := hd 0 (shape uvp) in
  tr_a <- slice_samples_time uvp NaN 0 ntrain 0 (T_in g) ;;
  tr_u <- slice_samples_time uvp NaN 0 ntrain (T_in g) (T g + T_in g) ;;
  te_a <- slice_samples_time uvp NaN (neg_start N ntest) N 0 (T_in g) ;;
  te_u <- slice_samples_time uvp NaN (neg_start N ntest) N (T_in g) (T g + T_in g) ;;
  Some (mkSplit tr_a tr_u te_a te_u).

(** Five samples of one variable at one point over six time steps: the
    entry of sample [i] at time [c] is [10 * i + c]. *)
Definition small_dataset : Tensor xreal :=
  mkTensor [5; 1; 1; 1; 6] (fun idx =>
    Fin (10 * INR (hd 0 idx) + INR (last idx 0))).

(** The small configuration with a step longer than the window and a
    horizon of two steps, and with a horizon that is not a multiple of the
    step. *)
Definition long_step_globals : Globals :=
  mkGlobals 1 4 2 1 1 [Fin 0; Fin 1; Fin 2; Fin 3]%R [Fin 0].

Definition partial_step_globals : Globals :=
  mkGlobals 2 3 2 1 1 [Fin 0; Fin 1; Fin 2; Fin 3]%R [Fin 0].

(** ** Testing (lines 756-783) *)

(** [batch_size = 1] rebinds the module-level name. *)
Definition with_batch_size (g : Globals) (b : nat) : Globals :=
  mkGlobals (T_in g) (T g) (step g) (num_vars g) b (x_grid g) (y_grid g).

(** The batch of the single sample [i], as a loader with [batch_size=1]
    and [shuffle=False] yields it: [t[i:i+1]]. *)
Definition sample_batch {A} (t : Tensor A) (i : nat) : Tensor A :=
  mkTensor (1 :: tl (shape t)) (fun idx => data t (i :: tl idx)).

(** A size without its leading axes of size 1. *)
Fixpoint strip_ones (s : list nat) : list nat :=
  match s with
  | 1 :: s' => strip_ones s'
  | _ => s
  end.

(** [t[i] = v] for an integer [i]: the value, viewed without its leading
    axes of size 1, is expanded to the shape of the row [t[i]].  It raises
    when [i] is out of range and when the value cannot be expanded. *)
Definition set_row {A} (t : Tensor A) (i : nat) (v : Tensor A) : option (Tensor A) :=
  match shape t with
  | [] => None
  | n :: row =>
      let src := strip_ones (shape v) in
      if (i <? n) && (length src <=? length row)
         && expandable src (skipn (length row - length src) row)
      then Some (mkTensor (n :: row) (fun idx =>
                   match idx with
                   | j :: idx' =>
                       if j =? i
                       then data v (repeat 0 (length (shape v) - length src)
                                    ++ bidx src idx')
                       else data t idx
                   | [] => data t idx
                   end))
      else None
  end.

Section Testing.
Context {lib : TorchLib}.
Variable g : Globals.
Variable model : FNO2d_Multi.t.
Variable myloss : LpLoss.t.

(** The body of [for xx, yy in test_loader] for the sample [i]: [loss = 0]
    and the passes of the rollout.  [pred] is a module-level name: it keeps
    the binding it had, and the body returns its new binding. *)
Definition test_sample (test_a test_u : Tensor xreal)
                       (pred : option (Tensor xreal)) (i : nat)
  : option (option (Tensor xreal)) :=
  ts <- py_range (T g) (step g) ;;
  st <- Rollout.run (with_batch_size g 1) model myloss (sample_batch test_u i) ts
          (Rollout.mkState (sample_batch test_a i) pred None) ;;
  Some (Rollout.pred st).

Fixpoint test_loop (test_a test_u : Tensor xreal) (samples : list nat)
                   (pred : option (Tensor xreal)) : option (option (Tensor xreal)) :=
  match samples with
  | [] => Some pred
  | i :: samples' =>
      pred' <- test_sample test_a test_u pred i ;;
      test_loop test_a test_u samples' pred'
  end.

(** The testing block: the loader over [TensorDataset(test_a, test_u)]
    (which asserts that the two tensors have as many samples),
    [pred_set = torch.zeros(test_u.shape)], [index = 0], the loop over the
    samples and, after the loop, [pred_set[index] = pred; index += 1].
    Returns [pred_set] and [index]. *)
Definition testing (test_a test_u : Tensor xreal) (pred : option (Tensor xreal))
  : option (Tensor xreal * nat) :=
  n <- hd_error (shape test_a) ;;
  n' <- hd_error (shape test_u) ;;
  if n =? n' then
    let pred_set := zeros (Fin 0) (shape test_u) in
    let index := 0 in
    pred <- test_loop test_a test_u (seq 0 n) pred ;;
    pred <- pred ;;
    pred_set <- set_row pred_set index pred ;;
    Some (pred_set, index + 1)
  else None.

End Testing.

(** The network with other layers [fc_d0], [fc_d1], [fc_d2] (as loading
    or training other weights for them gives it). *)
Definition with_fc_d (self : FNO2d_Multi.t) (d0 d1 d2 : Linear.t) : FNO2d_Multi.t :=
  FNO2d_Multi.mk (FNO2d_Multi.modes1 self) (FNO2d_Multi.modes2 self)
    (FNO2d_Multi.width self) (FNO2d_Multi.fc0 self) d0
    (FNO2d_Multi.conv0 self) (FNO2d_Multi.conv1 self) (FNO2d_Multi.conv2 self)
    (FNO2d_Multi.conv3 self) (FNO2d_Multi.conv4 self) (FNO2d_Multi.conv5 self)
    (FNO2d_Multi.w0 self) (FNO2d_Multi.w1 self) (FNO2d_Multi.w2 self)
    (FNO2d_Multi.w3 self) (FNO2d_Multi.w4 self) (FNO2d_Multi.w5 self)
    (FNO2d_Multi.fc1 self) (FNO2d_Multi.fc2 self) d1 d2
    (FNO2d_Multi.training self).

(** ** The samples of a batch *)

(** The sample [k] of [t] and the sample [k'] of [t'] hold the same
    entries. *)
Definition same_sample {A} (k k' : nat) (t t' : Tensor A) : Prop :=
  forall v i j c, data t [k; v; i; j; c] = data t' [k'; v; i; j; c].

(** A batch of two samples on the grid of the small configuration: the
    entries of sample [b] are [b]. *)
Definition two_samples : Tensor xreal :=
  mkTensor [2; 1; 4; 1; 2] (fun idx => Fin (INR (hd 0 idx))).

(* ===================================================================== *)
(** * Part II: properties *)
(* ===================================================================== *)

Unset Implicit Arguments.

Section XRealFacts.
Local Open Scope R_scope.

(** ** Extended reals *)

Lemma sgn_pos (r : R) : 0 < r -> sgn r = Gt.
Proof.
  intros H. unfold sgn. destruct (total_order_T r 0) as [[H0 | H0] | H0]; try lra.
  reflexivity.
Qed.

Lemma sgn_neg (r : R) : r < 0 -> sgn r = Lt.
Proof.
  intros H. unfold sgn. destruct (total_order_T r 0) as [[H0 | H0] | H0]; try lra.
  reflexivity.
Qed.

Lemma sgn_zero (r : R) : r = 0 -> sgn r = Eq.
Proof.
  intros H. unfold sgn. destruct (total_order_T r 0) as [[H0 | H0] | H0]; try lra.
  reflexivity.
Qed.

Lemma sgn_Eq_inv (r : R) : sgn r = Eq -> r = 0.
Proof.
  unfold sgn. destruct (total_order_T r 0) as [[H0 | H0] | H0]; congruence.
Qed.

Lemma sgn_Lt_inv (r : R) : sgn r = Lt -> r < 0.
Proof.
  unfold sgn. destruct (total_order_T r 0) as [[H0 | H0] | H0]; congruence.
Qed.

Lemma sgn_Gt_inv (r : R) : sgn r = Gt -> 0 < r.
Proof.
  unfold sgn. destruct (total_order_T r 0) as [[H0 | H0] | H0]; congruence.
Qed.

Lemma xdiv_fin (a b : R) : b <> 0 -> xdiv (Fin a) (Fin b) = Fin (a / b).
Proof.
  intros Hb. simpl. destruct (sgn b) eqn:E; try reflexivity.
  apply sgn_Eq_inv in E. contradiction.
Qed.


End XRealFacts.

(** ** Indices, row-major positions and reshaping *)

Ltac inb_split H :=
  let Hlt := fresh "Hlt" in
  apply andb_prop in H; destruct H as [Hlt H]; apply Nat.ltb_lt in Hlt.

Lemma flat_lt (s idx : list nat) : inb s idx = true -> flat s idx < numel s.
Proof.
  revert idx. induction s as [| d s IH]; intros [| i idx] H; simpl in *;
    try discriminate; try lia.
  inb_split H. specialize (IH _ H). nia.
Qed.

Lemma div_row (i n f : nat) : f < n -> (i * n + f) / n = i.
Proof.
  intros H. symmetry. apply (Nat.div_unique _ n i f); lia.
Qed.

Lemma mod_row (i n f : nat) : f < n -> (i * n + f) mod n = f.
Proof.
  intros H. symmetry. apply (Nat.mod_unique _ n i f); lia.
Qed.

Lemma unflat_flat (s idx : list nat) :
  inb s idx = true -> unflat s (flat s idx) = idx.
Proof.
  revert idx. induction s as [| d s IH]; intros [| i idx] H; simpl in *;
    try discriminate; try reflexivity.
  inb_split H. pose proof (flat_lt _ _ H) as Hf.
  rewrite div_row, mod_row, IH by assumption. reflexivity.
Qed.


Lemma inb_unflat (s : list nat) (k : nat) :
  k < numel s -> inb s (unflat s k) = true.
Proof.
  revert k. induction s as [| d s IH]; intros k H; simpl in *.
  - reflexivity.
  - destruct (Nat.eq_dec (numel s) 0) as [E | E]; [rewrite E in H; lia |].
    rewrite IH by (apply Nat.mod_upper_bound; exact E).
    rewrite andb_true_r. apply Nat.ltb_lt.
    apply Nat.Div0.div_lt_upper_bound. lia.
Qed.

Lemma inb_length (s idx : list nat) : inb s idx = true -> length idx = length s.
Proof.
  revert idx. induction s as [| d s IH]; intros [| i idx] H; simpl in *;
    try discriminate; try reflexivity.
  inb_split H. f_equal. apply IH. exact H.
Qed.


Lemma reshape_spec {A} (t : Tensor A) (s : list nat) :
  numel (shape t) = numel s ->
  reshape t s = Some (mkTensor s (fun idx => data t (unflat (shape t) (flat s idx)))).
Proof.
  intros H. unfold reshape. rewrite (proj2 (Nat.eqb_eq _ _) H). reflexivity.
Qed.

Lemma reshape_2d_spec {A} (t : Tensor A) (n : nat) :
  numel (shape t) <> 0 -> n <> 0 -> numel (shape t) mod n = 0 ->
  reshape_2d t n =
  Some (mkTensor [n; numel (shape t) / n]
          (fun idx => data t (unflat (shape t) (flat [n; numel (shape t) / n] idx)))).
Proof.
  intros H0 Hn Hm. unfold reshape_2d.
  rewrite (proj2 (Nat.eqb_neq _ _) H0), (proj2 (Nat.eqb_neq _ _) Hn),
    (proj2 (Nat.eqb_eq _ _) Hm). simpl orb. cbv iota.
  apply reshape_spec. simpl.
  pose proof (Nat.div_mod_eq (numel (shape t)) n). lia.
Qed.

Lemma reshape_rows_spec {A} (t : Tensor A) (d0 : nat) (s' : list nat) :
  shape t = d0 :: s' -> numel (shape t) <> 0 ->
  reshape_rows t =
  Some (mkTensor [d0; numel s']
          (fun idx => data t (unflat (shape t) (flat [d0; numel s'] idx)))).
Proof.
  intros Hs H0. unfold reshape_rows. rewrite Hs at 1. cbn [obind hd_error].
  assert (Hd : d0 <> 0) by (rewrite Hs in H0; simpl in H0; lia).
  assert (Hq : numel (shape t) / d0 = numel s').
  { rewrite Hs. simpl. rewrite Nat.mul_comm. apply Nat.div_mul. exact Hd. }
  rewrite reshape_2d_spec; try assumption.
  - rewrite Hq. reflexivity.
  - rewrite Hs. simpl. rewrite Nat.mul_comm. apply Nat.Div0.mod_mul.
Qed.


Section MinMaxFacts.
Local Open Scope R_scope.
Import MinMax_Normalizer.





End MinMaxFacts.

(** ** Sums, means and standard deviations of finite entries *)

Section Statistics.
Local Open Scope R_scope.

Lemma finite_inv (x : xreal) : finite x -> exists r, x = Fin r.
Proof. destruct x; simpl; try tauto. intros _. eexists. reflexivity. Qed.


Lemma xsum_fin_acc (rs : list R) (a : R) :
  fold_left xadd (map Fin rs) (Fin a) = Fin (fold_left Rplus rs a).
Proof.
  revert a. induction rs as [| r rs IH]; intros a; simpl; [reflexivity | apply IH].
Qed.

Lemma xsum_fin (rs : list R) : xsum (map Fin rs) = Fin (fold_left Rplus rs 0).
Proof. apply xsum_fin_acc. Qed.

Lemma INR_length_pos {A} (l : list A) : l <> [] -> 0 < INR (length l).
Proof.
  intros H. destruct l as [| a l]; [congruence |].
  apply lt_0_INR. simpl. lia.
Qed.

Lemma xmean_fin (rs : list R) :
  rs <> [] ->
  xmean (map Fin rs) = Fin (fold_left Rplus rs 0 / INR (length rs)).
Proof.
  intros H. unfold xmean. rewrite xsum_fin, length_map.
  apply xdiv_fin. pose proof (INR_length_pos rs H). lra.
Qed.





Lemma sum_repeat (c : R) (n : nat) (a : R) :
  fold_left Rplus (repeat c n) a = a + INR n * c.
Proof.
  revert a. induction n as [| n IH]; intros a.
  - simpl. lra.
  - cbn [repeat fold_left]. rewrite IH, S_INR. lra.
Qed.

Lemma sum_zeros (n : nat) : fold_left Rplus (repeat 0 n) 0 = 0.
Proof. rewrite sum_repeat. lra. Qed.

Lemma map_repeat {A B} (f : A -> B) (a : A) (n : nat) :
  map f (repeat a n) = repeat (f a) n.
Proof. induction n; simpl; congruence. Qed.



End Statistics.

(** ** Minima and maxima of finite entries *)

Section Extrema.
Local Open Scope R_scope.










End Extrema.

(** ** The indices of a shape *)

Lemma in_indices (s idx : list nat) : In idx (indices s) <-> inb s idx = true.
Proof.
  revert idx. induction s as [| d s IH]; intros idx; simpl.
  - destruct idx; simpl; split; intros H; try discriminate; auto.
    + destruct H as [H | []]. discriminate.
  - rewrite in_flat_map. split.
    + intros (i & Hi & Hin). apply in_map_iff in Hin. destruct Hin as (idx' & <- & Hin).
      apply in_seq in Hi. apply IH in Hin. rewrite Hin, andb_true_r.
      apply Nat.ltb_lt. lia.
    + destruct idx as [| i idx']; [discriminate |]. intros H. inb_split H.
      exists i. split; [apply in_seq; lia |].
      apply in_map. apply IH. exact H.
Qed.

Lemma length_indices (s : list nat) : length (indices s) = numel s.
Proof.
  induction s as [| d s IH]; simpl; [reflexivity |].
  rewrite <- IH. generalize 0%nat as a0.
  induction d as [| d IHd]; intros a0; simpl; [reflexivity |].
  rewrite length_app, length_map, IHd. reflexivity.
Qed.


(** ** Broadcasting *)

Lemma clamp1_inb (s idx : list nat) : inb s idx = true -> clamp1 s idx = idx.
Proof.
  revert idx. induction s as [| d s IH]; intros [| i idx] H; simpl in *;
    try discriminate; try reflexivity.
  inb_split H. rewrite (IH _ H).
  destruct (Nat.eqb_spec d 1) as [-> | _]; [f_equal; lia | reflexivity].
Qed.

Lemma bidx_same (s idx : list nat) : inb s idx = true -> bidx s idx = idx.
Proof.
  intros H. unfold bidx. rewrite (inb_length _ _ H), Nat.sub_diag. simpl skipn.
  apply clamp1_inb. exact H.
Qed.

Lemma bidx_tail (s idx : list nat) (i : nat) :
  inb s idx = true -> bidx s (i :: idx) = idx.
Proof.
  intros H. unfold bidx. simpl length. rewrite (inb_length _ _ H).
  replace (S (length s) - length s) with 1 by lia. simpl skipn.
  apply clamp1_inb. exact H.
Qed.

Lemma bdim_refl (a : nat) : bdim a a = Some a.
Proof. unfold bdim. rewrite Nat.eqb_refl. reflexivity. Qed.

Lemma bshape_rev_app_l (r e : list nat) : bshape_rev (r ++ e) r = Some (r ++ e).
Proof.
  induction r as [| a r IH]; simpl.
  - destruct e; reflexivity.
  - rewrite bdim_refl. cbn [obind]. rewrite IH. reflexivity.
Qed.


Lemma bshape_refl (s : list nat) : bshape s s = Some s.
Proof.
  unfold bshape. rewrite <- (app_nil_r (rev s)) at 1.
  rewrite bshape_rev_app_l, app_nil_r. simpl. rewrite rev_involutive. reflexivity.
Qed.

Lemma bshape_cons_l (d : nat) (s : list nat) : bshape (d :: s) s = Some (d :: s).
Proof.
  unfold bshape. simpl rev. rewrite bshape_rev_app_l. simpl.
  rewrite rev_app_distr, rev_involutive. reflexivity.
Qed.


(** A batch against one value per feature. *)
Lemma tbin_batch {A B C} (f : A -> B -> C) (t1 : Tensor A) (t2 : Tensor B)
      (d : nat) (s : list nat) :
  shape t1 = d :: s -> shape t2 = s ->
  exists t, tbin f t1 t2 = Some t /\ shape t = d :: s /\
    forall i idx, inb (d :: s) (i :: idx) = true ->
      data t (i :: idx) = f (data t1 (i :: idx)) (data t2 idx).
Proof.
  intros H1 H2. unfold tbin. rewrite H1, H2, bshape_cons_l. cbn [obind].
  eexists. split; [reflexivity |]. split; [reflexivity |].
  intros i idx H. cbn [data]. rewrite (bidx_same _ _ H).
  simpl in H. inb_split H. rewrite (bidx_tail _ _ _ H). reflexivity.
Qed.


Lemma tbin_same {A B C} (f : A -> B -> C) (t1 : Tensor A) (t2 : Tensor B)
      (s : list nat) :
  shape t1 = s -> shape t2 = s ->
  exists t, tbin f t1 t2 = Some t /\ shape t = s /\
    forall idx, inb s idx = true -> data t idx = f (data t1 idx) (data t2 idx).
Proof.
  intros H1 H2. unfold tbin. rewrite H1, H2, bshape_refl. cbn [obind].
  eexists. split; [reflexivity |]. split; [reflexivity |].
  intros idx H. cbn [data]. rewrite (bidx_same _ _ H). reflexivity.
Qed.

(** ** The column of a feature *)


(** ** Decoding what was encoded *)

Section RoundTrip.
Local Open Scope R_scope.








End RoundTrip.

Section RangeRoundTrip.
Local Open Scope R_scope.


Lemma inb_pair (d F : nat) (J : list nat) :
  inb [d; F] J = true -> exists i j, J = [i; j] /\ (j < F)%nat.
Proof.
  destruct J as [| i [| j [| k J]]]; simpl; intros H; try discriminate.
  - rewrite andb_false_r in H. discriminate.
  - inb_split H. inb_split H. exists i, j. split; [reflexivity | assumption].
  - rewrite !andb_false_r in H. discriminate.
Qed.


End RangeRoundTrip.

(** ** Constant training data *)

Section Degenerate.
Local Open Scope R_scope.

Lemma map_const {A B} (b : B) (l : list A) : map (fun _ => b) l = repeat b (length l).
Proof. induction l; simpl; congruence. Qed.










Lemma tensor_of_rows_finite (rows : list (list R)) : all_finite (tensor_of_rows rows).
Proof.
  intros idx H. unfold tensor_of_rows in *. cbn [data shape] in *.
  destruct (inb_pair _ _ _ H) as (i & j & -> & _). exact I.
Qed.




End Degenerate.

(** ** C5: decoding an encoded tensor *)

Section DecodeEncode.
Local Open Scope R_scope.




End DecodeEncode.

(** ** C10: the relative loss on a zero target *)

Section RelativeLoss.
Local Open Scope R_scope.

Lemma reshape_2d_rows {A} (t : Tensor A) (n : nat) (s : list nat) :
  shape t = n :: s -> numel (shape t) <> 0%nat ->
  reshape_2d t n =
  Some (mkTensor [n; numel s]
          (fun idx => data t (unflat (shape t) (flat [n; numel s] idx)))).
Proof.
  intros Hs H0. pose proof (reshape_rows_spec t n s Hs H0) as H.
  unfold reshape_rows in H. rewrite Hs in H at 1. exact H.
Qed.

Lemma rpow_nonneg (r p : R) : 0 <= rpow r p.
Proof.
  unfold rpow. destruct (sgn r); try lra.
  unfold Rpower. left. apply exp_pos.
Qed.

Lemma xpow_nonneg (v : xreal) (p : R) : nonneg (xpow v p).
Proof.
  destruct v as [r | | |]; simpl; try exact I.
  destruct (sgn r); simpl; try exact I; apply rpow_nonneg.
Qed.

Lemma xpow_zero (p : R) : xpow (Fin 0) p = Fin 0.
Proof.
  simpl. rewrite (sgn_zero 0) by reflexivity. unfold rpow.
  rewrite (sgn_zero 0) by reflexivity. reflexivity.
Qed.

Lemma xdiv_nonneg (u v : xreal) : nonneg u -> nonneg v -> nonneg (xdiv u v).
Proof.
  destruct u as [a | | |], v as [b | | |]; simpl; try tauto; intros Ha Hb.
  - destruct (sgn b) eqn:Eb.
    + unfold inf_of_sign. destruct (sgn a) eqn:Ea; simpl; try exact I.
      apply sgn_Lt_inv in Ea. lra.
    + apply sgn_Lt_inv in Eb. lra.
    + apply sgn_Gt_inv in Eb. simpl. apply Rmult_le_pos; [exact Ha |].
      left. apply Rinv_0_lt_compat. exact Eb.
  - lra.
  - destruct (sgn b) eqn:Eb; simpl; try exact I.
    apply sgn_Lt_inv in Eb. lra.
Qed.

Lemma xdiv_by_zero (u : xreal) : nonneg u -> non_finite (xdiv u (Fin 0)).
Proof.
  destruct u as [a | | |]; simpl; try tauto; intros Ha;
    try rewrite (sgn_zero 0) by reflexivity.
  - unfold inf_of_sign, non_finite. destruct (sgn a) eqn:Ea; auto.
    apply sgn_Lt_inv in Ea. lra.
  - left. reflexivity.
  - right. reflexivity.
Qed.

Lemma xadd_nonneg (u v : xreal) : nonneg u -> nonneg v -> nonneg (xadd u v).
Proof.
  destruct u as [a | | |], v as [b | | |]; simpl; try tauto. lra.
Qed.

Lemma xadd_non_finite_l (u v : xreal) : non_finite u -> nonneg v -> non_finite (xadd u v).
Proof.
  intros [-> | ->] Hv; destruct v; simpl in *; unfold non_finite; tauto.
Qed.

Lemma xadd_non_finite_r (u v : xreal) : nonneg u -> non_finite v -> non_finite (xadd u v).
Proof.
  intros Hu [-> | ->]; destruct u; simpl in *; unfold non_finite; tauto.
Qed.

Lemma fold_xadd_nonneg (l : list xreal) (acc : xreal) :
  Forall nonneg l -> nonneg acc -> nonneg (fold_left xadd l acc).
Proof.
  intros Hl. revert acc. induction Hl as [| v l Hv _ IH]; intros acc Ha; simpl.
  - exact Ha.
  - apply IH. apply xadd_nonneg; assumption.
Qed.

Lemma fold_xadd_non_finite_acc (l : list xreal) (acc : xreal) :
  Forall nonneg l -> non_finite acc -> non_finite (fold_left xadd l acc).
Proof.
  intros Hl. revert acc. induction Hl as [| v l Hv _ IH]; intros acc Ha; simpl.
  - exact Ha.
  - apply IH. apply xadd_non_finite_l; assumption.
Qed.

(** A sum of norms' quotients one of which is not finite is not finite. *)
Lemma fold_xadd_non_finite (l : list xreal) (acc v : xreal) :
  Forall nonneg l -> nonneg acc -> In v l -> non_finite v ->
  non_finite (fold_left xadd l acc).
Proof.
  intros Hl. revert acc. induction Hl as [| u l Hu Hl IH]; intros acc Ha Hin Hv.
  - contradiction.
  - simpl. destruct Hin as [-> | Hin].
    + apply fold_xadd_non_finite_acc; [exact Hl |].
      apply xadd_non_finite_r; assumption.
    + apply IH; try assumption. apply xadd_nonneg; assumption.
Qed.

Lemma xmean_non_finite (l : list xreal) :
  l <> [] -> non_finite (xsum l) -> non_finite (xmean l).
Proof.
  intros Hl H. unfold xmean. pose proof (INR_length_pos l Hl) as Hpos.
  destruct H as [-> | ->]; simpl.
  - rewrite sgn_pos by exact Hpos. left. reflexivity.
  - right. reflexivity.
Qed.

Lemma norm_rows_nonneg (m : Tensor xreal) (p : R) (idx : list nat) :
  nonneg (data (LpLoss.norm_rows m p) idx).
Proof. unfold LpLoss.norm_rows. cbn [data]. apply xpow_nonneg. Qed.

(** The norm of a row of zeros is zero. *)
Lemma norm_rows_zero (m : Tensor xreal) (p : R) (k : nat) :
  (forall j, (j < hd 0%nat (tl (shape m)))%nat -> data m [k; j] = Fin 0) ->
  data (LpLoss.norm_rows m p) [k] = Fin 0.
Proof.
  intros H. unfold LpLoss.norm_rows. cbn [data hd].
  replace (map (fun j => xpow (xabs (data m [k; j])) p) (seq 0 (hd 0%nat (tl (shape m)))))
    with (map Fin (repeat 0 (hd 0%nat (tl (shape m))))).
  - rewrite xsum_fin, sum_zeros. apply xpow_zero.
  - rewrite map_repeat. symmetry.
    transitivity (map (fun _ : nat => Fin 0) (seq 0 (hd 0%nat (tl (shape m))))).
    + apply map_ext_in. intros j Hj. apply in_seq in Hj.
      rewrite H by lia. simpl xabs. rewrite Rabs_R0. apply xpow_zero.
    + rewrite map_const, length_seq. reflexivity.
Qed.

Lemma unflat_row (n k j : nat) (s : list nat) :
  (j < numel s)%nat ->
  unflat (n :: s) (flat [n; numel s] [k; j]) = k :: unflat s j.
Proof.
  intros Hj. simpl.
  replace (k * (numel s * 1) + (j * 1 + 0))%nat with (k * numel s + j)%nat by lia.
  rewrite div_row, mod_row by exact Hj. reflexivity.
Qed.

Lemma entries_vector {A} (t : Tensor A) (n : nat) :
  shape t = [n] -> entries t = map (fun i => data t [i]) (seq 0 n).
Proof.
  intros Hs. unfold entries. rewrite Hs. cbn [indices].
  clear Hs. generalize 0%nat as a0.
  induction n as [| n IH]; intros a0; simpl; [reflexivity |].
  f_equal. apply IH.
Qed.

(** C10.  [LpLoss.__call__] is [LpLoss.rel], which divides the norm of each
    example's difference by the norm of that example's target.  When the
    target of an example is zero everywhere, the call returns (it raises
    nothing) and what it returns is not finite: the reduced loss (sum or
    mean) is [PInf] or [NaN], and so is that example's entry of the
    unreduced loss. *)
Theorem rel_zero_target
  (self : LpLoss.t) (x y : Tensor xreal) (n k : nat) (sx : list nat) :
  shape x = n :: sx -> shape y = n :: sx -> numel (n :: sx) <> 0%nat ->
  (k < n)%nat ->
  (forall idx, inb sx idx = true -> data y (k :: idx) = Fin 0) ->
  LpLoss.call self x y = LpLoss.rel self x y /\
  exists l, LpLoss.call self x y = Some l /\
    if LpLoss.reduction self
    then shape l = [] /\ non_finite (data l [])
    else shape l = [n] /\ non_finite (data l [k]).
Proof.
  intros Hx Hy H0 Hk Hzero. split; [reflexivity |].
  unfold LpLoss.call, LpLoss.rel. rewrite Hx. cbn [hd_error obind].
  rewrite (reshape_2d_rows x n sx Hx) by (rewrite Hx; exact H0).
  rewrite (reshape_2d_rows y n sx Hy) by (rewrite Hy; exact H0).
  cbn [obind].
  set (x2 := mkTensor [n; numel sx] _).
  set (y2 := mkTensor [n; numel sx] _).
  destruct (tbin_same xsub x2 y2 [n; numel sx] eq_refl eq_refl) as (diff & -> & Hd_s & _).
  cbn [obind].
  assert (Hn_s : forall m, shape m = [n; numel sx] ->
                 shape (LpLoss.norm_rows m (LpLoss.p self)) = [n]).
  { intros m Hm. unfold LpLoss.norm_rows. rewrite Hm. reflexivity. }
  destruct (tbin_same xdiv (LpLoss.norm_rows diff (LpLoss.p self))
              (LpLoss.norm_rows y2 (LpLoss.p self)) [n] (Hn_s diff Hd_s) (Hn_s y2 eq_refl))
    as (q & -> & Hq_s & Hq_d).
  cbn [obind].
  assert (Hin : forall i, (i < n)%nat -> inb [n] [i] = true).
  { intros i Hi. simpl. rewrite andb_true_r. apply Nat.ltb_lt. exact Hi. }
  assert (Hq_nn : forall i, (i < n)%nat -> nonneg (data q [i])).
  { intros i Hi. rewrite Hq_d by (apply Hin; exact Hi).
    apply xdiv_nonneg; apply norm_rows_nonneg. }
  assert (Hq_k : non_finite (data q [k])).
  { rewrite Hq_d by (apply Hin; exact Hk).
    rewrite (norm_rows_zero y2 (LpLoss.p self) k).
    - apply xdiv_by_zero. apply norm_rows_nonneg.
    - intros j Hj. subst y2. cbn [shape tl hd data] in *.
      rewrite Hy at 1. rewrite unflat_row by exact Hj.
      apply Hzero. apply inb_unflat. exact Hj. }
  assert (Hent : entries q = map (fun i => data q [i]) (seq 0 n))
    by (apply entries_vector; exact Hq_s).
  assert (Hall : Forall nonneg (entries q)).
  { rewrite Hent. apply Forall_forall. intros v Hv. apply in_map_iff in Hv.
    destruct Hv as (i & <- & Hi). apply in_seq in Hi. apply Hq_nn. lia. }
  assert (Hink : In (data q [k]) (entries q)).
  { rewrite Hent. apply in_map_iff. exists k. split; [reflexivity |].
    apply in_seq. lia. }
  assert (Hsum : non_finite (xsum (entries q))).
  { unfold xsum. apply (fold_xadd_non_finite _ _ (data q [k])); try assumption.
    simpl. lra. }
  destruct (LpLoss.reduction self).
  - destruct (LpLoss.size_average self); eexists; (split; [reflexivity |]);
      (split; [reflexivity |]); cbn [scalar data].
    + apply xmean_non_finite; [| exact Hsum].
      intros E. rewrite E in Hink. contradiction.
    + exact Hsum.
  - exists q. split; [reflexivity |]. split; [exact Hq_s | exact Hq_k].
Qed.

End RelativeLoss.

Lemma rel_zero_target_witness :
  LpLoss.call myloss ones_rows varied_rows = LpLoss.rel myloss ones_rows varied_rows /\
  exists l, LpLoss.call myloss ones_rows varied_rows = Some l /\
    shape l = [] /\ non_finite (data l []).
Proof.
  apply (rel_zero_target myloss ones_rows varied_rows 2 0 [1]).
  - reflexivity.
  - reflexivity.
  - simpl. lia.
  - lia.
  - intros idx H. destruct idx as [| j [| k idx]]; simpl in H; try discriminate.
    + destruct j; [reflexivity | discriminate].
    + rewrite andb_false_r in H. discriminate.
Defined.

(** ** C2: the six operator blocks *)

(** The stack of the code, block by block. *)
Lemma block_stack_spec_stack (Tn : Type) (conv w : nat -> Tn -> option Tn)
      (add : Tn -> Tn -> option Tn) (gelu : Tn -> Tn) (x : Tn) :
  block_stack conv w add gelu x = spec_stack conv w add gelu (fun i => i <? 3) x.
Proof.
  unfold block_stack, spec_stack, spec_stack_from, spec_block, Identity.
  cbn [Nat.ltb Nat.leb].
  repeat (match goal with
          | |- context [conv ?i ?a] => destruct (conv i a)
          | |- context [w ?i ?a] => destruct (w i a)
          | |- context [add ?a ?b] => destruct (add a b)
          end; cbn [obind option_map]; try reflexivity).
Qed.

(** C2 as the code has it.  Each of the six blocks computes the sum of the
    spectral convolution and of the pointwise linear map of its input; the
    blocks 1, 2 and 3 apply GELU to the sum, and the blocks 4, 5 and 6 pass
    the sum on as it is.  No other placement of the activation gives the
    same sequence of operations. *)
Theorem block_stack_activations :
  (forall (Tn : Type) (conv w : nat -> Tn -> option Tn)
          (add : Tn -> Tn -> option Tn) (gelu : Tn -> Tn) (x : Tn),
      block_stack conv w add gelu x
      = spec_stack conv w add gelu (fun i => i <? 3) x) /\
  (forall acts : nat -> bool,
      spec_stack trace_conv trace_w trace_add Gelu acts Latent
      = block_stack trace_conv trace_w trace_add Gelu Latent ->
      forall i, i < 6 -> acts i = (i <? 3)).
Proof.
  split.
  - exact block_stack_spec_stack.
  - intros acts H i Hi.
    unfold block_stack, spec_stack, spec_stack_from, spec_block, Identity,
      trace_conv, trace_w, trace_add in H.
    cbn [obind option_map] in H.
    destruct (acts 0) eqn:E0; destruct (acts 1) eqn:E1; destruct (acts 2) eqn:E2;
      destruct (acts 3) eqn:E3; destruct (acts 4) eqn:E4; destruct (acts 5) eqn:E5;
      try discriminate H.
    do 6 (destruct i as [| i]; [assumption |]). lia.
Qed.

(** C2 as stated fails: with the activation on the blocks 1 to 4 the
    stack is another sequence of operations than the one of the code, which
    leaves the sum of block 4 as it is. *)
Lemma block_stack_counterexample :
  block_stack trace_conv trace_w trace_add Gelu Latent
  <> spec_stack trace_conv trace_w trace_add Gelu (fun i => i <? 4) Latent.
Proof.
  unfold block_stack, spec_stack, spec_stack_from, spec_block, Identity,
    trace_conv, trace_w, trace_add.
  cbn [obind option_map Nat.ltb Nat.leb]. discriminate.
Qed.

(** ** The Fourier layer *)

Section SpectralFacts.
Context {lib : TorchLib}.
Import SpectralConv2d.

Lemma expandable_refl (s : list nat) : expandable s s = true.
Proof.
  induction s as [| d s IH]; simpl; [reflexivity |].
  rewrite Nat.eqb_refl, IH. reflexivity.
Qed.


Lemma init_none (in_t out_t in_d out_d m1 m2 : nat) (r1 r2 : list nat -> cplx) :
  init in_t out_t in_d out_d m1 m2 r1 r2 = None <-> in_t * out_t = 0.
Proof.
  unfold init. destruct (Nat.eqb_spec (in_t * out_t) 0); split; intros H;
    try reflexivity; try assumption; try discriminate; contradiction.
Qed.

(** The contraction over a slice of the spectrum, read on the spectrum. *)
Lemma contraction_slice (x_ft sl w : Tensor cplx) (B I P rows cols O Q start : nat)
      (b j q r c : nat) :
  shape sl = [B; I; P; rows; cols] ->
  shape w = [I; O; P; Q; rows; cols] ->
  (forall ib ii ip ix iy, data sl [ib; ii; ip; ix; iy] = data x_ft [ib; ii; ip; start + ix; iy]) ->
  b < B -> j < O -> q < Q -> r < rows -> c < cols ->
  contraction sl w I P b j q r c = mode_product x_ft w I P b j q (start + r) c r.
Proof.
  intros Hsl Hw Hd Hb Hj Hq Hr Hc. unfold contraction, mode_product.
  f_equal. apply map_ext_in. intros i Hi. apply in_seq in Hi.
  f_equal. apply map_ext_in. intros p Hp. apply in_seq in Hp.
  rewrite Hsl, Hw.
  rewrite (clamp1_inb [B; I; P; rows; cols] [b; i; p; r; c]).
  - rewrite (clamp1_inb [I; O; P; Q; rows; cols] [i; j; p; q; r; c]).
    + rewrite Hd. reflexivity.
    + simpl. repeat (rewrite (proj2 (Nat.ltb_lt _ _)) by lia). reflexivity.
  - simpl. repeat (rewrite (proj2 (Nat.ltb_lt _ _)) by lia). reflexivity.
Qed.

Lemma rfft2_spec (x : Tensor xreal) (B I P X Y : nat) :
  shape x = [B; I; P; X; Y] -> 0 < X -> 0 < Y ->
  exists x_ft, rfft2 x = Some x_ft /\ shape x_ft = [B; I; P; X; Y / 2 + 1].
Proof.
  intros Hx HX HY. unfold rfft2. rewrite Hx.
  rewrite (proj2 (Nat.eqb_neq X 0)), (proj2 (Nat.eqb_neq Y 0)) by lia.
  cbn [orb]. eexists. split; reflexivity.
Qed.

Lemma slice_block_spec {A} (t : Tensor A) (B I P X Y start rows cols : nat) :
  shape t = [B; I; P; X; Y] ->
  exists sl, slice_block t start rows cols = Some sl /\
    shape sl = [B; I; P; rows; cols] /\
    forall ib ii ip ix iy,
      data sl [ib; ii; ip; ix; iy] = data t [ib; ii; ip; start + ix; iy].
Proof.
  intros Ht. unfold slice_block. rewrite Ht.
  eexists. split; [reflexivity |]. split; reflexivity.
Qed.

Lemma compl_mul2d_spec (input w : Tensor cplx) (B I P rows cols O Q : nat) :
  shape input = [B; I; P; rows; cols] ->
  shape w = [I; O; P; Q; rows; cols] ->
  exists r, compl_mul2d input w = Some r /\
    shape r = [B; O; Q; rows; cols] /\
    forall b j q ix iy,
      data r [b; j; q; ix; iy] = contraction input w I P b j q ix iy.
Proof.
  intros Hi Hw. unfold compl_mul2d. rewrite Hi, Hw, !bdim_refl. cbn [obind].
  eexists. split; [reflexivity |]. split; reflexivity.
Qed.

Lemma assign_block_spec {A} (out rhs : Tensor A) (B O Q X Y start rows cols : nat) :
  shape out = [B; O; Q; X; Y] ->
  shape rhs = [B; O; Q; rows; cols] ->
  exists out', assign_block out rhs start rows cols = Some out' /\
    shape out' = [B; O; Q; X; Y] /\
    forall b j q r c, b < B -> j < O -> q < Q ->
      data out' [b; j; q; r; c] =
      if (start <=? r) && (r <? start + rows) && (c <? cols)
      then data rhs [b; j; q; r - start; c]
      else data out [b; j; q; r; c].
Proof.
  intros Ho Hr. unfold assign_block. rewrite Ho, Hr, expandable_refl.
  eexists. split; [reflexivity |]. split; [reflexivity |].
  intros b j q r c Hb Hj Hq. cbn [data].
  destruct ((start <=? r) && (r <? start + rows) && (c <? cols)) eqn:E; [| reflexivity].
  apply andb_prop in E. destruct E as [E Hc]. apply andb_prop in E. destruct E as [H1 H2].
  apply Nat.leb_le in H1. apply Nat.ltb_lt in H2. apply Nat.ltb_lt in Hc.
  rewrite clamp1_inb; [reflexivity |].
  simpl. repeat (rewrite (proj2 (Nat.ltb_lt _ _)) by lia). reflexivity.
Qed.

(** What [forward] leaves in the output spectrum when the modes fit the
    grid. *)
Lemma forward_spectrum_ok (L : t) (x : Tensor xreal) (B X Y : nat) :
  wf L ->
  shape x = [B; in_channels_time L; in_channels_dim L; X; Y] ->
  0 < modes1 L <= X -> modes2 L <= Y / 2 + 1 -> 0 < Y ->
  exists x_ft out_ft,
    rfft2 x = Some x_ft /\
    shape x_ft = [B; in_channels_time L; in_channels_dim L; X; Y / 2 + 1] /\
    forward_spectrum L x = Some out_ft /\
    shape out_ft = [B; out_channels_time L; out_channels_dim L; X; Y / 2 + 1] /\
    forall b j q r c,
      b < B -> j < out_channels_time L -> q < out_channels_dim L ->
      r < X -> c < Y / 2 + 1 ->
      data out_ft [b; j; q; r; c] =
      if (X - modes1 L <=? r) && (c <? modes2 L)
      then mode_product x_ft (weights2 L) (in_channels_time L) (in_channels_dim L)
                        b j q r c (r - (X - modes1 L))
      else if (r <? modes1 L) && (c <? modes2 L)
      then mode_product x_ft (weights1 L) (in_channels_time L) (in_channels_dim L)
                        b j q r c r
      else czero.
Proof.
  intros [Hw1 Hw2] Hx Hm1 Hm2 HY.
  destruct (rfft2_spec x _ _ _ X Y Hx ltac:(lia) HY) as (x_ft & Eft & Hft).
  exists x_ft.
  unfold forward_spectrum. rewrite Hx, Eft. cbn [obind].
  rewrite (Nat.min_l (modes1 L) X), (Nat.min_l (modes2 L) (Y / 2 + 1)) by lia.
  assert (Hstart : neg_start X (modes1 L) = X - modes1 L).
  { unfold neg_start. rewrite (proj2 (Nat.eqb_neq _ 0)) by lia. reflexivity. }
  rewrite Hstart. replace (X - (X - modes1 L)) with (modes1 L) by lia.
  destruct (slice_block_spec x_ft _ _ _ _ _ 0 (modes1 L) (modes2 L) Hft)
    as (lo & -> & Hlo_s & Hlo_d).
  cbn [obind].
  destruct (compl_mul2d_spec lo (weights1 L) _ _ _ _ _ _ _ Hlo_s Hw1)
    as (r1 & -> & Hr1_s & Hr1_d).
  cbn [obind].
  destruct (assign_block_spec
              (zeros czero [B; out_channels_time L; out_channels_dim L; X; Y / 2 + 1])
              r1 _ _ _ _ _ 0 (modes1 L) (modes2 L) eq_refl Hr1_s)
    as (out1 & -> & Ho1_s & Ho1_d).
  cbn [obind].
  destruct (slice_block_spec x_ft _ _ _ _ _ (X - modes1 L) (modes1 L) (modes2 L) Hft)
    as (hi & -> & Hhi_s & Hhi_d).
  cbn [obind].
  destruct (compl_mul2d_spec hi (weights2 L) _ _ _ _ _ _ _ Hhi_s Hw2)
    as (r2 & -> & Hr2_s & Hr2_d).
  cbn [obind].
  destruct (assign_block_spec out1 r2 _ _ _ _ _ (X - modes1 L) (modes1 L) (modes2 L)
              Ho1_s Hr2_s)
    as (out2 & -> & Ho2_s & Ho2_d).
  exists out2. split; [reflexivity |]. split; [exact Hft |].
  split; [reflexivity |]. split; [exact Ho2_s |].
  intros b j q r c Hb Hj Hq Hr Hc.
  rewrite Ho2_d by assumption.
  replace (r <? X - modes1 L + modes1 L) with true
    by (symmetry; apply Nat.ltb_lt; lia).
  rewrite andb_true_r.
  destruct ((X - modes1 L <=? r) && (c <? modes2 L)) eqn:E2.
  - apply andb_prop in E2. destruct E2 as [H1 H2].
    apply Nat.leb_le in H1. apply Nat.ltb_lt in H2.
    rewrite Hr2_d.
    rewrite (contraction_slice x_ft hi (weights2 L) B _ _ (modes1 L) (modes2 L)
               (out_channels_time L) (out_channels_dim L) (X - modes1 L))
      by (try assumption; lia).
    replace (X - modes1 L + (r - (X - modes1 L))) with r by lia. reflexivity.
  - rewrite Ho1_d by assumption.
    cbn [Nat.leb andb]. rewrite Nat.add_0_l, Nat.sub_0_r.
    destruct ((r <? modes1 L) && (c <? modes2 L)) eqn:E1; [| reflexivity].
    apply andb_prop in E1. destruct E1 as [H1 H2].
    apply Nat.ltb_lt in H1. apply Nat.ltb_lt in H2.
    rewrite Hr1_d.
    rewrite (contraction_slice x_ft lo (weights1 L) B _ _ (modes1 L) (modes2 L)
               (out_channels_time L) (out_channels_dim L) 0)
      by (try assumption; lia).
    reflexivity.
Qed.

End SpectralFacts.

Section SpectralClaims.
Import SpectralConv2d.

Lemma irfft2_spec {lib : TorchLib} (out_ft : Tensor cplx) (B O Q X' Y' X Y : nat) :
  shape out_ft = [B; O; Q; X'; Y'] -> 0 < X -> 0 < Y ->
  exists out, irfft2 out_ft X Y = Some out /\ shape out = [B; O; Q; X; Y].
Proof.
  intros Hs HX HY. unfold irfft2. rewrite Hs.
  rewrite (proj2 (Nat.eqb_neq X 0)), (proj2 (Nat.eqb_neq Y 0)) by lia.
  cbn [orb]. eexists. split; reflexivity.
Qed.

(** The output spectrum and the output of a forward pass whose modes fit. *)
Lemma spectral_forward_ok
  {lib : TorchLib} (L : t) (x : Tensor xreal) (B X Y : nat) :
  wf L ->
  shape x = [B; in_channels_time L; in_channels_dim L; X; Y] ->
  0 < modes1 L <= X -> modes2 L <= Y / 2 + 1 -> 0 < Y ->
  exists x_ft out_ft out,
    rfft2 x = Some x_ft /\
    forward_spectrum L x = Some out_ft /\
    shape out_ft = [B; out_channels_time L; out_channels_dim L; X; Y / 2 + 1] /\
    (forall b j q r c,
        b < B -> j < out_channels_time L -> q < out_channels_dim L ->
        r < X -> c < Y / 2 + 1 ->
        data out_ft [b; j; q; r; c] =
        if (X - modes1 L <=? r) && (c <? modes2 L)
        then mode_product x_ft (weights2 L) (in_channels_time L) (in_channels_dim L)
                          b j q r c (r - (X - modes1 L))
        else if (r <? modes1 L) && (c <? modes2 L)
        then mode_product x_ft (weights1 L) (in_channels_time L) (in_channels_dim L)
                          b j q r c r
        else czero) /\
    forward L x = Some out /\
    shape out = [B; out_channels_time L; out_channels_dim L; X; Y].
Proof.
  intros Hwf Hx Hm1 Hm2 HY.
  destruct (forward_spectrum_ok L x B X Y Hwf Hx Hm1 Hm2 HY)
    as (x_ft & out_ft & Eft & _ & Eout & Hs & Hd).
  destruct (irfft2_spec out_ft _ _ _ _ _ X Y Hs ltac:(lia) HY) as (out & Eo & Hso).
  exists x_ft, out_ft, out. repeat split; try assumption.
  unfold forward. rewrite Hx, Eout. cbn [obind]. exact Eo.
Qed.




Lemma rfft2_data {lib : TorchLib} (x : Tensor xreal) (x_ft : Tensor cplx)
      (B I P X Y : nat) :
  shape x = [B; I; P; X; Y] -> rfft2 x = Some x_ft ->
  forall b i p k1 k2,
    data x_ft [b; i; p; k1; k2]
    = fft_rfft2 X Y (fun n1 n2 => data x [b; i; p; n1; n2]) k1 k2.
Proof.
  intros Hx E. unfold rfft2 in E. rewrite Hx in E.
  destruct ((X =? 0) || (Y =? 0)); [discriminate |].
  injection E as <-. reflexivity.
Qed.

Local Open Scope R_scope.



End SpectralClaims.

(** ** C4: the constructor and the modes *)

Section ModesNotValidated.
Context {lib : TorchLib}.
Import SpectralConv2d.

Lemma obind_some {A B} (m : option A) (k : A -> option B) (v : B) :
  obind m k = Some v -> exists a, m = Some a /\ k a = Some v.
Proof. destruct m as [a |]; simpl; [eauto | discriminate]. Qed.

Lemma bdim_some (a b d : nat) :
  bdim a b = Some d -> (a = b /\ d = a) \/ (a = 1 /\ d = b) \/ (b = 1 /\ d = a).
Proof.
  unfold bdim.
  destruct (Nat.eqb_spec a b); [intros E; injection E as <-; auto |].
  destruct (Nat.eqb_spec a 1); [intros E; injection E as <-; auto |].
  destruct (Nat.eqb_spec b 1); [intros E; injection E as <-; auto |].
  discriminate.
Qed.

Lemma compl_mul2d_some (input w r : Tensor cplx) (B I P rx ry I' O P' Q wx wy : nat) :
  shape input = [B; I; P; rx; ry] -> shape w = [I'; O; P'; Q; wx; wy] ->
  compl_mul2d input w = Some r ->
  exists x y, bdim rx wx = Some x /\ bdim ry wy = Some y /\ shape r = [B; O; Q; x; y].
Proof.
  intros Hi Hw. unfold compl_mul2d. rewrite Hi, Hw. intros E.
  apply obind_some in E. destruct E as (i & _ & E).
  apply obind_some in E. destruct E as (p & _ & E).
  apply obind_some in E. destruct E as (x & Ex & E).
  apply obind_some in E. destruct E as (y & Ey & E).
  injection E as <-. exists x, y. auto.
Qed.

Lemma assign_block_some {A} (out rhs out' : Tensor A)
      (B O Q X Y b j q x y start rows cols : nat) :
  shape out = [B; O; Q; X; Y] -> shape rhs = [b; j; q; x; y] ->
  assign_block out rhs start rows cols = Some out' ->
  (x = rows \/ x = 1) /\ (y = cols \/ y = 1) /\ shape out' = [B; O; Q; X; Y].
Proof.
  intros Ho Hr. unfold assign_block. rewrite Ho, Hr.
  destruct (expandable [b; j; q; x; y] [B; O; Q; rows; cols]) eqn:E; [| discriminate].
  intros E'. injection E' as <-. simpl in E.
  repeat (apply andb_prop in E; let H := fresh "H" in destruct E as [H E]).
  apply orb_prop in H2. apply orb_prop in H3.
  rewrite !Nat.eqb_eq in H2, H3. auto.
Qed.



End ModesNotValidated.



(** ** The network *)

Section NetworkFacts.
Context {lib : TorchLib}.

Lemma FNO_init_spec (g : Globals) (m1 m2 width : nat) (r : Draws) :
  width <> 0 ->
  exists m, FNO2d_Multi.init g m1 m2 width r = Some m /\
    FNO2d_Multi.wf g m /\
    FNO2d_Multi.modes1 m = m1 /\ FNO2d_Multi.modes2 m = m2 /\
    FNO2d_Multi.width m = width.
Proof.
  intros Hw. unfold FNO2d_Multi.init, SpectralConv2d.init.
  rewrite (proj2 (Nat.eqb_neq (width * width) 0)) by nia.
  cbn [obind]. eexists. split; [reflexivity |].
  split; [| repeat split].
  unfold FNO2d_Multi.wf. cbn. repeat split;
    destruct i as [| [| [| [| [| i]]]]]; reflexivity.
Qed.

Lemma FNO_init_none (g : Globals) (m1 m2 : nat) (r : Draws) :
  FNO2d_Multi.init g m1 m2 0 r = None.
Proof. reflexivity. Qed.

Lemma linear_forward_spec (l : Linear.t) (x : Tensor xreal) (B V X Y C : nat) :
  shape x = [B; V; X; Y; C] -> C = Linear.in_features l ->
  exists y, Linear.forward l x = Some y /\
    shape y = [B; V; X; Y; Linear.out_features l] /\
    forall b v i j o, data y [b; v; i; j; o] = Linear.point l x [b; v; i; j] o.
Proof.
  intros Hx HC. unfold Linear.forward. rewrite Hx. cbn [last removelast app].
  rewrite (proj2 (Nat.eqb_eq _ _) HC).
  eexists. split; [reflexivity |]. split; reflexivity.
Qed.

Lemma cat_last_spec {A} (a b : Tensor A) (B V X Y Ca Cb : nat) :
  shape a = [B; V; X; Y; Ca] -> shape b = [B; V; X; Y; Cb] ->
  exists c, cat_last a b = Some c /\
    shape c = [B; V; X; Y; Ca + Cb] /\
    forall ib iv ix iy ic,
      data c [ib; iv; ix; iy; ic] =
      if ic <? Ca then data a [ib; iv; ix; iy; ic]
      else data b [ib; iv; ix; iy; ic - Ca].
Proof.
  intros Ha Hb. unfold cat_last. rewrite Ha, Hb. cbn [removelast last app].
  destruct (list_eq_dec Nat.eq_dec [B; V; X; Y] [B; V; X; Y]) as [_ | n];
    [| contradiction n; reflexivity].
  eexists. split; [reflexivity |]. split; reflexivity.
Qed.

Lemma get_grid_spec (g : Globals) (B V X Y : nat) (rest : list nat) :
  length (x_grid g) = X -> length (y_grid g) = Y ->
  exists grid, FNO2d_Multi.get_grid g (B :: V :: X :: Y :: rest) = Some grid /\
    shape grid = [B; V; X; Y; 2] /\
    forall b v i j c,
      data grid [b; v; i; j; c] =
      if c <? 1 then nth i (x_grid g) NaN else nth j (y_grid g) NaN.
Proof.
  intros HX HY. unfold FNO2d_Multi.get_grid.
  rewrite (proj2 (Nat.eqb_eq _ _) HX), (proj2 (Nat.eqb_eq _ _) HY). cbn [andb].
  set (gridx := mkTensor [B; V; X; Y; 1] _).
  set (gridy := mkTensor [B; V; X; Y; 1] _).
  destruct (cat_last_spec gridx gridy B V X Y 1 1 eq_refl eq_refl) as (c & -> & Hs & Hd).
  exists c. split; [reflexivity |]. split; [exact Hs |].
  intros b v i j k. rewrite Hd. destruct (k <? 1); reflexivity.
Qed.

(** A linear layer reads its input at one position only. *)
Lemma point_local (l : Linear.t) (x x' : Tensor xreal) (pos : list nat) (o : nat) :
  (forall c, c < Linear.in_features l -> data x' (pos ++ [c]) = data x (pos ++ [c])) ->
  Linear.point l x' pos o = Linear.point l x pos o.
Proof.
  intros H. unfold Linear.point. f_equal. f_equal.
  apply map_ext_in. intros c Hc. apply in_seq in Hc. rewrite H by lia. reflexivity.
Qed.

Lemma grid_cat_spec (g : Globals) (x : Tensor xreal) (B V X Y : nat) :
  shape x = [B; V; X; Y; T_in g] ->
  length (x_grid g) = X -> length (y_grid g) = Y ->
  exists xg,
    (grid <- FNO2d_Multi.get_grid g (shape x) ;; cat_last x grid) = Some xg /\
    shape xg = [B; V; X; Y; T_in g + 2] /\
    forall b v i j c,
      data xg [b; v; i; j; c] =
      if c <? T_in g then data x [b; v; i; j; c]
      else if c <? T_in g + 1 then nth i (x_grid g) NaN
      else nth j (y_grid g) NaN.
Proof.
  intros Hx HX HY. rewrite Hx.
  destruct (get_grid_spec g B V X Y [T_in g] HX HY) as (grid & -> & Hgs & Hgd).
  cbn [obind].
  destruct (cat_last_spec x grid B V X Y (T_in g) 2 Hx Hgs) as (xg & -> & Hs & Hd).
  exists xg. split; [reflexivity |]. split; [exact Hs |].
  intros b v i j c. rewrite Hd, Hgd.
  destruct (Nat.ltb_spec c (T_in g)); [reflexivity |].
  destruct (Nat.ltb_spec (c - T_in g) 1); destruct (Nat.ltb_spec c (T_in g + 1));
    try reflexivity; lia.
Qed.

Lemma lift_spec (g : Globals) (m : FNO2d_Multi.t) (x xg : Tensor xreal) (B V X Y : nat) :
  FNO2d_Multi.wf g m ->
  (grid <- FNO2d_Multi.get_grid g (shape x) ;; cat_last x grid) = Some xg ->
  shape xg = [B; V; X; Y; T_in g + 2] ->
  exists u, FNO2d_Multi.lift g m x = Some u /\
    shape u = [B; V; X; Y; FNO2d_Multi.width m] /\
    forall b v i j o,
      data u [b; v; i; j; o] = Linear.point (FNO2d_Multi.fc0 m) xg [b; v; i; j] o.
Proof.
  intros (Hi0 & Ho0 & _) Exg Hs. unfold FNO2d_Multi.lift.
  destruct (FNO2d_Multi.get_grid g (shape x)) as [grid |]; [| discriminate].
  cbn [obind] in *. rewrite Exg. cbn [obind].
  destruct (linear_forward_spec (FNO2d_Multi.fc0 m) xg B V X Y _ Hs (eq_sym Hi0))
    as (u & -> & Hus & Hud).
  exists u. rewrite <- Ho0. auto.
Qed.

Lemma project_spec (g : Globals) (m : FNO2d_Multi.t) (z : Tensor xreal) (B V X Y : nat) :
  FNO2d_Multi.wf g m ->
  shape z = [B; V; X; Y; FNO2d_Multi.width m] ->
  exists h r,
    Linear.forward (FNO2d_Multi.fc1 m) z = Some h /\
    shape h = [B; V; X; Y; 128] /\
    (forall b v i j k,
        data h [b; v; i; j; k] = Linear.point (FNO2d_Multi.fc1 m) z [b; v; i; j] k) /\
    FNO2d_Multi.project m z = Some r /\
    shape r = [B; V; X; Y; step g] /\
    forall b v i j o,
      data r [b; v; i; j; o]
      = Linear.point (FNO2d_Multi.fc2 m) (tmap F_gelu h) [b; v; i; j] o.
Proof.
  intros (_ & _ & Hi1 & Ho1 & Hi2 & Ho2 & _) Hz. unfold FNO2d_Multi.project.
  destruct (linear_forward_spec (FNO2d_Multi.fc1 m) z B V X Y _ Hz (eq_sym Hi1))
    as (h & Eh & Hhs & Hhd).
  rewrite Ho1 in Hhs. rewrite Eh. cbn [obind].
  destruct (linear_forward_spec (FNO2d_Multi.fc2 m) (tmap F_gelu h) B V X Y 128
              Hhs (eq_sym Hi2)) as (r & Er & Hrs & Hrd).
  rewrite Ho2 in Hrs.
  exists h, r. auto 10.
Qed.

(** C8.  The lift head is one linear map [fc0] from the [T_in + 2] channels
    of a point (the window and the two grid coordinates) to the latent
    width, and its output at a point depends on the input at that point
    only.  The projection head is [fc1] (width to 128), GELU, [fc2] (128 to
    [step]) with nothing after [fc2].  Both keep the batch, variable and
    spatial sizes. *)
Theorem heads_pointwise
  (g : Globals) (m : FNO2d_Multi.t) (x z : Tensor xreal) (B V X Y : nat) :
  FNO2d_Multi.wf g m ->
  shape x = [B; V; X; Y; T_in g] ->
  length (x_grid g) = X -> length (y_grid g) = Y ->
  shape z = [B; V; X; Y; FNO2d_Multi.width m] ->
  Linear.in_features (FNO2d_Multi.fc0 m) = T_in g + 2 /\
  (exists xg u,
      (grid <- FNO2d_Multi.get_grid g (shape x) ;; cat_last x grid) = Some xg /\
      shape xg = [B; V; X; Y; T_in g + 2] /\
      (forall b v i j c,
          data xg [b; v; i; j; c] =
          if c <? T_in g then data x [b; v; i; j; c]
          else if c <? T_in g + 1 then nth i (x_grid g) NaN
          else nth j (y_grid g) NaN) /\
      FNO2d_Multi.lift g m x = Some u /\
      shape u = [B; V; X; Y; FNO2d_Multi.width m] /\
      (forall b v i j o,
          data u [b; v; i; j; o] = Linear.point (FNO2d_Multi.fc0 m) xg [b; v; i; j] o) /\
      (forall x' u', shape x' = shape x -> FNO2d_Multi.lift g m x' = Some u' ->
         forall b v i j,
           (forall c, c < T_in g -> data x' [b; v; i; j; c] = data x [b; v; i; j; c]) ->
           forall o, data u' [b; v; i; j; o] = data u [b; v; i; j; o])) /\
  (exists h r,
      Linear.forward (FNO2d_Multi.fc1 m) z = Some h /\
      shape h = [B; V; X; Y; 128] /\
      (forall b v i j k,
          data h [b; v; i; j; k] = Linear.point (FNO2d_Multi.fc1 m) z [b; v; i; j] k) /\
      FNO2d_Multi.project m z = Some r /\
      shape r = [B; V; X; Y; step g] /\
      (forall b v i j o,
          data r [b; v; i; j; o]
          = Linear.point (FNO2d_Multi.fc2 m) (tmap F_gelu h) [b; v; i; j] o)).
Proof.
  intros Hwf Hx HX HY Hz.
  split; [exact (proj1 Hwf) |]. split.
  - destruct (grid_cat_spec g x B V X Y Hx HX HY) as (xg & Exg & Hxs & Hxd).
    destruct (lift_spec g m x xg B V X Y Hwf Exg Hxs) as (u & Eu & Hus & Hud).
    exists xg, u. repeat (split; [assumption |]).
    intros x' u' Hx' Eu' b v i j Hagree o.
    rewrite Hx in Hx'.
    destruct (grid_cat_spec g x' B V X Y Hx' HX HY) as (xg' & Exg' & Hxs' & Hxd').
    destruct (lift_spec g m x' xg' B V X Y Hwf Exg' Hxs') as (u2 & Eu2 & _ & Hud2).
    assert (u2 = u') by congruence. subst u2.
    rewrite Hud, Hud2. apply point_local.
    intros c Hc. cbn [app]. rewrite Hxd, Hxd'.
    destruct (Nat.ltb_spec c (T_in g)); [apply Hagree; assumption | reflexivity].
  - destruct (project_spec g m z B V X Y Hwf Hz) as (h & r & H).
    exists h, r. exact H.
Qed.

End NetworkFacts.

Section NetworkForward.
Context {lib : TorchLib}.

Lemma conv3d_spec (c : Conv3d.t) (x : Tensor xreal) (N C D H W : nat) :
  shape x = [N; C; D; H; W] -> C = Conv3d.in_channels c ->
  0 < D -> 0 < H -> 0 < W ->
  exists y, Conv3d.forward c x = Some y /\
            shape y = [N; Conv3d.out_channels c; D; H; W].
Proof.
  intros Hx HC HD HH HW. unfold Conv3d.forward. rewrite Hx.
  rewrite (proj2 (Nat.eqb_eq _ _) HC).
  rewrite (proj2 (Nat.eqb_neq D 0)), (proj2 (Nat.eqb_neq H 0)),
    (proj2 (Nat.eqb_neq W 0)) by lia.
  cbn [andb orb negb]. eexists. split; reflexivity.
Qed.

Lemma permute_04123_spec {A} (x : Tensor A) (s0 s1 s2 s3 s4 : nat) :
  shape x = [s0; s1; s2; s3; s4] ->
  exists y, permute_04123 x = Some y /\ shape y = [s0; s4; s1; s2; s3].
Proof.
  intros Hx. unfold permute_04123. rewrite Hx. eexists. split; reflexivity.
Qed.

Lemma permute_02341_spec {A} (x : Tensor A) (s0 s1 s2 s3 s4 : nat) :
  shape x = [s0; s1; s2; s3; s4] ->
  exists y, permute_02341 x = Some y /\ shape y = [s0; s2; s3; s4; s1].
Proof.
  intros Hx. unfold permute_02341. rewrite Hx. eexists. split; reflexivity.
Qed.

(** The conditions under which every layer of the network accepts a latent
    tensor on a grid of [X] by [Y] points. *)
Section LatentBlocks.
Variable g : Globals.
Variable m : FNO2d_Multi.t.
Variables B X Y : nat.
Hypothesis Hwf : FNO2d_Multi.wf g m.
Hypothesis Hm1 : 0 < FNO2d_Multi.modes1 m <= X.
Hypothesis Hm2 : FNO2d_Multi.modes2 m <= Y / 2 + 1.
Hypothesis HY : 0 < Y.
Hypothesis HV : 0 < num_vars g.

Let latent_shape := [B; FNO2d_Multi.width m; num_vars g; X; Y].

Lemma spec_block_ok (act : bool) (i : nat) (x : Tensor xreal) :
  shape x = latent_shape ->
  exists y,
    spec_block (fun i => SpectralConv2d.forward (FNO2d_Multi.conv m i))
               (fun i => Conv3d.forward (FNO2d_Multi.w m i))
               (tbin xadd) (tmap F_gelu) act i x = Some y /\
    shape y = latent_shape.
Proof.
  intros Hx. unfold latent_shape in *.
  destruct Hwf as (_ & _ & _ & _ & _ & _ & Hlayers).
  destruct (Hlayers i) as (Hcwf & Hit & Hot & Hid & Hod & Hcm1 & Hcm2 & Hwi & Hwo).
  unfold spec_block.
  destruct (spectral_forward_ok (FNO2d_Multi.conv m i) x B X Y Hcwf)
    as (_ & _ & k & _ & _ & _ & _ & Ek & Hk).
  { rewrite Hit, Hid. exact Hx. }
  { rewrite Hcm1. exact Hm1. }
  { rewrite Hcm2. exact Hm2. }
  { exact HY. }
  rewrite Hot, Hod in Hk. rewrite Ek. cbn [obind].
  destruct (conv3d_spec (FNO2d_Multi.w m i) x _ _ _ _ _ Hx (eq_sym Hwi) HV
              ltac:(lia) HY) as (l & El & Hl).
  rewrite Hwo in Hl. rewrite El. cbn [obind].
  destruct (tbin_same xadd k l _ Hk Hl) as (s & Es & Hs & _).
  rewrite Es. cbn [obind].
  eexists. split; [reflexivity |]. destruct act; exact Hs.
Qed.

Lemma spec_stack_from_ok (acts : nat -> bool) (n i : nat) (x : Tensor xreal) :
  shape x = latent_shape ->
  exists y,
    spec_stack_from (fun i => SpectralConv2d.forward (FNO2d_Multi.conv m i))
                    (fun i => Conv3d.forward (FNO2d_Multi.w m i))
                    (tbin xadd) (tmap F_gelu) acts i n x = Some y /\
    shape y = latent_shape.
Proof.
  revert i x. induction n as [| n IH]; intros i x Hx; simpl.
  - exists x. auto.
  - destruct (spec_block_ok (acts i) i x Hx) as (y & -> & Hy). cbn [obind].
    apply IH. exact Hy.
Qed.

Lemma blocks_ok (x : Tensor xreal) :
  shape x = latent_shape ->
  exists y, FNO2d_Multi.blocks m x = Some y /\ shape y = latent_shape.
Proof.
  intros Hx. unfold FNO2d_Multi.blocks. rewrite block_stack_spec_stack.
  apply spec_stack_from_ok. exact Hx.
Qed.

(** One pass of the network on a window of [T_in] channels gives [step]
    channels on the same batch, variables and grid. *)
Lemma forward_ok (x : Tensor xreal) :
  shape x = [B; num_vars g; X; Y; T_in g] ->
  length (x_grid g) = X -> length (y_grid g) = Y ->
  exists out, FNO2d_Multi.forward g m x = Some out /\
              shape out = [B; num_vars g; X; Y; step g].
Proof.
  intros Hx HgX HgY. unfold FNO2d_Multi.forward.
  destruct (grid_cat_spec g x B _ X Y Hx HgX HgY) as (xg & Exg & Hxs & _).
  destruct (lift_spec g m x xg B _ X Y Hwf Exg Hxs) as (u & -> & Hus & _).
  cbn [obind].
  destruct (permute_04123_spec u _ _ _ _ _ Hus) as (p & -> & Hp). cbn [obind].
  destruct (blocks_ok p Hp) as (q & -> & Hq). cbn [obind].
  destruct (permute_02341_spec q _ _ _ _ _ Hq) as (z & -> & Hz). cbn [obind].
  destruct (project_spec g m z B _ X Y Hwf Hz) as (h & r & _ & _ & _ & Er & Hr & _).
  exists r. auto.
Qed.

End LatentBlocks.

End NetworkForward.

(** ** C9: inference is a function of the weights and of the input *)

Section Determinism.
Context {lib : TorchLib}.


End Determinism.

(** ** C3: the rollout *)

Section RolloutFacts.
Context {lib : TorchLib}.

Lemma slice_last_spec {A} (t : Tensor A) (B V X Y L a b : nat) :
  shape t = [B; V; X; Y; L] ->
  exists s, slice_last t a b = Some s /\
            shape s = [B; V; X; Y; Nat.min b L - Nat.min a L].
Proof.
  intros Ht. unfold slice_last. rewrite Ht. cbn [last removelast app].
  eexists. split; reflexivity.
Qed.

Lemma slice_last_from_spec {A} (t : Tensor A) (B V X Y L a : nat) :
  shape t = [B; V; X; Y; L] ->
  exists s, slice_last_from t a = Some s /\
            shape s = [B; V; X; Y; L - Nat.min a L].
Proof.
  intros Ht. unfold slice_last_from.
  destruct (slice_last_spec t B V X Y L a (last (shape t) 0) Ht) as (s & Es & Hs).
  exists s. split; [exact Es |]. rewrite Hs, Ht. cbn [last].
  rewrite Nat.min_id. reflexivity.
Qed.

(** The relative loss of two batches of the same shape is defined. *)
Lemma rel_shape (self : LpLoss.t) (x y : Tensor xreal) (n f : nat) :
  shape x = [n; f] -> shape y = [n; f] -> n * f <> 0 ->
  exists l, LpLoss.call self x y = Some l /\
            shape l = if LpLoss.reduction self then [] else [n].
Proof.
  intros Hx Hy H0.
  assert (Hnum : numel [n; f] <> 0) by (simpl; lia).
  assert (Hf : numel [f] = f) by (simpl; lia).
  unfold LpLoss.call, LpLoss.rel. rewrite Hx. cbn [hd_error obind].
  rewrite (reshape_2d_rows x n [f] Hx) by (rewrite Hx; exact Hnum).
  rewrite (reshape_2d_rows y n [f] Hy) by (rewrite Hy; exact Hnum).
  cbn [obind]. rewrite Hf.
  set (x2 := mkTensor [n; f] _). set (y2 := mkTensor [n; f] _).
  destruct (tbin_same xsub x2 y2 [n; f] eq_refl eq_refl) as (diff & -> & Hd & _).
  cbn [obind].
  assert (Hn : forall t, shape t = [n; f] ->
                         shape (LpLoss.norm_rows t (LpLoss.p self)) = [n]).
  { intros t Ht. unfold LpLoss.norm_rows. rewrite Ht. reflexivity. }
  destruct (tbin_same xdiv (LpLoss.norm_rows diff (LpLoss.p self))
              (LpLoss.norm_rows y2 (LpLoss.p self)) [n] (Hn diff Hd) (Hn y2 eq_refl))
    as (q & -> & Hq & _).
  cbn [obind].
  destruct (LpLoss.reduction self).
  - destruct (LpLoss.size_average self); eexists; split; reflexivity.
  - exists q. auto.
Qed.

Lemma py_range_spec (stop step k : nat) :
  0 < step -> stop = k * step ->
  py_range stop step = Some (map (fun j => j * step) (seq 0 k)).
Proof.
  intros Hstep HT. unfold py_range. rewrite (proj2 (Nat.eqb_neq _ 0)) by lia.
  rewrite HT.
  replace ((k * step + step - 1) / step) with k; [reflexivity |].
  apply (Nat.div_unique _ step k (step - 1)); lia.
Qed.

Lemma firstn_seq_le (j k a : nat) : j <= k -> firstn j (seq a k) = seq a j.
Proof.
  revert k a. induction j as [| j IH]; intros k a Hj; [reflexivity |].
  destruct k as [| k]; [lia |]. simpl. f_equal. apply IH. lia.
Qed.

Lemma firstn_passes (f : nat -> nat) (j k : nat) :
  j < k ->
  firstn (S j) (map f (seq 0 k)) = firstn j (map f (seq 0 k)) ++ [f j].
Proof.
  intros Hj. rewrite !firstn_map, !firstn_seq_le by lia.
  rewrite seq_S, map_app. reflexivity.
Qed.

Section Loop.
Variable g : Globals.
Variable model : FNO2d_Multi.t.
Variables B X Y : nat.
Hypothesis Hwf : FNO2d_Multi.wf g model.
Hypothesis Hm1 : 0 < FNO2d_Multi.modes1 model <= X.
Hypothesis Hm2 : FNO2d_Multi.modes2 model <= Y / 2 + 1.
Hypothesis HY : 0 < Y.
Hypothesis HV : 0 < num_vars g.
Hypothesis HB : 0 < B.
Hypothesis Hbatch : batch_size g = B.
Hypothesis HgX : length (x_grid g) = X.
Hypothesis HgY : length (y_grid g) = Y.
Hypothesis Hstep : 0 < step g.

Lemma batch_loss_ok (a b : Tensor xreal) (C : nat) :
  shape a = [B; num_vars g; X; Y; C] -> shape b = [B; num_vars g; X; Y; C] ->
  0 < C ->
  exists l, Rollout.batch_loss g myloss a b = Some l /\ shape l = [].
Proof using Hm1 HY HV HB Hbatch.
  clear Hm2 HgX HgY Hstep. intros Ha Hb HC. unfold Rollout.batch_loss. rewrite Hbatch.
  assert (Hnum : numel [B; num_vars g; X; Y; C] <> 0).
  { simpl. rewrite Nat.mul_1_r.
    repeat (apply Nat.neq_mul_0; split); lia. }
  rewrite (reshape_2d_rows a B _ Ha) by (rewrite Ha; exact Hnum).
  rewrite (reshape_2d_rows b B _ Hb) by (rewrite Hb; exact Hnum).
  cbn [obind].
  set (a2 := mkTensor _ _). set (b2 := mkTensor _ _).
  destruct (rel_shape myloss a2 b2 B (numel [num_vars g; X; Y; C]) eq_refl eq_refl)
    as (l & El & Hl).
  { simpl in Hnum |- *. exact Hnum. }
  exists l. split; [exact El | exact Hl].
Qed.

(** One pass of the loop from a window of [T_in] channels: the new window
    keeps what the slice [step:] leaves of the old one and appends the
    [step] predicted channels. *)
Lemma transition_ok (yy : Tensor xreal) (j : nat) (st : Rollout.state) :
  shape yy = [B; num_vars g; X; Y; T g] ->
  j * step g + step g <= T g ->
  Rollout.invariant g B X Y j st ->
  exists st' im p' l',
    Rollout.transition g model myloss yy (j * step g) st = Some st' /\
    shape (Rollout.xx st')
    = [B; num_vars g; X; Y; T_in g - Nat.min (step g) (T_in g) + step g] /\
    Rollout.pred st' = Some p' /\
    shape p' = [B; num_vars g; X; Y; S j * step g] /\
    Rollout.loss st' = Some l' /\ shape l' = [] /\
    FNO2d_Multi.forward g model (Rollout.xx st) = Some im /\
    shape im = [B; num_vars g; X; Y; step g].
Proof.
  intros Hyy Hj (Hxx & Hpred & Hloss). unfold Rollout.transition.
  destruct (slice_last_spec yy _ _ _ _ _ (j * step g) (j * step g + step g) Hyy)
    as (y & -> & Hy).
  replace (Nat.min (j * step g + step g) (T g) - Nat.min (j * step g) (T g))
    with (step g) in Hy by lia.
  cbn [obind]. unfold FNO2d_Multi.call. cbn [fst].
  destruct (forward_ok g model B X Y Hwf Hm1 Hm2 HY HV (Rollout.xx st) Hxx HgX HgY)
    as (im & Eim & Him).
  rewrite Eim. cbn [obind].
  destruct (batch_loss_ok im y (step g) Him Hy Hstep) as (l & -> & Hl).
  cbn [obind].
  assert (Hacc : exists l', match Rollout.loss st with
                            | Some acc => tbin xadd acc l
                            | None => Some l
                            end = Some l' /\ shape l' = []).
  { destruct (Rollout.loss st) as [acc |].
    - destruct Hloss as [_ Hacc].
      destruct (tbin_same xadd acc l [] Hacc Hl) as (l' & E & Hs & _). eauto.
    - eauto. }
  destruct Hacc as (l' & -> & Hl'). cbn [obind].
  assert (Hp : exists p', (if j * step g =? 0 then Some im
                           else p <- Rollout.pred st ;; cat_last p im) = Some p' /\
                          shape p' = [B; num_vars g; X; Y; S j * step g]).
  { destruct (Nat.eqb_spec (j * step g) 0) as [E0 | E0].
    - exists im. split; [reflexivity |]. rewrite Him.
      assert (j = 0) by nia. subst j.
      replace (1 * step g) with (step g) by lia. reflexivity.
    - destruct (Rollout.pred st) as [p |].
      + destruct Hpred as [_ Hp]. cbn [obind].
        destruct (cat_last_spec p im _ _ _ _ _ _ Hp Him) as (p' & E & Hs & _).
        exists p'. split; [exact E |].
        replace (S j * step g) with (j * step g + step g) by lia. exact Hs.
      + subst j. simpl in E0. contradiction. }
  destruct Hp as (p' & -> & Hp'). cbn [obind].
  destruct (slice_last_from_spec (Rollout.xx st) _ _ _ _ _ (step g) Hxx)
    as (tail & -> & Htail).
  cbn [obind].
  destruct (cat_last_spec tail im _ _ _ _ _ _ Htail Him) as (xx' & -> & Hxx' & _).
  cbn [obind].
  eexists. exists im, p', l'. split; [reflexivity |]. cbn [Rollout.xx Rollout.pred Rollout.loss].
  repeat split; assumption.
Qed.

Lemma run_app (yy : Tensor xreal) (l1 l2 : list nat) (st : Rollout.state) :
  Rollout.run g model myloss yy (l1 ++ l2) st
  = (st' <- Rollout.run g model myloss yy l1 st ;;
     Rollout.run g model myloss yy l2 st').
Proof.
  revert st. induction l1 as [| t l1 IH]; intros st; simpl; [reflexivity |].
  destruct (Rollout.transition g model myloss yy t st); simpl; [apply IH | reflexivity].
Qed.

Hypothesis Hwindow : step g <= T_in g.

(** After [j] passes the invariant holds. *)
Lemma run_prefix (xx0 yy : Tensor xreal) (k j : nat) :
  T g = k * step g ->
  shape xx0 = [B; num_vars g; X; Y; T_in g] ->
  shape yy = [B; num_vars g; X; Y; T g] ->
  j <= k ->
  exists st,
    Rollout.run g model myloss yy
      (firstn j (map (fun i => i * step g) (seq 0 k)))
      (Rollout.mkState xx0 None None) = Some st /\
    Rollout.invariant g B X Y j st.
Proof.
  intros HT Hxx0 Hyy. induction j as [| j IH]; intros Hj.
  - exists (Rollout.mkState xx0 None None). split; [reflexivity |].
    split; [exact Hxx0 | split; reflexivity].
  - destruct (IH ltac:(lia)) as (st & Erun & Hinv).
    rewrite firstn_passes by lia. rewrite run_app, Erun. cbn [obind Rollout.run].
    destruct (transition_ok yy j st Hyy ltac:(nia) Hinv)
      as (st' & im & p' & l' & -> & Hxx' & Hp & Hps & Hl & Hls & _).
    cbn [obind]. exists st'. split; [reflexivity |].
    unfold Rollout.invariant. rewrite Hp, Hl.
    replace (T_in g - Nat.min (step g) (T_in g) + step g) with (T_in g) in Hxx' by lia.
    repeat split; try assumption; lia.
Qed.

End Loop.

(** C3 as the code has it.  For a step that is positive and no longer than
    the window ([0 < step <= T_in]) and a horizon [T] that is a positive
    multiple [k * step] of it, the loop makes [k] passes at
    [t = 0, step, ..., (k-1) * step]; after each of them the window has
    exactly [T_in] time channels and the prediction buffer has grown by
    [step] channels ([j * step] after [j] passes); after the [k] passes the
    buffer has [T] channels and the second loss compares it with the whole
    target. *)
Theorem rollout_lengths
  (g : Globals) (model : FNO2d_Multi.t) (xx0 yy : Tensor xreal) (B X Y k : nat) :
  FNO2d_Multi.wf g model ->
  0 < FNO2d_Multi.modes1 model <= X ->
  FNO2d_Multi.modes2 model <= Y / 2 + 1 ->
  0 < Y -> 0 < num_vars g -> 0 < B -> batch_size g = B ->
  length (x_grid g) = X -> length (y_grid g) = Y ->
  0 < step g <= T_in g -> T g = k * step g -> 0 < k ->
  shape xx0 = [B; num_vars g; X; Y; T_in g] ->
  shape yy = [B; num_vars g; X; Y; T g] ->
  py_range (T g) (step g) = Some (map (fun j => j * step g) (seq 0 k)) /\
  (forall j, j <= k ->
     exists st,
       Rollout.run g model myloss yy
         (firstn j (map (fun i => i * step g) (seq 0 k)))
         (Rollout.mkState xx0 None None) = Some st /\
       Rollout.invariant g B X Y j st) /\
  exists st p lf l2_step l2_full,
    Rollout.rollout g model myloss xx0 yy = Some (st, l2_step, l2_full) /\
    shape (Rollout.xx st) = [B; num_vars g; X; Y; T_in g] /\
    Rollout.pred st = Some p /\
    shape p = [B; num_vars g; X; Y; T g] /\
    Rollout.batch_loss g myloss p yy = Some lf /\
    Rollout.item lf = Some l2_full.
Proof.
  intros Hwf Hm1 Hm2 HY HV HB Hbatch HgX HgY [Hstep Hwindow] HT Hk Hxx0 Hyy.
  pose proof (py_range_spec (T g) (step g) k Hstep HT) as Hrange.
  split; [exact Hrange |]. split.
  - intros j Hj.
    apply (run_prefix g model B X Y Hwf Hm1 Hm2 HY HV HB Hbatch HgX HgY Hstep Hwindow
             xx0 yy k j HT Hxx0 Hyy Hj).
  - destruct (run_prefix g model B X Y Hwf Hm1 Hm2 HY HV HB Hbatch HgX HgY Hstep Hwindow
                xx0 yy k k HT Hxx0 Hyy (le_n k)) as (st & Erun & Hxx & Hpred & Hloss).
    rewrite firstn_all2 in Erun by (rewrite length_map, length_seq; lia).
    destruct (Rollout.pred st) as [p |] eqn:Ep; [| lia].
    destruct (Rollout.loss st) as [l |] eqn:El; [| lia].
    destruct Hpred as [_ Hp]. destruct Hloss as [_ Hl].
    rewrite <- HT in Hp.
    destruct (batch_loss_ok g model B X Y Hm1 HY HV HB Hbatch p yy (T g) Hp Hyy
                ltac:(nia))
      as (lf & Elf & Hlf).
    exists st, p, lf, (data l []), (data lf []).
    unfold Rollout.rollout. rewrite Hrange. cbn [obind]. rewrite Erun. cbn [obind].
    rewrite El, Ep. cbn [obind]. unfold Rollout.item. rewrite Hl, Hlf, Elf.
    cbn [obind numel fold_right Nat.eqb map shape]. rewrite Hlf.
    repeat split; try reflexivity; assumption.
Qed.

End RolloutFacts.

(** ** The small configuration *)

Lemma rollout_lengths_witness :
  exists model,
    FNO2d_Multi.init example_globals 3 1 1 example_draws = Some model /\
    (py_range (T example_globals) (step example_globals)
     = Some (map (fun j => j * step example_globals) (seq 0 2)) /\
     (forall j, j <= 2 ->
        exists st,
          Rollout.run (lib := example_lib) example_globals model myloss
            (ones [1; 1; 4; 1; 4])
            (firstn j (map (fun i => i * step example_globals) (seq 0 2)))
            (Rollout.mkState (ones [1; 1; 4; 1; 2]) None None) = Some st /\
          Rollout.invariant example_globals 1 4 1 j st) /\
     exists st p lf l2_step l2_full,
       Rollout.rollout (lib := example_lib) example_globals model myloss
         (ones [1; 1; 4; 1; 2]) (ones [1; 1; 4; 1; 4]) = Some (st, l2_step, l2_full) /\
       shape (Rollout.xx st) = [1; num_vars example_globals; 4; 1; T_in example_globals] /\
       Rollout.pred st = Some p /\
       shape p = [1; num_vars example_globals; 4; 1; T example_globals] /\
       Rollout.batch_loss example_globals myloss p (ones [1; 1; 4; 1; 4]) = Some lf /\
       Rollout.item lf = Some l2_full).
Proof.
  destruct (FNO_init_spec example_globals 3 1 1 example_draws ltac:(lia))
    as (model & E & Hwf & Hm1 & Hm2 & _).
  exists model. split; [exact E |].
  apply (rollout_lengths (lib := example_lib) example_globals model
           (ones [1; 1; 4; 1; 2]) (ones [1; 1; 4; 1; 4]) 1 4 1 2).
  - exact Hwf.
  - rewrite Hm1. lia.
  - rewrite Hm2. simpl. lia.
  - lia.
  - simpl. lia.
  - lia.
  - reflexivity.
  - reflexivity.
  - reflexivity.
  - simpl. lia.
  - reflexivity.
  - lia.
  - reflexivity.
  - reflexivity.
Defined.

(** C3 as stated fails for a step longer than the window.  With
    [T_in = 1], [step = 2] and [T = 2] (a multiple of the step) the loop
    makes one pass; the slice [xx[..., 2:]] of the window is empty, and the
    new window is the prediction alone: 2 time channels, not 1. *)
Lemma rollout_window_counterexample :
  exists model st,
    FNO2d_Multi.init short_window_globals 3 1 1 example_draws = Some model /\
    T short_window_globals = 1 * step short_window_globals /\
    T_in short_window_globals = 1 /\
    py_range (T short_window_globals) (step short_window_globals) = Some [0] /\
    Rollout.run (lib := example_lib) short_window_globals model myloss
      (ones [1; 1; 4; 1; 2]) [0]
      (Rollout.mkState (ones [1; 1; 4; 1; 1]) None None) = Some st /\
    shape (Rollout.xx st) = [1; 1; 4; 1; 2].
Proof.
  destruct (FNO_init_spec short_window_globals 3 1 1 example_draws ltac:(lia))
    as (model & E & Hwf & Hm1 & Hm2 & _).
  destruct (transition_ok (lib := example_lib) short_window_globals model 1 4 1 Hwf
              ltac:(rewrite Hm1; lia) ltac:(rewrite Hm2; simpl; lia) ltac:(lia)
              ltac:(simpl; lia) ltac:(lia) eq_refl eq_refl eq_refl ltac:(simpl; lia)
              (ones [1; 1; 4; 1; 2]) 0 (Rollout.mkState (ones [1; 1; 4; 1; 1]) None None)
              eq_refl ltac:(simpl; lia))
    as (st & _ & _ & _ & Etr & Hxx & _).
  { split; [reflexivity | split; reflexivity]. }
  exists model, st. split; [exact E |]. split; [reflexivity |]. split; [reflexivity |].
  split; [reflexivity |]. split.
  - cbn [Rollout.run]. change (0 * step short_window_globals) with 0 in Etr.
    rewrite Etr. reflexivity.
  - exact Hxx.
Qed.

Lemma heads_pointwise_witness :
  exists m,
    FNO2d_Multi.init example_globals 3 1 1 example_draws = Some m /\
    (Linear.in_features (FNO2d_Multi.fc0 m) = T_in example_globals + 2 /\
     (exists xg u,
         (grid <- FNO2d_Multi.get_grid example_globals (shape (ones [1; 1; 4; 1; 2])) ;;
          cat_last (ones [1; 1; 4; 1; 2]) grid) = Some xg /\
         shape xg = [1; 1; 4; 1; T_in example_globals + 2] /\
         (forall b v i j c,
             data xg [b; v; i; j; c] =
             if c <? T_in example_globals then data (ones [1; 1; 4; 1; 2]) [b; v; i; j; c]
             else if c <? T_in example_globals + 1 then nth i (x_grid example_globals) NaN
             else nth j (y_grid example_globals) NaN) /\
         FNO2d_Multi.lift example_globals m (ones [1; 1; 4; 1; 2]) = Some u /\
         shape u = [1; 1; 4; 1; FNO2d_Multi.width m] /\
         (forall b v i j o,
             data u [b; v; i; j; o] = Linear.point (FNO2d_Multi.fc0 m) xg [b; v; i; j] o) /\
         (forall x' u', shape x' = shape (ones [1; 1; 4; 1; 2]) ->
            FNO2d_Multi.lift example_globals m x' = Some u' ->
            forall b v i j,
              (forall c, c < T_in example_globals ->
                 data x' [b; v; i; j; c] = data (ones [1; 1; 4; 1; 2]) [b; v; i; j; c]) ->
              forall o, data u' [b; v; i; j; o] = data u [b; v; i; j; o])) /\
     (exists h r,
         Linear.forward (FNO2d_Multi.fc1 m) (ones [1; 1; 4; 1; FNO2d_Multi.width m]) = Some h /\
         shape h = [1; 1; 4; 1; 128] /\
         (forall b v i j k,
             data h [b; v; i; j; k]
             = Linear.point (FNO2d_Multi.fc1 m) (ones [1; 1; 4; 1; FNO2d_Multi.width m])
                            [b; v; i; j] k) /\
         FNO2d_Multi.project (lib := example_lib) m (ones [1; 1; 4; 1; FNO2d_Multi.width m])
         = Some r /\
         shape r = [1; 1; 4; 1; step example_globals] /\
         (forall b v i j o,
             data r [b; v; i; j; o]
             = Linear.point (FNO2d_Multi.fc2 m) (tmap (F_gelu (TorchLib := example_lib)) h)
                            [b; v; i; j] o))).
Proof.
  destruct (FNO_init_spec example_globals 3 1 1 example_draws ltac:(lia))
    as (m & E & Hwf & _).
  exists m. split; [exact E |].
  apply (heads_pointwise (lib := example_lib) example_globals m
           (ones [1; 1; 4; 1; 2]) (ones [1; 1; 4; 1; FNO2d_Multi.width m]) 1 1 4 1).
  - exact Hwf.
  - reflexivity.
  - reflexivity.
  - reflexivity.
  - reflexivity.
Defined.


(* ===================================================================== *)
(** * Part III: further properties of the code *)
(* ===================================================================== *)

(** ** The network: what a forward pass needs and what it returns *)

Section ForwardConditions.
Context {lib : TorchLib}.

(** A forward pass of the Fourier layer that returns had modes that fit
    the grid, whatever the channel sizes of its input. *)
Lemma spectral_forward_some (L : SpectralConv2d.t) (x out : Tensor xreal)
      (B I P X Y : nat) :
  SpectralConv2d.wf L ->
  shape x = [B; I; P; X; Y] ->
  SpectralConv2d.forward L x = Some out ->
  0 < SpectralConv2d.modes1 L <= X /\
  SpectralConv2d.modes2 L <= Y / 2 + 1 /\ 0 < Y.
Proof.
  intros [Hw1 Hw2] Hx E.
  unfold SpectralConv2d.forward in E. rewrite Hx in E.
  apply obind_some in E. destruct E as (out_ft & E & Einv).
  unfold SpectralConv2d.forward_spectrum in E. rewrite Hx in E.
  apply obind_some in E. destruct E as (x_ft & Eft & E).
  assert (Hpos : 0 < X /\ 0 < Y).
  { unfold SpectralConv2d.rfft2 in Eft. rewrite Hx in Eft.
    destruct (Nat.eqb_spec X 0); destruct (Nat.eqb_spec Y 0);
      simpl in Eft; try discriminate. lia. }
  destruct (rfft2_spec x _ _ _ X Y Hx (proj1 Hpos) (proj2 Hpos)) as (x_ft' & Eft' & Hft).
  assert (x_ft' = x_ft) by congruence. subst x_ft'.
  apply obind_some in E. destruct E as (lo & Elo & E).
  destruct (slice_block_spec x_ft _ _ _ _ _ 0 (Nat.min (SpectralConv2d.modes1 L) X)
              (Nat.min (SpectralConv2d.modes2 L) (Y / 2 + 1)) Hft)
    as (lo' & Elo' & Hlo & _).
  assert (lo' = lo) by congruence. subst lo'.
  apply obind_some in E. destruct E as (r1 & Er1 & E).
  destruct (compl_mul2d_some lo (SpectralConv2d.weights1 L) r1
              _ _ _ _ _ _ _ _ _ _ _ Hlo Hw1 Er1)
    as (x1 & y1 & Bx1 & By1 & Hr1).
  apply obind_some in E. destruct E as (out1 & Eo1 & E).
  destruct (assign_block_some
              (zeros czero [B; SpectralConv2d.out_channels_time L;
                            SpectralConv2d.out_channels_dim L; X; Y / 2 + 1])
              r1 out1 _ _ _ _ _ _ _ _ _ _ _ _ _ eq_refl Hr1 Eo1)
    as (Cx1 & Cy1 & Ho1).
  apply obind_some in E. destruct E as (hi & Ehi & E).
  destruct (slice_block_spec x_ft _ _ _ _ _ (neg_start X (SpectralConv2d.modes1 L))
              (X - neg_start X (SpectralConv2d.modes1 L))
              (Nat.min (SpectralConv2d.modes2 L) (Y / 2 + 1)) Hft)
    as (hi' & Ehi' & Hhi & _).
  assert (hi' = hi) by congruence. subst hi'.
  apply obind_some in E. destruct E as (r2 & Er2 & E).
  destruct (compl_mul2d_some hi (SpectralConv2d.weights2 L) r2
              _ _ _ _ _ _ _ _ _ _ _ Hhi Hw2 Er2)
    as (x2 & y2 & Bx2 & By2 & Hr2).
  destruct (assign_block_some out1 r2 out_ft _ _ _ _ _ _ _ _ _ _ _ _ _ Ho1 Hr2 E)
    as (Cx2 & Cy2 & _).
  apply bdim_some in Bx1, By1, Bx2, By2.
  unfold neg_start in *.
  destruct (Nat.eqb_spec (SpectralConv2d.modes1 L) 0); lia.
Qed.

Lemma get_grid_some (g : Globals) (s : list nat) (grid : Tensor xreal) :
  FNO2d_Multi.get_grid g s = Some grid ->
  exists B V X Y rest,
    s = B :: V :: X :: Y :: rest /\
    length (x_grid g) = X /\ length (y_grid g) = Y /\
    shape grid = [B; V; X; Y; 2].
Proof.
  unfold FNO2d_Multi.get_grid.
  destruct s as [| B [| V [| X [| Y rest]]]]; try discriminate.
  destruct (Nat.eqb_spec (length (x_grid g)) X) as [HX |]; [| discriminate].
  destruct (Nat.eqb_spec (length (y_grid g)) Y) as [HY |]; [| discriminate].
  cbn [andb]. intros E.
  destruct (get_grid_spec g B V X Y rest HX HY) as (grid' & E' & Hs & _).
  unfold FNO2d_Multi.get_grid in E'.
  rewrite (proj2 (Nat.eqb_eq _ _) HX), (proj2 (Nat.eqb_eq _ _) HY) in E'.
  cbn [andb] in E'. assert (grid' = grid) by congruence. subst grid'.
  exists B, V, X, Y, rest. auto.
Qed.

Lemma cat_last_some {A} (a b c : Tensor A) :
  cat_last a b = Some c ->
  shape a <> [] /\ removelast (shape a) = removelast (shape b) /\
  shape c = removelast (shape a) ++ [last (shape a) 0 + last (shape b) 0].
Proof.
  unfold cat_last.
  destruct (shape a) as [| a0 sa] eqn:Ha; [discriminate |].
  destruct (shape b) as [| b0 sb] eqn:Hb; [discriminate |].
  destruct (list_eq_dec Nat.eq_dec (removelast (a0 :: sa)) (removelast (b0 :: sb)))
    as [Heq |]; [| discriminate].
  intros E. injection E as <-. split; [discriminate |]. split; [exact Heq | reflexivity].
Qed.

Lemma linear_forward_some (l : Linear.t) (x y : Tensor xreal) :
  Linear.forward l x = Some y ->
  shape x <> [] /\ last (shape x) 0 = Linear.in_features l /\
  shape y = removelast (shape x) ++ [Linear.out_features l].
Proof.
  unfold Linear.forward.
  destruct (shape x) as [| d s] eqn:Hx; [discriminate |].
  destruct (Nat.eqb_spec (last (d :: s) 0) (Linear.in_features l)) as [Hl |];
    [| discriminate].
  intros E. injection E as <-. split; [discriminate |]. split; [exact Hl | reflexivity].
Qed.

(** The input that [lift] accepts. *)
Lemma lift_some (g : Globals) (m : FNO2d_Multi.t) (x u : Tensor xreal) :
  FNO2d_Multi.wf g m ->
  FNO2d_Multi.lift g m x = Some u ->
  exists B V X Y,
    shape x = [B; V; X; Y; T_in g] /\
    length (x_grid g) = X /\ length (y_grid g) = Y /\
    shape u = [B; V; X; Y; FNO2d_Multi.width m].
Proof.
  intros Hwf E. pose proof Hwf as (Hi0 & Ho0 & _). unfold FNO2d_Multi.lift in E.
  apply obind_some in E. destruct E as (grid & Eg & E).
  apply obind_some in E. destruct E as (xg & Ec & E).
  apply get_grid_some in Eg.
  destruct Eg as (B & V & X & Y & rest & Hs & HX & HY & Hgs).
  apply cat_last_some in Ec. destruct Ec as (_ & Hrl & Hxg).
  apply linear_forward_some in E. destruct E as (_ & Hlast & Hu).
  rewrite Hs, Hgs in Hrl. rewrite Hs, Hgs in Hxg.
  assert (Hrest : exists C, rest = [C]).
  { destruct rest as [| C [| D rest]].
    - simpl in Hrl. discriminate.
    - eauto.
    - simpl in Hrl. injection Hrl as Hrl. destruct rest; discriminate. }
  destruct Hrest as [C ->]. cbn [removelast last app] in Hxg.
  rewrite Hxg in Hlast, Hu. cbn [removelast last app] in Hlast, Hu.
  exists B, V, X, Y. rewrite Hs. rewrite Hi0 in Hlast. rewrite Ho0 in Hu.
  replace C with (T_in g) by lia. auto.
Qed.

End ForwardConditions.

Section ForwardTheorems.
Context {lib : TorchLib}.

Lemma conv3d_some (c : Conv3d.t) (x y : Tensor xreal) (N C D H W : nat) :
  shape x = [N; C; D; H; W] -> Conv3d.forward c x = Some y ->
  C = Conv3d.in_channels c /\ 0 < D /\ 0 < H /\ 0 < W.
Proof.
  intros Hx. unfold Conv3d.forward. rewrite Hx.
  destruct (Nat.eqb_spec C (Conv3d.in_channels c)); [| discriminate].
  destruct (Nat.eqb_spec D 0); [discriminate |].
  destruct (Nat.eqb_spec H 0); [discriminate |].
  destruct (Nat.eqb_spec W 0); [discriminate |].
  intros _. lia.
Qed.


(** What a forward pass that returns was given. *)
Lemma forward_some
  (g : Globals) (m : FNO2d_Multi.t) (x out : Tensor xreal) :
  FNO2d_Multi.wf g m ->
  FNO2d_Multi.forward g m x = Some out ->
  exists B V X Y,
    shape x = [B; V; X; Y; T_in g] /\
    length (x_grid g) = X /\ length (y_grid g) = Y /\
    0 < V /\
    0 < FNO2d_Multi.modes1 m <= X /\
    FNO2d_Multi.modes2 m <= Y / 2 + 1 /\ 0 < Y.
Proof.
  intros Hwf E. unfold FNO2d_Multi.forward in E.
  apply obind_some in E. destruct E as (u & Eu & E).
  destruct (lift_some g m x u Hwf Eu) as (B & V & X & Y & Hx & HgX & HgY & Hu).
  apply obind_some in E. destruct E as (p & Ep & E).
  destruct (permute_04123_spec u _ _ _ _ _ Hu) as (p' & Ep' & Hp).
  assert (p' = p) by congruence. subst p'.
  apply obind_some in E. destruct E as (q & Eq & _).
  unfold FNO2d_Multi.blocks, block_stack, Identity in Eq.
  apply obind_some in Eq. destruct Eq as (x1 & E1 & Eq).
  apply obind_some in Eq. destruct Eq as (x2 & E2 & _).
  destruct (SpectralConv2d.forward (FNO2d_Multi.conv m 0) p) as [k |] eqn:Ek;
    [| discriminate].
  destruct Hwf as (_ & _ & _ & _ & _ & _ & Hlayers).
  destruct (Hlayers 0) as (Hcwf & _ & _ & _ & _ & Hcm1 & Hcm2 & _).
  destruct (spectral_forward_some (FNO2d_Multi.conv m 0) p k _ _ _ _ _ Hcwf Hp Ek)
    as (Hm1 & Hm2 & HY).
  destruct (conv3d_some (FNO2d_Multi.w m 0) p x2 _ _ _ _ _ Hp E2) as (_ & HV & _).
  rewrite Hcm1 in Hm1. rewrite Hcm2 in Hm2.
  exists B, V, X, Y. auto 10.
Qed.

(** X2.  A forward pass that returns was given a five-axis input whose last
    axis has exactly [T_in] channels, coordinate arrays of the sizes of its
    grid, at least one variable, and modes that fit the grid; on every other
    input [forward] raises. *)
Theorem forward_requires
  (g : Globals) (m : FNO2d_Multi.t) (x out : Tensor xreal) :
  FNO2d_Multi.wf g m ->
  FNO2d_Multi.forward g m x = Some out ->
  exists B V X Y,
    shape x = [B; V; X; Y; T_in g] /\
    length (x_grid g) = X /\ length (y_grid g) = Y /\
    0 < V /\
    0 < FNO2d_Multi.modes1 m <= X /\
    FNO2d_Multi.modes2 m <= Y / 2 + 1 /\ 0 < Y.
Proof. exact (forward_some g m x out). Qed.

(** X3.  [get_grid] raises exactly when a coordinate array has not the
    size of its axis; what it returns has shape (batch, variables, x, y, 2)
    and holds [x_grid[i]] in channel 0 and [y_grid[j]] in channel 1 at every
    sample and variable alike. *)
Theorem get_grid_coordinates (g : Globals) (B V X Y : nat) (rest : list nat) :
  (FNO2d_Multi.get_grid g (B :: V :: X :: Y :: rest) = None
   <-> ~ (length (x_grid g) = X /\ length (y_grid g) = Y)) /\
  (forall grid,
      FNO2d_Multi.get_grid g (B :: V :: X :: Y :: rest) = Some grid ->
      shape grid = [B; V; X; Y; 2] /\
      forall b v i j,
        data grid [b; v; i; j; 0] = nth i (x_grid g) NaN /\
        data grid [b; v; i; j; 1] = nth j (y_grid g) NaN).
Proof.
  split.
  - split.
    + intros Hnone [HX HY].
      destruct (get_grid_spec g B V X Y rest HX HY) as (grid & E & _). congruence.
    + intros Hnot.
      destruct (FNO2d_Multi.get_grid g (B :: V :: X :: Y :: rest)) as [grid |] eqn:E;
        [| reflexivity].
      exfalso. apply Hnot. apply get_grid_some in E.
      destruct E as (B' & V' & X' & Y' & rest' & Hs & HX & HY & _).
      injection Hs as -> -> -> -> ->. auto.
  - intros grid E. pose proof E as E0. apply get_grid_some in E0.
    destruct E0 as (B' & V' & X' & Y' & rest' & Hs & HX & HY & _).
    injection Hs as <- <- <- <- <-.
    destruct (get_grid_spec g B V X Y rest HX HY) as (grid' & E' & Hs' & Hd).
    assert (grid' = grid) by congruence. subst grid'.
    split; [exact Hs' |]. intros b v i j. rewrite !Hd. split; reflexivity.
Qed.

End ForwardTheorems.


Lemma forward_requires_witness :
  exists m out,
    FNO2d_Multi.init example_globals 3 1 1 example_draws = Some m /\
    FNO2d_Multi.forward (lib := example_lib) example_globals m (ones [1; 1; 4; 1; 2])
    = Some out /\
    exists B V X Y,
      shape (ones [1; 1; 4; 1; 2]) = [B; V; X; Y; T_in example_globals] /\
      length (x_grid example_globals) = X /\ length (y_grid example_globals) = Y /\
      0 < V /\
      0 < FNO2d_Multi.modes1 m <= X /\
      FNO2d_Multi.modes2 m <= Y / 2 + 1 /\ 0 < Y.
Proof.
  destruct (FNO_init_spec example_globals 3 1 1 example_draws ltac:(lia))
    as (m & E & Hwf & H1 & H2 & _).
  destruct (forward_ok (lib := example_lib) example_globals m 1 4 1 Hwf
              ltac:(rewrite H1; lia) ltac:(rewrite H2; reflexivity)
              ltac:(lia) ltac:(simpl; lia)
              (ones [1; 1; 4; 1; 2]) eq_refl eq_refl eq_refl) as (out & Eo & _).
  exists m, out. split; [exact E |]. split; [exact Eo |].
  exact (forward_requires (lib := example_lib) example_globals m
           (ones [1; 1; 4; 1; 2]) out Hwf Eo).
Defined.

(** ** The Fourier layer: a low-pass filter *)

Section LowPass.
Context {lib : TorchLib}.

Lemma mode_product_ext (f f' w : Tensor cplx) (ni np b j q r c rw : nat) :
  (forall i p, i < ni -> p < np -> data f [b; i; p; r; c] = data f' [b; i; p; r; c]) ->
  SpectralConv2d.mode_product f w ni np b j q r c rw
  = SpectralConv2d.mode_product f' w ni np b j q r c rw.
Proof.
  intros H. unfold SpectralConv2d.mode_product.
  f_equal. apply map_ext_in. intros i Hi. apply in_seq in Hi.
  f_equal. apply map_ext_in. intros p Hp. apply in_seq in Hp.
  rewrite H by lia. reflexivity.
Qed.

(** X4.  The output spectrum of the Fourier layer depends on its input only
    through the retained modes: two inputs whose spectra agree on the first
    and the last [modes1] rows of the first [modes2] columns give the same
    output spectrum, whatever their other modes are. *)
Theorem spectrum_depends_on_kept_modes
  (L : SpectralConv2d.t) (x x' : Tensor xreal) (x_ft x_ft' : Tensor cplx)
  (B X Y : nat) :
  SpectralConv2d.wf L ->
  shape x = [B; SpectralConv2d.in_channels_time L; SpectralConv2d.in_channels_dim L; X; Y] ->
  shape x' = shape x ->
  0 < SpectralConv2d.modes1 L <= X -> SpectralConv2d.modes2 L <= Y / 2 + 1 -> 0 < Y ->
  SpectralConv2d.rfft2 x = Some x_ft ->
  SpectralConv2d.rfft2 x' = Some x_ft' ->
  (forall b i p r c,
      b < B -> i < SpectralConv2d.in_channels_time L ->
      p < SpectralConv2d.in_channels_dim L ->
      r < SpectralConv2d.modes1 L \/ X - SpectralConv2d.modes1 L <= r < X ->
      c < SpectralConv2d.modes2 L ->
      data x_ft [b; i; p; r; c] = data x_ft' [b; i; p; r; c]) ->
  exists o o',
    SpectralConv2d.forward_spectrum L x = Some o /\
    SpectralConv2d.forward_spectrum L x' = Some o' /\
    shape o = shape o' /\
    forall idx, inb (shape o) idx = true -> data o idx = data o' idx.
Proof.
  intros Hwf Hx Hx' Hm1 Hm2 HY Eft Eft' Hagree.
  rewrite Hx in Hx'.
  destruct (forward_spectrum_ok L x B X Y Hwf Hx Hm1 Hm2 HY)
    as (f & o & Ef & _ & Eo & Hso & Hdo).
  destruct (forward_spectrum_ok L x' B X Y Hwf Hx' Hm1 Hm2 HY)
    as (f' & o' & Ef' & _ & Eo' & Hso' & Hdo').
  assert (f = x_ft) by congruence. assert (f' = x_ft') by congruence. subst f f'.
  exists o, o'. split; [exact Eo |]. split; [exact Eo' |].
  split; [congruence |].
  rewrite Hso. intros idx Hidx.
  destruct idx as [| b [| j [| q [| r [| c [| ? ?]]]]]]; simpl in Hidx;
    try discriminate; try (rewrite ?andb_false_r in Hidx; discriminate).
  repeat (apply andb_prop in Hidx; destruct Hidx as [?Hlt Hidx]).
  repeat match goal with H : (_ <? _) = true |- _ => apply Nat.ltb_lt in H end.
  rewrite Hdo, Hdo' by assumption.
  destruct ((X - SpectralConv2d.modes1 L <=? r) && (c <? SpectralConv2d.modes2 L)) eqn:E2.
  - apply andb_prop in E2. destruct E2 as [Hr Hc].
    apply Nat.leb_le in Hr. apply Nat.ltb_lt in Hc.
    apply mode_product_ext. intros i p Hi Hp. apply Hagree; try assumption. lia.
  - destruct ((r <? SpectralConv2d.modes1 L) && (c <? SpectralConv2d.modes2 L)) eqn:E1;
      [| reflexivity].
    apply andb_prop in E1. destruct E1 as [Hr Hc].
    apply Nat.ltb_lt in Hr. apply Nat.ltb_lt in Hc.
    apply mode_product_ext. intros i p Hi Hp. apply Hagree; try assumption. lia.
Qed.

End LowPass.

Section LowPassExample.
Local Open Scope R_scope.

(** The mode (0, 0) of a signal is the sum of its entries. *)
Lemma delta_y_mode0 (k : nat) :
  (k < 4)%nat ->
  dft_rfft2 1 4 (fun n1 n2 => data (delta_y k) [0; 0; 0; n1; n2]%nat) 0 0
  = (Fin 1, Fin 0).
Proof.
  intros Hk. unfold dft_rfft2, csum, cadd, cscale, cis, czero, delta_y.
  cbn [seq map fold_left fst snd data last].
  assert (H0 : forall n, - (angle 0 0 1 + angle 0 n 4) = 0).
  { intros n. unfold angle. simpl INR. unfold Rdiv. ring. }
  rewrite !H0, cos_0, sin_0.
  destruct k as [| [| [| [| k]]]]; [| | | | lia];
    cbn [Nat.eqb xmul xadd]; f_equal; f_equal; ring.
Qed.

Lemma spectrum_depends_on_kept_modes_witness :
  exists x_ft x_ft' o o',
    SpectralConv2d.rfft2 (lib := example_lib) (delta_y 0) = Some x_ft /\
    SpectralConv2d.rfft2 (lib := example_lib) (delta_y 1) = Some x_ft' /\
    SpectralConv2d.forward_spectrum (lib := example_lib) mean_layer (delta_y 0) = Some o /\
    SpectralConv2d.forward_spectrum (lib := example_lib) mean_layer (delta_y 1) = Some o' /\
    shape o = shape o' /\
    forall idx, inb (shape o) idx = true -> data o idx = data o' idx.
Proof.
  destruct (rfft2_spec (lib := example_lib) (delta_y 0) 1 1 1 1 4 eq_refl
              ltac:(apply Nat.lt_0_1) ltac:(apply Nat.lt_0_succ)) as (f & Ef & _).
  destruct (rfft2_spec (lib := example_lib) (delta_y 1) 1 1 1 1 4 eq_refl
              ltac:(apply Nat.lt_0_1) ltac:(apply Nat.lt_0_succ)) as (f' & Ef' & _).
  exists f, f'.
  destruct (spectrum_depends_on_kept_modes (lib := example_lib) mean_layer
              (delta_y 0) (delta_y 1) f f' 1 1 4) as (o & o' & H).
  - split; reflexivity.
  - reflexivity.
  - reflexivity.
  - simpl. split; [apply Nat.lt_0_1 | apply Nat.le_refl].
  - simpl. apply Nat.lt_0_succ.
  - apply Nat.lt_0_succ.
  - exact Ef.
  - exact Ef'.
  - intros b i p r c Hb Hi Hp Hr Hc. simpl in Hi, Hp, Hr, Hc.
    assert (b = 0 /\ i = 0 /\ p = 0 /\ r = 0 /\ c = 0)%nat as (-> & -> & -> & -> & ->)
      by (repeat split; apply Nat.lt_1_r; try assumption;
          destruct Hr as [Hr | [_ Hr]]; exact Hr).
    rewrite (rfft2_data (lib := example_lib) (delta_y 0) f 1 1 1 1 4 eq_refl Ef).
    rewrite (rfft2_data (lib := example_lib) (delta_y 1) f' 1 1 1 1 4 eq_refl Ef').
    cbn [fft_rfft2 example_lib].
    rewrite (delta_y_mode0 0), (delta_y_mode0 1); [reflexivity | |];
      repeat constructor.
  - exists o, o'. split; [exact Ef |]. split; [exact Ef' |]. exact H.
Defined.

End LowPassExample.

(** ** The number of parameters *)



(** ** The normalizers: range of the encoding, construction errors, and
    encoding what was decoded *)

Section NormalizerBounds.
Local Open Scope R_scope.

Lemma inb_numel (s idx : list nat) : inb s idx = true -> numel s <> 0%nat.
Proof.
  intros H. rewrite <- length_indices. apply in_indices in H.
  destruct (indices s); [contradiction | simpl; discriminate].
Qed.



End NormalizerBounds.

Section NormalizerErrors.

Lemma entries_nil {A} (t : Tensor A) : entries t = [] <-> numel (shape t) = 0.
Proof.
  rewrite <- length_indices. unfold entries.
  destruct (indices (shape t)); simpl; split; intros H; try reflexivity; discriminate.
Qed.

Lemma MinMax_init_none (x : Tensor xreal) (low high : R) :
  MinMax_Normalizer.init x low high = None <-> numel (shape x) = 0.
Proof.
  rewrite <- entries_nil. unfold MinMax_Normalizer.init.
  destruct (entries x) as [| v l]; simpl; split; intros H;
    try reflexivity; discriminate.
Qed.

Lemma Range_init_none (x : Tensor xreal) (low high : R) :
  RangeNormalizer.init x low high = None <-> hd 1 (shape x) = 0.
Proof.
  unfold RangeNormalizer.init, extremum_dim0, view_flat.
  destruct (shape x) as [| d s'] eqn:Hs.
  - cbn [obind hd]. rewrite Hs.
    rewrite reshape_spec by (rewrite Hs; reflexivity). cbn [obind].
    set (mm := mkTensor _ _).
    destruct (tbin_same (fun mx mn => range_a low high mn mx) mm mm (shape mm)
                eq_refl eq_refl) as (a & -> & Ha & _).
    cbn [obind].
    destruct (tbin_same (range_b high) a mm (shape mm) Ha eq_refl) as (b & -> & _).
    cbn [obind]. split; intros H; discriminate.
  - cbn [hd]. destruct (Nat.eqb_spec d 0) as [-> | Hd].
    + cbn [obind]. split; reflexivity.
    + cbn [obind shape].
      assert (HF : numel s' = numel [numel s']) by (simpl; lia).
      rewrite reshape_spec by (cbn [shape]; exact HF). cbn [obind shape data].
      set (mymin := mkTensor [numel s'] _).
      rewrite reshape_spec by (cbn [shape]; exact HF). cbn [obind shape data].
      set (mymax := mkTensor [numel s'] _).
      destruct (tbin_same (fun mx mn => range_a low high mn mx) mymax mymin [numel s']
                  eq_refl eq_refl) as (a & -> & Ha & _).
      cbn [obind].
      destruct (tbin_same (range_b high) a mymax [numel s'] Ha eq_refl) as (b & -> & _).
      cbn [obind]. split; intros H; [discriminate | contradiction].
Qed.

(** X7.  Constructing a normalizer raises on empty data only, and only for
    the range strategies: [MinMax_Normalizer] raises exactly when the tensor
    has no element, [RangeNormalizer] exactly when its first axis is empty;
    the two std-based constructors never raise. *)
Theorem fit_raises_iff (st : strategy) (x : Tensor xreal) (eps low high : R) :
  Normalizer.fit st x eps low high = None <->
  (st = GlobalMinMax /\ numel (shape x) = 0) \/
  (st = PerFeatureRange /\ hd 1 (shape x) = 0).
Proof.
  destruct st; simpl.
  - split; [discriminate |]. intros [[H _] | [H _]]; discriminate.
  - split; [discriminate |]. intros [[H _] | [H _]]; discriminate.
  - destruct (RangeNormalizer.init x low high) eqn:E; simpl.
    + split; [discriminate |]. intros [[H _] | [_ H]]; [discriminate |].
      apply (proj2 (Range_init_none x low high)) in H. rewrite H in E. discriminate.
    + split; [| reflexivity]. intros _. right. split; [reflexivity |].
      apply (Range_init_none x low high). exact E.
  - destruct (MinMax_Normalizer.init x low high) eqn:E; simpl.
    + split; [discriminate |]. intros [[_ H] | [H _]]; [| discriminate].
      apply (proj2 (MinMax_init_none x low high)) in H. rewrite H in E. discriminate.
    + split; [| reflexivity]. intros _. left. split; [reflexivity |].
      apply (MinMax_init_none x low high). exact E.
Qed.

End NormalizerErrors.

Section EncodeDecode.
Local Open Scope R_scope.









End EncodeDecode.

(** ** The relative loss: its sign, and a perfect prediction *)

Section RelativeLossValues.
Local Open Scope R_scope.

Lemma tbin_some {A B C} (f : A -> B -> C) (t1 : Tensor A) (t2 : Tensor B) (t : Tensor C) :
  tbin f t1 t2 = Some t ->
  forall idx, data t idx = f (data t1 (bidx (shape t1) idx)) (data t2 (bidx (shape t2) idx)).
Proof.
  unfold tbin. destruct (bshape (shape t1) (shape t2)); [| discriminate].
  cbn [obind]. intros E. injection E as <-. reflexivity.
Qed.

Lemma xmean_nonneg (l : list xreal) : Forall nonneg l -> nonneg (xmean l).
Proof.
  intros H. unfold xmean. apply xdiv_nonneg.
  - unfold xsum. apply fold_xadd_nonneg; [exact H | simpl; lra].
  - simpl. apply pos_INR.
Qed.

Lemma rel_nonneg (self : LpLoss.t) (x y l : Tensor xreal) :
  LpLoss.rel self x y = Some l -> forall idx, nonneg (data l idx).
Proof.
  unfold LpLoss.rel. intros E.
  apply obind_some in E. destruct E as (n & _ & E).
  apply obind_some in E. destruct E as (x2 & _ & E).
  apply obind_some in E. destruct E as (y2 & _ & E).
  apply obind_some in E. destruct E as (diff & _ & E).
  apply obind_some in E. destruct E as (q & Eq & E).
  assert (Hq : forall idx, nonneg (data q idx)).
  { intros idx. rewrite (tbin_some _ _ _ _ Eq).
    apply xdiv_nonneg; apply norm_rows_nonneg. }
  assert (Hall : Forall nonneg (entries q)).
  { unfold entries. apply Forall_forall. intros v Hv. apply in_map_iff in Hv.
    destruct Hv as (idx & <- & _). apply Hq. }
  destruct (LpLoss.reduction self).
  - destruct (LpLoss.size_average self); injection E as <-; intros idx; cbn [scalar data].
    + apply xmean_nonneg. exact Hall.
    + unfold xsum. apply fold_xadd_nonneg; [exact Hall | simpl; lra].
  - injection E as <-. exact Hq.
Qed.

(** X9.  Whatever the prediction and the target hold (infinities and [NaN]
    included), a relative loss that is returned is never negative: the
    reduced loss and every entry of the unreduced one is a real number
    [>= 0], [+inf] or [NaN]. *)
Theorem rel_never_negative (self : LpLoss.t) (x y l : Tensor xreal) :
  LpLoss.call self x y = Some l -> forall idx, nonneg (data l idx).
Proof. exact (rel_nonneg self x y l). Qed.

Lemma rel_never_negative_witness :
  exists l, LpLoss.call myloss ones_rows varied_rows = Some l /\
            forall idx, nonneg (data l idx).
Proof.
  destruct (rel_shape myloss ones_rows varied_rows 2 1 eq_refl eq_refl ltac:(simpl; lia))
    as (l & E & _).
  exists l. split; [exact E |].
  exact (rel_never_negative myloss ones_rows varied_rows l E).
Defined.

Lemma rpow_pos (r p : R) : 0 < r -> 0 < rpow r p.
Proof.
  intros H. unfold rpow. rewrite (sgn_pos r H). unfold Rpower. apply exp_pos.
Qed.

Lemma fold_Rplus_acc (rs : list R) (a : R) :
  fold_left Rplus rs a = a + fold_left Rplus rs 0.
Proof.
  revert a. induction rs as [| r rs IH]; intros a; simpl; [lra |].
  rewrite (IH (a + r)), (IH (0 + r)). lra.
Qed.

Lemma sum_nonneg_pos (rs : list R) (v : R) :
  (forall a, In a rs -> 0 <= a) -> In v rs -> 0 < v ->
  0 < fold_left Rplus rs 0.
Proof.
  induction rs as [| r rs IH]; intros Hall Hin Hv; [contradiction |].
  simpl. rewrite fold_Rplus_acc.
  assert (Hr : 0 <= r) by (apply Hall; left; reflexivity).
  assert (Hrest : 0 <= fold_left Rplus rs 0).
  { clear IH Hin. induction rs as [| a rs IHrs]; simpl; [lra |].
    rewrite fold_Rplus_acc.
    assert (0 <= a) by (apply Hall; right; left; reflexivity).
    assert (0 <= fold_left Rplus rs 0).
    { apply IHrs. intros b Hb. apply Hall. destruct Hb as [-> | Hb]; [left; reflexivity |].
      right. right. exact Hb. }
    lra. }
  destruct Hin as [-> | Hin]; [lra |].
  assert (0 < fold_left Rplus rs 0).
  { apply IH; try assumption. intros a Ha. apply Hall. right. exact Ha. }
  lra.
Qed.

(** The norm of a row of real numbers that are not all zero is a positive
    real number. *)
Lemma norm_rows_pos (m : Tensor xreal) (p : R) (k j0 : nat) :
  (forall j, (j < hd 0%nat (tl (shape m)))%nat -> finite (data m [k; j])) ->
  (j0 < hd 0%nat (tl (shape m)))%nat -> data m [k; j0] <> Fin 0 ->
  exists r, data (LpLoss.norm_rows m p) [k] = Fin r /\ 0 < r.
Proof.
  intros Hfin Hj0 Hne. unfold LpLoss.norm_rows. cbn [data hd].
  set (F := hd 0%nat (tl (shape m))) in *.
  set (g := fun j => match data m [k; j] with Fin r => rpow (Rabs r) p | _ => 0 end).
  assert (Hg : forall j, (j < F)%nat -> xpow (xabs (data m [k; j])) p = Fin (g j)).
  { intros j Hj. unfold g. specialize (Hfin j Hj).
    destruct (data m [k; j]) as [r | | |]; simpl in Hfin; try tauto.
    simpl. destruct (sgn (Rabs r)) eqn:E; try reflexivity.
    apply sgn_Lt_inv in E. pose proof (Rabs_pos r). lra. }
  assert (Hmap : map (fun j => xpow (xabs (data m [k; j])) p) (seq 0 F)
                 = map Fin (map g (seq 0 F))).
  { rewrite map_map. apply map_ext_in. intros j Hj. apply in_seq in Hj. apply Hg. lia. }
  rewrite Hmap, xsum_fin.
  assert (Hpos : 0 < fold_left Rplus (map g (seq 0 F)) 0).
  { apply (sum_nonneg_pos _ (g j0)).
    - intros a Ha. apply in_map_iff in Ha. destruct Ha as (j & <- & _).
      unfold g. destruct (data m [k; j]); try lra. apply rpow_nonneg.
    - apply in_map. apply in_seq. lia.
    - unfold g. specialize (Hfin j0 Hj0).
      destruct (data m [k; j0]) as [r | | |]; simpl in Hfin; try tauto.
      apply rpow_pos. apply Rabs_pos_lt. intros ->. apply Hne. reflexivity. }
  simpl. rewrite (sgn_pos _ Hpos).
  eexists. split; [reflexivity |]. apply rpow_pos. exact Hpos.
Qed.

(** X10.  For a norm type [p > 0] (the constructor asserts it), a prediction
    equal to a finite target in which every example has an entry that is
    not zero has relative loss zero: the reduced loss (sum or mean) is 0 and
    so is every entry of the unreduced one. *)
Theorem rel_perfect_prediction
  (self : LpLoss.t) (y : Tensor xreal) (n : nat) (sy : list nat) :
  0 < LpLoss.p self ->
  shape y = n :: sy -> (0 < n)%nat -> all_finite y ->
  (forall k, (k < n)%nat ->
     exists idx, inb sy idx = true /\ data y (k :: idx) <> Fin 0) ->
  exists l, LpLoss.call self y y = Some l /\
    if LpLoss.reduction self
    then shape l = [] /\ data l [] = Fin 0
    else shape l = [n] /\ forall k, (k < n)%nat -> data l [k] = Fin 0.
Proof.
  intros _ Hy Hn Hfin Hnz.
  assert (H0 : numel (n :: sy) <> 0%nat).
  { destruct (Hnz 0%nat Hn) as (idx & Hidx & _).
    apply (inb_numel (n :: sy) (0%nat :: idx)). simpl. rewrite Hidx, andb_true_r.
    apply Nat.ltb_lt. exact Hn. }
  unfold LpLoss.call, LpLoss.rel. rewrite Hy. cbn [hd_error obind].
  rewrite (reshape_2d_rows y n sy Hy) by (rewrite Hy; exact H0).
  cbn [obind].
  set (y2 := mkTensor [n; numel sy] _).
  destruct (tbin_same xsub y2 y2 [n; numel sy] eq_refl eq_refl) as (diff & -> & Hd_s & Hd_d).
  cbn [obind].
  assert (Hn_s : forall m, shape m = [n; numel sy] ->
                 shape (LpLoss.norm_rows m (LpLoss.p self)) = [n]).
  { intros m Hm. unfold LpLoss.norm_rows. rewrite Hm. reflexivity. }
  destruct (tbin_same xdiv (LpLoss.norm_rows diff (LpLoss.p self))
              (LpLoss.norm_rows y2 (LpLoss.p self)) [n] (Hn_s diff Hd_s) (Hn_s y2 eq_refl))
    as (q & -> & Hq_s & Hq_d).
  cbn [obind].
  assert (Hy2 : forall k j, (k < n)%nat -> (j < numel sy)%nat ->
                 data y2 [k; j] = data y (k :: unflat sy j) /\
                 inb (n :: sy) (k :: unflat sy j) = true).
  { intros k j Hk Hj. split.
    - subst y2. cbn [data]. rewrite Hy. rewrite unflat_row by exact Hj. reflexivity.
    - simpl. rewrite (inb_unflat sy j Hj), andb_true_r. apply Nat.ltb_lt. exact Hk. }
  assert (Hq0 : forall k, (k < n)%nat -> data q [k] = Fin 0).
  { intros k Hk.
    rewrite Hq_d by (simpl; rewrite andb_true_r; apply Nat.ltb_lt; exact Hk).
    rewrite (norm_rows_zero diff (LpLoss.p self) k).
    - destruct (Hnz k Hk) as (idx & Hidx & Hne).
      destruct (norm_rows_pos y2 (LpLoss.p self) k (flat sy idx)) as (r & -> & Hr).
      + intros j Hj. cbn [y2 shape tl hd] in Hj.
        destruct (Hy2 k j Hk Hj) as [-> Hin]. apply Hfin. rewrite Hy. exact Hin.
      + cbn [y2 shape tl hd]. apply flat_lt. exact Hidx.
      + assert (Hj : (flat sy idx < numel sy)%nat) by (apply flat_lt; exact Hidx).
        destruct (Hy2 k (flat sy idx) Hk Hj) as [-> _].
        rewrite unflat_flat by exact Hidx. exact Hne.
      + rewrite xdiv_fin by lra. f_equal. field. lra.
    - rewrite Hd_s. cbn [tl hd]. intros j Hj.
      rewrite Hd_d by (simpl; rewrite andb_true_r;
                       apply andb_true_intro; split; apply Nat.ltb_lt; assumption).
      destruct (Hy2 k j Hk Hj) as [-> Hin].
      assert (Hv : finite (data y (k :: unflat sy j))) by (apply Hfin; rewrite Hy; exact Hin).
      destruct (finite_inv _ Hv) as [v ->].
      unfold xsub. cbn [xneg xadd]. f_equal. lra. }
  assert (Hent : entries q = map Fin (repeat 0 n)).
  { rewrite (entries_vector q n Hq_s), map_repeat.
    transitivity (map (fun _ : nat => Fin 0) (seq 0 n)).
    - apply map_ext_in. intros i Hi. apply in_seq in Hi. apply Hq0. lia.
    - rewrite map_const, length_seq. reflexivity. }
  destruct (LpLoss.reduction self).
  - destruct (LpLoss.size_average self); eexists; (split; [reflexivity |]);
      (split; [reflexivity |]); cbn [scalar data]; rewrite Hent.
    + rewrite xmean_fin by (destruct n; [lia | discriminate]).
      rewrite sum_zeros. f_equal. rewrite repeat_length. field.
      apply not_0_INR. lia.
    + rewrite xsum_fin, sum_zeros. reflexivity.
  - exists q. split; [reflexivity |]. split; [exact Hq_s | exact Hq0].
Qed.

Lemma rel_perfect_prediction_witness :
  exists l, LpLoss.call myloss ones_rows ones_rows = Some l /\
            shape l = [] /\ data l [] = Fin 0.
Proof.
  apply (rel_perfect_prediction myloss ones_rows 2 [1%nat]).
  - simpl. lra.
  - reflexivity.
  - lia.
  - apply tensor_of_rows_finite.
  - intros k Hk. exists [0%nat]. split; [reflexivity |].
    destruct k as [| [| k]]; [| | lia]; simpl; intros H; injection H as H; lra.
Defined.

End RelativeLossValues.

(** ** The split into training and test data *)

Section SplitFacts.

(** X11.  On a data set of [N] samples with at least [T_in + T] time steps
    the split takes the first [min ntrain N] samples for training and the
    last [ntest] for testing - all [N] of them when [ntest] is 0, since
    [-0] is [0] - with time steps [0 .. T_in-1] as inputs and the [T] steps
    after them as targets; a sample is in both sets exactly when the two
    counts add up to more than [N]. *)
Theorem split_train_test
  (g : Globals) (ntrain ntest : nat) (uvp : Tensor xreal) (N V X Y L : nat) :
  shape uvp = [N; V; X; Y; L] -> T_in g + T g <= L ->
  let ntr := Nat.min ntrain N in
  let nte := if ntest =? 0 then N else Nat.min ntest N in
  exists s,
    split g ntrain ntest uvp = Some s /\
    shape (train_a s) = [ntr; V; X; Y; T_in g] /\
    shape (train_u s) = [ntr; V; X; Y; T g] /\
    shape (test_a s) = [nte; V; X; Y; T_in g] /\
    shape (test_u s) = [nte; V; X; Y; T g] /\
    (forall i v x y c,
        data (train_a s) [i; v; x; y; c] = data uvp [i; v; x; y; c] /\
        data (train_u s) [i; v; x; y; c] = data uvp [i; v; x; y; T_in g + c] /\
        data (test_a s) [i; v; x; y; c] = data uvp [N - nte + i; v; x; y; c] /\
        data (test_u s) [i; v; x; y; c] = data uvp [N - nte + i; v; x; y; T_in g + c]) /\
    ((exists i j, i < ntr /\ j < nte /\ i = N - nte + j) <-> N < ntr + nte).
Proof.
  intros Hs HL ntr nte. unfold split, slice_samples_time. rewrite Hs.
  cbn [obind hd]. eexists. split; [reflexivity |].
  cbn [train_a train_u test_a test_u shape data].
  assert (Hoff : Nat.min (neg_start N ntest) N = N - nte).
  { subst nte. unfold neg_start. destruct (ntest =? 0); lia. }
  rewrite Hoff, Nat.min_id.
  rewrite (Nat.min_l (T_in g) L), (Nat.min_l (T g + T_in g) L) by lia.
  rewrite (Nat.min_l 0 L), (Nat.min_l 0 N) by lia.
  replace (Nat.min ntrain N - 0) with ntr by (subst ntr; lia).
  replace (T_in g - 0) with (T_in g) by lia.
  replace (T g + T_in g - T_in g) with (T g) by lia.
  replace (N - (N - nte)) with nte by (subst nte; destruct (ntest =? 0); lia).
  split; [reflexivity |]. split; [reflexivity |].
  split; [reflexivity |]. split; [reflexivity |].
  split; [intros i v x y c; repeat split; reflexivity |].
  split.
  - intros (i & j & Hi & Hj & E). lia.
  - intros H. exists (N - nte), 0. subst ntr nte.
    destruct (ntest =? 0); lia.
Qed.

Lemma split_train_test_witness :
  exists s,
    split example_globals 3 2 small_dataset = Some s /\
    shape (train_a s) = [3; 1; 1; 1; 2] /\
    shape (train_u s) = [3; 1; 1; 1; 4] /\
    shape (test_a s) = [2; 1; 1; 1; 2] /\
    shape (test_u s) = [2; 1; 1; 1; 4] /\
    (forall i v x y c,
        data (train_a s) [i; v; x; y; c] = data small_dataset [i; v; x; y; c] /\
        data (train_u s) [i; v; x; y; c] = data small_dataset [i; v; x; y; 2 + c] /\
        data (test_a s) [i; v; x; y; c] = data small_dataset [5 - 2 + i; v; x; y; c] /\
        data (test_u s) [i; v; x; y; c] = data small_dataset [5 - 2 + i; v; x; y; 2 + c]) /\
    ((exists i j, i < 3 /\ j < 2 /\ i = 5 - 2 + j) <-> 5 < 3 + 2).
Proof.
  apply (split_train_test example_globals 3 2 small_dataset 5 1 1 1 6).
  - reflexivity.
  - simpl. lia.
Defined.

End SplitFacts.

(** ** The rollout: when it raises, and what a pass leaves in the window *)

(** The number of passes: the horizon over the step, rounded up. *)
Lemma py_range_ceil (stop st k r : nat) :
  0 < st -> stop = k * st + r -> 0 < r < st ->
  py_range stop st = Some (map (fun j => j * st) (seq 0 (S k))).
Proof.
  intros Hst HT Hr. unfold py_range. rewrite (proj2 (Nat.eqb_neq _ 0)) by lia.
  replace ((stop + st - 1) / st) with (S k); [reflexivity |].
  apply (Nat.div_unique _ st (S k) (r - 1)); lia.
Qed.

Lemma numel4 (a b c d : nat) : numel [numel [a; b; c; d]] = a * b * c * d.
Proof. simpl. ring. Qed.

Section RolloutErrors.
Context {lib : TorchLib}.
Variable g : Globals.
Variable model : FNO2d_Multi.t.
Variables B X Y : nat.
Hypothesis Hwf : FNO2d_Multi.wf g model.
Hypothesis Hm1 : 0 < FNO2d_Multi.modes1 model <= X.
Hypothesis Hm2 : FNO2d_Multi.modes2 model <= Y / 2 + 1.
Hypothesis HY : 0 < Y.
Hypothesis HV : 0 < num_vars g.
Hypothesis HB : 0 < B.
Hypothesis Hbatch : batch_size g = B.
Hypothesis HgX : length (x_grid g) = X.
Hypothesis HgY : length (y_grid g) = Y.
Hypothesis Hstep : 0 < step g.

(** The first [j] passes return as long as the target has [j * step]
    channels and the step is no longer than the window. *)
Lemma run_passes (xx0 yy : Tensor xreal) (j : nat) :
  step g <= T_in g ->
  shape xx0 = [B; num_vars g; X; Y; T_in g] ->
  shape yy = [B; num_vars g; X; Y; T g] ->
  j * step g <= T g ->
  exists st,
    Rollout.run g model myloss yy (map (fun i => i * step g) (seq 0 j))
      (Rollout.mkState xx0 None None) = Some st /\
    Rollout.invariant g B X Y j st.
Proof.
  intros Hwindow Hxx0 Hyy. induction j as [| j IH]; intros Hj.
  - exists (Rollout.mkState xx0 None None). split; [reflexivity |].
    split; [exact Hxx0 | split; reflexivity].
  - destruct (IH ltac:(lia)) as (st & Erun & Hinv).
    rewrite seq_S, map_app. cbn [map Nat.add].
    rewrite (run_app g model yy), Erun. cbn [obind Rollout.run].
    destruct (transition_ok g model B X Y Hwf Hm1 Hm2 HY HV HB Hbatch HgX HgY Hstep
                yy j st Hyy ltac:(lia) Hinv)
      as (st' & im & p' & l' & -> & Hxx' & Hp & Hps & Hl & Hls & _).
    cbn [obind]. exists st'. split; [reflexivity |].
    unfold Rollout.invariant. rewrite Hp, Hl.
    replace (T_in g - Nat.min (step g) (T_in g) + step g) with (T_in g) in Hxx' by lia.
    repeat split; try assumption; lia.
Qed.

(** The loss of a prediction of [C] channels against a target slice of
    fewer raises: the flattened rows cannot be subtracted. *)
Lemma batch_loss_mismatch (a b : Tensor xreal) (C r : nat) :
  shape a = [B; num_vars g; X; Y; C] -> shape b = [B; num_vars g; X; Y; r] ->
  r < C -> 1 < num_vars g * X * Y * r ->
  Rollout.batch_loss g myloss a b = None.
Proof using HB Hbatch.
  clear Hwf Hm1 Hm2 HY HV HgX HgY Hstep.
  intros Ha Hb Hr Hbig. unfold Rollout.batch_loss. rewrite Hbatch.
  assert (Hpos : num_vars g <> 0 /\ X <> 0 /\ Y <> 0 /\ r <> 0).
  { repeat split; intros E; rewrite E in Hbig;
      rewrite ?Nat.mul_0_r, ?Nat.mul_0_l in Hbig; lia. }
  destruct Hpos as (HV0 & HX0 & HY0 & Hr0).
  assert (Hna : numel [B; num_vars g; X; Y; C] <> 0).
  { simpl. rewrite Nat.mul_1_r. repeat (apply Nat.neq_mul_0; split); lia. }
  assert (Hnb : numel [B; num_vars g; X; Y; r] <> 0).
  { simpl. rewrite Nat.mul_1_r. repeat (apply Nat.neq_mul_0; split); lia. }
  rewrite (reshape_2d_rows a B _ Ha) by (rewrite Ha; exact Hna).
  rewrite (reshape_2d_rows b B _ Hb) by (rewrite Hb; exact Hnb).
  cbn [obind].
  set (a2 := mkTensor _ _). set (b2 := mkTensor _ _).
  unfold LpLoss.call, LpLoss.rel. cbn [a2 shape hd_error obind].
  assert (Hna2 : numel [B; numel [num_vars g; X; Y; C]] <> 0).
  { simpl in Hna |- *. lia. }
  assert (Hnb2 : numel [B; numel [num_vars g; X; Y; r]] <> 0).
  { simpl in Hnb |- *. lia. }
  rewrite (reshape_2d_rows a2 B [numel [num_vars g; X; Y; C]] eq_refl) by exact Hna2.
  rewrite (reshape_2d_rows b2 B [numel [num_vars g; X; Y; r]] eq_refl) by exact Hnb2.
  cbn [obind]. unfold tbin. cbn [shape].
  rewrite !numel4. unfold bshape. cbn [rev app bshape_rev].
  assert (Hd : bdim (num_vars g * X * Y * C) (num_vars g * X * Y * r) = None).
  { set (P := num_vars g * X * Y) in *.
    assert (HP : 0 < P) by (subst P; repeat (apply Nat.mul_pos_pos); lia).
    assert (Hlt : P * r < P * C) by (apply Nat.mul_lt_mono_pos_l; lia).
    unfold bdim.
    rewrite (proj2 (Nat.eqb_neq (P * C) (P * r))) by lia.
    rewrite (proj2 (Nat.eqb_neq (P * C) 1)) by lia.
    rewrite (proj2 (Nat.eqb_neq (P * r) 1)) by lia. reflexivity. }
  rewrite Hd. reflexivity.
Qed.

Lemma rollout_partial_step (xx0 yy : Tensor xreal) (k r : nat) :
  step g <= T_in g -> T g = k * step g + r -> 0 < r < step g ->
  1 < num_vars g * X * Y * r ->
  shape xx0 = [B; num_vars g; X; Y; T_in g] ->
  shape yy = [B; num_vars g; X; Y; T g] ->
  py_range (T g) (step g) = Some (map (fun j => j * step g) (seq 0 (S k))) /\
  (exists st,
      Rollout.run g model myloss yy (map (fun j => j * step g) (seq 0 k))
        (Rollout.mkState xx0 None None) = Some st /\
      Rollout.invariant g B X Y k st /\
      Rollout.transition g model myloss yy (k * step g) st = None) /\
  Rollout.rollout g model myloss xx0 yy = None.
Proof.
  intros Hwindow HT Hr Hbig Hxx0 Hyy.
  pose proof (py_range_ceil (T g) (step g) k r Hstep HT Hr) as Hrange.
  destruct (run_passes xx0 yy k Hwindow Hxx0 Hyy ltac:(lia)) as (st & Erun & Hinv).
  assert (Etr : Rollout.transition g model myloss yy (k * step g) st = None).
  { unfold Rollout.transition.
    destruct (slice_last_spec yy _ _ _ _ _ (k * step g) (k * step g + step g) Hyy)
      as (y & -> & Hy).
    replace (Nat.min (k * step g + step g) (T g) - Nat.min (k * step g) (T g))
      with r in Hy by lia.
    cbn [obind]. unfold FNO2d_Multi.call. cbn [fst].
    destruct Hinv as (Hxx & _).
    destruct (forward_ok g model B X Y Hwf Hm1 Hm2 HY HV (Rollout.xx st) Hxx HgX HgY)
      as (im & -> & Him).
    cbn [obind].
    rewrite (batch_loss_mismatch im y (step g) r Him Hy ltac:(lia) Hbig).
    reflexivity. }
  split; [exact Hrange |]. split.
  - exists st. auto.
  - unfold Rollout.rollout. rewrite Hrange. cbn [obind].
    rewrite seq_S, map_app. cbn [map Nat.add].
    rewrite (run_app g model yy), Erun. cbn [obind Rollout.run]. rewrite Etr.
    reflexivity.
Qed.

Lemma rollout_long_step (xx0 yy : Tensor xreal) :
  T_in g < step g < T g ->
  shape xx0 = [B; num_vars g; X; Y; T_in g] ->
  shape yy = [B; num_vars g; X; Y; T g] ->
  exists st1,
    Rollout.transition g model myloss yy 0 (Rollout.mkState xx0 None None) = Some st1 /\
    shape (Rollout.xx st1) = [B; num_vars g; X; Y; step g] /\
    FNO2d_Multi.forward g model (Rollout.xx st1) = None /\
    Rollout.transition g model myloss yy (step g) st1 = None /\
    Rollout.rollout g model myloss xx0 yy = None.
Proof.
  intros [Hlong HT] Hxx0 Hyy.
  destruct (transition_ok g model B X Y Hwf Hm1 Hm2 HY HV HB Hbatch HgX HgY Hstep
              yy 0 (Rollout.mkState xx0 None None) Hyy ltac:(lia))
    as (st1 & _ & _ & _ & E1 & Hxx1 & _).
  { split; [exact Hxx0 | split; reflexivity]. }
  change (0 * step g) with 0 in E1.
  replace (T_in g - Nat.min (step g) (T_in g) + step g) with (step g) in Hxx1 by lia.
  assert (Hfw : FNO2d_Multi.forward g model (Rollout.xx st1) = None).
  { destruct (FNO2d_Multi.forward g model (Rollout.xx st1)) as [out |] eqn:E; [| reflexivity].
    destruct (forward_some g model _ out Hwf E) as (B' & V' & X' & Y' & Hs & _).
    rewrite Hxx1 in Hs. injection Hs as _ _ _ _ Hs. lia. }
  assert (Etr : Rollout.transition g model myloss yy (step g) st1 = None).
  { unfold Rollout.transition.
    destruct (slice_last_spec yy _ _ _ _ _ (step g) (step g + step g) Hyy) as (y & -> & _).
    cbn [obind]. unfold FNO2d_Multi.call. cbn [fst]. rewrite Hfw. reflexivity. }
  exists st1. split; [exact E1 |]. split; [exact Hxx1 |]. split; [exact Hfw |].
  split; [exact Etr |].
  unfold Rollout.rollout, py_range. rewrite (proj2 (Nat.eqb_neq _ 0)) by lia.
  cbn [obind].
  assert (Hn : exists n, (T g + step g - 1) / step g = S (S n)).
  { assert (2 <= (T g + step g - 1) / step g).
    { apply Nat.div_le_lower_bound; lia. }
    exists ((T g + step g - 1) / step g - 2). lia. }
  destruct Hn as [n ->]. cbn [seq map Rollout.run].
  change (0 * step g) with 0. rewrite E1. cbn [obind].
  replace (1 * step g) with (step g) by lia. rewrite Etr. reflexivity.
Qed.

End RolloutErrors.

Section RolloutContent.
Context {lib : TorchLib}.

Lemma slice_last_data {A} (t s : Tensor A) (B V X Y L a b : nat) :
  shape t = [B; V; X; Y; L] -> slice_last t a b = Some s ->
  forall ib iv ix iy c,
    data s [ib; iv; ix; iy; c] = data t [ib; iv; ix; iy; Nat.min a L + c].
Proof.
  intros Ht E. unfold slice_last in E. rewrite Ht in E.
  cbn [last removelast app] in E. injection E as <-. reflexivity.
Qed.

Lemma transition_content
  (g : Globals) (model : FNO2d_Multi.t) (B X Y : nat)
  (yy : Tensor xreal) (j : nat) (st : Rollout.state) :
  FNO2d_Multi.wf g model ->
  0 < FNO2d_Multi.modes1 model <= X ->
  FNO2d_Multi.modes2 model <= Y / 2 + 1 ->
  0 < Y -> 0 < num_vars g -> 0 < B -> batch_size g = B ->
  length (x_grid g) = X -> length (y_grid g) = Y ->
  0 < step g <= T_in g ->
  shape yy = [B; num_vars g; X; Y; T g] ->
  j * step g + step g <= T g ->
  Rollout.invariant g B X Y j st ->
  exists st' im p',
    Rollout.transition g model myloss yy (j * step g) st = Some st' /\
    FNO2d_Multi.forward g model (Rollout.xx st) = Some im /\
    shape (Rollout.xx st') = [B; num_vars g; X; Y; T_in g] /\
    (forall b v i k c,
        data (Rollout.xx st') [b; v; i; k; c] =
        if c <? T_in g - step g
        then data (Rollout.xx st) [b; v; i; k; step g + c]
        else data im [b; v; i; k; c - (T_in g - step g)]) /\
    Rollout.pred st' = Some p' /\
    (j = 0 -> p' = im) /\
    (forall p, Rollout.pred st = Some p ->
       forall b v i k c,
         data p' [b; v; i; k; c] =
         if c <? j * step g then data p [b; v; i; k; c]
         else data im [b; v; i; k; c - j * step g]).
Proof.
  intros Hwf Hm1 Hm2 HY HV HB Hbatch HgX HgY [Hstep Hwindow] Hyy Hj (Hxx & Hpred & Hloss).
  unfold Rollout.transition.
  destruct (slice_last_spec yy _ _ _ _ _ (j * step g) (j * step g + step g) Hyy)
    as (y & -> & Hy).
  replace (Nat.min (j * step g + step g) (T g) - Nat.min (j * step g) (T g))
    with (step g) in Hy by lia.
  cbn [obind]. unfold FNO2d_Multi.call. cbn [fst].
  destruct (forward_ok g model B X Y Hwf Hm1 Hm2 HY HV (Rollout.xx st) Hxx HgX HgY)
    as (im & Eim & Him).
  rewrite Eim. cbn [obind].
  destruct (batch_loss_ok g model B X Y Hm1 HY HV HB Hbatch im y (step g) Him Hy Hstep)
    as (l & -> & Hl).
  cbn [obind].
  assert (Hacc : exists l', match Rollout.loss st with
                            | Some acc => tbin xadd acc l
                            | None => Some l
                            end = Some l').
  { destruct (Rollout.loss st) as [acc |].
    - destruct Hloss as [_ Hacc].
      destruct (tbin_same xadd acc l [] Hacc Hl) as (l' & E & _). eauto.
    - eauto. }
  destruct Hacc as (l' & ->). cbn [obind].
  assert (Hp : exists p', (if j * step g =? 0 then Some im
                           else p <- Rollout.pred st ;; cat_last p im) = Some p' /\
                          (j = 0 -> p' = im) /\
                          (forall p, Rollout.pred st = Some p ->
                             forall b v i k c,
                               data p' [b; v; i; k; c] =
                               if c <? j * step g then data p [b; v; i; k; c]
                               else data im [b; v; i; k; c - j * step g])).
  { destruct (Nat.eqb_spec (j * step g) 0) as [E0 | E0].
    - assert (j = 0) by nia. subst j.
      exists im. split; [reflexivity |]. split; [reflexivity |].
      intros p Ep. rewrite Ep in Hpred. destruct Hpred as [Hpos _]. lia.
    - destruct (Rollout.pred st) as [p |].
      + destruct Hpred as [_ Hp]. cbn [obind].
        destruct (cat_last_spec p im _ _ _ _ _ _ Hp Him) as (p' & E & _ & Hd).
        exists p'. split; [exact E |]. split.
        * intros ->. simpl in E0. contradiction.
        * intros p0 Ep0. injection Ep0 as <-. exact Hd.
      + subst j. simpl in E0. contradiction. }
  destruct Hp as (p' & -> & Hp0 & Hpd). cbn [obind].
  destruct (slice_last_from_spec (Rollout.xx st) _ _ _ _ _ (step g) Hxx)
    as (tail & Etail & Htail).
  rewrite Etail. cbn [obind].
  replace (T_in g - Nat.min (step g) (T_in g)) with (T_in g - step g) in Htail by lia.
  destruct (cat_last_spec tail im _ _ _ _ _ _ Htail Him) as (xx' & -> & Hxx' & Hxd).
  cbn [obind].
  eexists. exists im, p'. split; [reflexivity |].
  cbn [Rollout.xx Rollout.pred Rollout.loss].
  split; [reflexivity |].
  replace (T_in g - step g + step g) with (T_in g) in Hxx' by lia.
  split; [exact Hxx' |].
  split.
  - intros b v i k c. rewrite Hxd.
    destruct (c <? T_in g - step g); [| reflexivity].
    unfold slice_last_from in Etail.
    rewrite (slice_last_data _ _ _ _ _ _ _ _ _ Hxx Etail).
    rewrite Nat.min_l by exact Hwindow. reflexivity.
  - split; [reflexivity |]. split; assumption.
Qed.

End RolloutContent.

Section RolloutTheorems.
Context {lib : TorchLib}.

(** X12.  With a step longer than the window ([T_in < step]) and a horizon
    of more than one step, the rollout raises in its second pass: the first
    pass leaves a window of [step] channels, which the network, built for
    [T_in] channels, rejects. *)
Theorem rollout_raises_on_long_step
  (g : Globals) (model : FNO2d_Multi.t) (xx0 yy : Tensor xreal) (B X Y : nat) :
  FNO2d_Multi.wf g model ->
  0 < FNO2d_Multi.modes1 model <= X ->
  FNO2d_Multi.modes2 model <= Y / 2 + 1 ->
  0 < Y -> 0 < num_vars g -> 0 < B -> batch_size g = B ->
  length (x_grid g) = X -> length (y_grid g) = Y ->
  0 < step g -> T_in g < step g < T g ->
  shape xx0 = [B; num_vars g; X; Y; T_in g] ->
  shape yy = [B; num_vars g; X; Y; T g] ->
  exists st1,
    Rollout.transition g model myloss yy 0 (Rollout.mkState xx0 None None) = Some st1 /\
    shape (Rollout.xx st1) = [B; num_vars g; X; Y; step g] /\
    FNO2d_Multi.forward g model (Rollout.xx st1) = None /\
    Rollout.transition g model myloss yy (step g) st1 = None /\
    Rollout.rollout g model myloss xx0 yy = None.
Proof.
  intros Hwf Hm1 Hm2 HY HV HB Hbatch HgX HgY Hstep Hlong Hxx0 Hyy.
  exact (rollout_long_step g model B X Y Hwf Hm1 Hm2 HY HV HB Hbatch HgX HgY Hstep
           xx0 yy Hlong Hxx0 Hyy).
Qed.

(** X13.  With a horizon that is not a multiple of the step
    ([T = k * step + r], [0 < r < step]) the loop makes [k + 1] passes; the
    first [k] return, and the last one raises in the loss, where the [step]
    predicted channels meet the [r] channels left of the target (unless
    these are a single number per sample, which broadcasts). *)
Theorem rollout_raises_on_partial_step
  (g : Globals) (model : FNO2d_Multi.t) (xx0 yy : Tensor xreal) (B X Y k r : nat) :
  FNO2d_Multi.wf g model ->
  0 < FNO2d_Multi.modes1 model <= X ->
  FNO2d_Multi.modes2 model <= Y / 2 + 1 ->
  0 < Y -> 0 < num_vars g -> 0 < B -> batch_size g = B ->
  length (x_grid g) = X -> length (y_grid g) = Y ->
  0 < step g <= T_in g ->
  T g = k * step g + r -> 0 < r < step g ->
  1 < num_vars g * X * Y * r ->
  shape xx0 = [B; num_vars g; X; Y; T_in g] ->
  shape yy = [B; num_vars g; X; Y; T g] ->
  py_range (T g) (step g) = Some (map (fun j => j * step g) (seq 0 (S k))) /\
  (exists st,
      Rollout.run g model myloss yy (map (fun j => j * step g) (seq 0 k))
        (Rollout.mkState xx0 None None) = Some st /\
      Rollout.invariant g B X Y k st /\
      Rollout.transition g model myloss yy (k * step g) st = None) /\
  Rollout.rollout g model myloss xx0 yy = None.
Proof.
  intros Hwf Hm1 Hm2 HY HV HB Hbatch HgX HgY [Hstep Hwindow] HT Hr Hbig Hxx0 Hyy.
  exact (rollout_partial_step g model B X Y Hwf Hm1 Hm2 HY HV HB Hbatch HgX HgY Hstep
           xx0 yy k r Hwindow HT Hr Hbig Hxx0 Hyy).
Qed.


End RolloutTheorems.

Lemma rollout_raises_on_long_step_witness :
  exists model st1,
    FNO2d_Multi.init long_step_globals 3 1 1 example_draws = Some model /\
    Rollout.transition (lib := example_lib) long_step_globals model myloss
      (ones [1; 1; 4; 1; 4]) 0 (Rollout.mkState (ones [1; 1; 4; 1; 1]) None None)
    = Some st1 /\
    shape (Rollout.xx st1) = [1; 1; 4; 1; 2] /\
    FNO2d_Multi.forward (lib := example_lib) long_step_globals model (Rollout.xx st1)
    = None /\
    Rollout.transition (lib := example_lib) long_step_globals model myloss
      (ones [1; 1; 4; 1; 4]) 2 st1 = None /\
    Rollout.rollout (lib := example_lib) long_step_globals model myloss
      (ones [1; 1; 4; 1; 1]) (ones [1; 1; 4; 1; 4]) = None.
Proof.
  destruct (FNO_init_spec long_step_globals 3 1 1 example_draws ltac:(lia))
    as (model & E & Hwf & Hm1 & Hm2 & _).
  destruct (rollout_raises_on_long_step (lib := example_lib) long_step_globals model
              (ones [1; 1; 4; 1; 1]) (ones [1; 1; 4; 1; 4]) 1 4 1 Hwf
              ltac:(rewrite Hm1; lia) ltac:(rewrite Hm2; simpl; lia) ltac:(lia)
              ltac:(simpl; lia) ltac:(lia) eq_refl eq_refl eq_refl
              ltac:(simpl; lia) ltac:(simpl; lia) eq_refl eq_refl)
    as (st1 & H).
  exists model, st1. split; [exact E | exact H].
Defined.

Lemma rollout_raises_on_partial_step_witness :
  exists model,
    FNO2d_Multi.init partial_step_globals 3 1 1 example_draws = Some model /\
    py_range 3 2 = Some [0; 2] /\
    (exists st,
        Rollout.run (lib := example_lib) partial_step_globals model myloss
          (ones [1; 1; 4; 1; 3]) [0] (Rollout.mkState (ones [1; 1; 4; 1; 2]) None None)
        = Some st /\
        Rollout.invariant partial_step_globals 1 4 1 1 st /\
        Rollout.transition (lib := example_lib) partial_step_globals model myloss
          (ones [1; 1; 4; 1; 3]) 2 st = None) /\
    Rollout.rollout (lib := example_lib) partial_step_globals model myloss
      (ones [1; 1; 4; 1; 2]) (ones [1; 1; 4; 1; 3]) = None.
Proof.
  destruct (FNO_init_spec partial_step_globals 3 1 1 example_draws ltac:(lia))
    as (model & E & Hwf & Hm1 & Hm2 & _).
  exists model. split; [exact E |].
  apply (rollout_raises_on_partial_step (lib := example_lib) partial_step_globals model
           (ones [1; 1; 4; 1; 2]) (ones [1; 1; 4; 1; 3]) 1 4 1 1 1).
  - exact Hwf.
  - rewrite Hm1. lia.
  - rewrite Hm2. simpl. lia.
  - lia.
  - simpl. lia.
  - lia.
  - reflexivity.
  - reflexivity.
  - reflexivity.
  - simpl. lia.
  - reflexivity.
  - simpl. lia.
  - simpl. lia.
  - reflexivity.
  - reflexivity.
Defined.


(** ** Testing: what is stored in [pred_set] *)

Lemma strip_ones_length (s : list nat) : length (strip_ones s) <= length s.
Proof.
  induction s as [| d s IH]; simpl; [lia |].
  destruct d as [| [| d]]; simpl; lia.
Qed.

Lemma strip_ones_skipn (s : list nat) :
  skipn (length s - length (strip_ones s)) s = strip_ones s.
Proof.
  induction s as [| d s IH]; [reflexivity |].
  destruct d as [| [| d]].
  - cbn [strip_ones]. rewrite Nat.sub_diag. reflexivity.
  - cbn [strip_ones length]. pose proof (strip_ones_length s).
    replace (S (length s) - length (strip_ones s))
      with (S (length s - length (strip_ones s))) by lia.
    cbn [skipn]. exact IH.
  - cbn [strip_ones]. rewrite Nat.sub_diag. reflexivity.
Qed.

Lemma strip_ones_index (s idx : list nat) :
  inb s idx = true ->
  repeat 0 (length s - length (strip_ones s))
  ++ clamp1 (strip_ones s) (skipn (length s - length (strip_ones s)) idx) = idx.
Proof.
  revert idx. induction s as [| d s IH]; intros idx H.
  - destruct idx; [reflexivity | discriminate].
  - destruct idx as [| i idx]; [discriminate |].
    pose proof H as H'. simpl in H'. apply andb_prop in H'. destruct H' as [Hi Hidx].
    apply Nat.ltb_lt in Hi.
    destruct d as [| [| d]].
    + lia.
    + cbn [strip_ones length]. pose proof (strip_ones_length s).
      replace (S (length s) - length (strip_ones s))
        with (S (length s - length (strip_ones s))) by lia.
      cbn [repeat skipn app]. rewrite (IH idx Hidx). f_equal. lia.
    + cbn [strip_ones]. rewrite Nat.sub_diag. cbn [repeat skipn app].
      apply clamp1_inb. exact H.
Qed.

(** A batch of one sample assigned to a row. *)
Lemma set_row_spec {A} (t v : Tensor A) (n i : nat) (row : list nat) :
  shape t = n :: row -> shape v = 1 :: row -> i < n ->
  exists t', set_row t i v = Some t' /\
    shape t' = n :: row /\
    (forall idx, inb row idx = true -> data t' (i :: idx) = data v (0 :: idx)) /\
    (forall j idx, j <> i -> data t' (j :: idx) = data t (j :: idx)).
Proof.
  intros Ht Hv Hi. unfold set_row. rewrite Ht, Hv. cbn [strip_ones].
  rewrite (proj2 (Nat.ltb_lt i n) Hi).
  rewrite (proj2 (Nat.leb_le _ _) (strip_ones_length row)).
  rewrite strip_ones_skipn, expandable_refl. cbn [andb].
  eexists. split; [reflexivity |]. split; [reflexivity |]. split.
  - intros idx Hidx. cbn [data]. rewrite Nat.eqb_refl. f_equal.
    pose proof (strip_ones_length row).
    cbn [length].
    replace (S (length row) - length (strip_ones row))
      with (S (length row - length (strip_ones row))) by lia.
    cbn [repeat app]. f_equal. unfold bidx.
    rewrite (inb_length _ _ Hidx). apply strip_ones_index. exact Hidx.
  - intros j idx Hj. cbn [data].
    rewrite (proj2 (Nat.eqb_neq j i) Hj). reflexivity.
Qed.

Section TestingFacts.
Context {lib : TorchLib}.

(** The first pass binds [pred] anew: what it was bound to is not read. *)
Lemma run_stale (g : Globals) (model : FNO2d_Multi.t) (yy xx : Tensor xreal)
      (ts : list nat) (p : option (Tensor xreal)) :
  Rollout.run g model myloss yy (0 :: ts) (Rollout.mkState xx p None)
  = Rollout.run g model myloss yy (0 :: ts) (Rollout.mkState xx None None).
Proof. reflexivity. Qed.

Section Samples.
Variable g : Globals.
Variable model : FNO2d_Multi.t.
Variables n X Y k : nat.
Variables test_a test_u : Tensor xreal.
Hypothesis Hwf : FNO2d_Multi.wf g model.
Hypothesis Hm1 : 0 < FNO2d_Multi.modes1 model <= X.
Hypothesis Hm2 : FNO2d_Multi.modes2 model <= Y / 2 + 1.
Hypothesis HY : 0 < Y.
Hypothesis HV : 0 < num_vars g.
Hypothesis HgX : length (x_grid g) = X.
Hypothesis HgY : length (y_grid g) = Y.
Hypothesis Hstep : 0 < step g <= T_in g.
Hypothesis HT : T g = k * step g.
Hypothesis Hk : 0 < k.
Hypothesis Ha : shape test_a = [n; num_vars g; X; Y; T_in g].
Hypothesis Hu : shape test_u = [n; num_vars g; X; Y; T g].

Lemma test_sample_ok (pred0 : option (Tensor xreal)) (i : nat) :
  exists p,
    test_sample g model myloss test_a test_u pred0 i = Some (Some p) /\
    test_sample g model myloss test_a test_u None i = Some (Some p) /\
    shape p = [1; num_vars g; X; Y; T g].
Proof.
  destruct Hstep as [Hs0 Hwindow].
  assert (Hrange : py_range (T g) (step g)
                   = Some (map (fun j => j * step g) (seq 0 k)))
    by (apply py_range_spec; assumption).
  destruct (run_passes (with_batch_size g 1) model 1 X Y Hwf Hm1 Hm2 HY HV
              ltac:(lia) eq_refl HgX HgY Hs0
              (sample_batch test_a i) (sample_batch test_u i) k Hwindow)
    as (st & Erun & Hinv).
  { unfold sample_batch. cbn [shape]. rewrite Ha. reflexivity. }
  { unfold sample_batch. cbn [shape]. rewrite Hu. reflexivity. }
  { cbn [with_batch_size T step]. lia. }
  cbn [with_batch_size T step] in Erun.
  destruct Hinv as (_ & Hp & _).
  destruct (Rollout.pred st) as [p |] eqn:Ep; [| lia].
  destruct Hp as [_ Hp]. cbn [with_batch_size num_vars step] in Hp.
  rewrite <- HT in Hp.
  assert (Enone : test_sample g model myloss test_a test_u None i = Some (Some p)).
  { unfold test_sample. rewrite Hrange. cbn [obind]. rewrite Erun. cbn [obind].
    rewrite Ep. reflexivity. }
  exists p. split; [| split; [exact Enone | exact Hp]].
  rewrite <- Enone. unfold test_sample. rewrite Hrange. cbn [obind].
  destruct k as [| k']; [lia |]. cbn [seq map].
  change (0 * step g) with 0. rewrite run_stale. reflexivity.
Qed.

Lemma test_loop_last (samples : list nat) (i : nat) (pred0 : option (Tensor xreal)) :
  test_loop g model myloss test_a test_u (samples ++ [i]) pred0
  = test_sample g model myloss test_a test_u None i.
Proof.
  revert pred0. induction samples as [| a samples IH]; intros pred0; cbn [app test_loop].
  - destruct (test_sample_ok pred0 i) as (p & -> & -> & _). reflexivity.
  - destruct (test_sample_ok pred0 a) as (p & -> & _). cbn [obind]. apply IH.
Qed.

Lemma testing_ok (pred0 : option (Tensor xreal)) :
  0 < n ->
  exists pred_set p,
    testing g model myloss test_a test_u pred0 = Some (pred_set, 1) /\
    shape pred_set = shape test_u /\
    test_sample g model myloss test_a test_u None (n - 1) = Some (Some p) /\
    (forall idx, inb [num_vars g; X; Y; T g] idx = true ->
       data pred_set (0 :: idx) = data p (0 :: idx)) /\
    (forall i idx, 0 < i -> data pred_set (i :: idx) = Fin 0).
Proof.
  intros Hn. unfold testing. rewrite Ha, Hu. cbn [hd_error obind].
  rewrite Nat.eqb_refl.
  assert (Hseq : seq 0 n = seq 0 (n - 1) ++ [n - 1]).
  { destruct n as [| n']; [lia |]. rewrite seq_S. cbn [Nat.add].
    replace (S n' - 1) with n' by lia. reflexivity. }
  rewrite Hseq, test_loop_last.
  destruct (test_sample_ok None (n - 1)) as (p & _ & Ep & Hp).
  rewrite Ep. cbn [obind].
  destruct (set_row_spec (zeros (Fin 0) [n; num_vars g; X; Y; T g]) p n 0 _
              eq_refl Hp Hn) as (ps & -> & Hps & Hrow & Hrest).
  cbn [obind]. exists ps, p. split; [reflexivity |]. split; [exact Hps |].
  split; [reflexivity |]. split; [exact Hrow |].
  intros i idx Hi. rewrite Hrest by lia. reflexivity.
Qed.

End Samples.

End TestingFacts.

(** X15.  The testing block stores one prediction only.  [pred_set[index] =
    pred] and [index += 1] stand after the loop over the test samples, not
    in it: for a test set of [n >= 1] samples (and a rollout that returns,
    [0 < step <= T_in], [T] a positive multiple of [step]) the block ends
    with [index = 1], row 0 of [pred_set] holds the prediction for the last
    sample, [n - 1], and every other row is still zero - whatever [pred] was
    bound to before. *)
Theorem testing_keeps_last_sample
  {lib : TorchLib} (g : Globals) (model : FNO2d_Multi.t) (n X Y k : nat)
  (test_a test_u : Tensor xreal) (pred0 : option (Tensor xreal)) :
  FNO2d_Multi.wf g model ->
  0 < FNO2d_Multi.modes1 model <= X ->
  FNO2d_Multi.modes2 model <= Y / 2 + 1 ->
  0 < Y -> 0 < num_vars g ->
  length (x_grid g) = X -> length (y_grid g) = Y ->
  0 < step g <= T_in g -> T g = k * step g -> 0 < k ->
  shape test_a = [n; num_vars g; X; Y; T_in g] ->
  shape test_u = [n; num_vars g; X; Y; T g] ->
  0 < n ->
  exists pred_set p,
    testing g model myloss test_a test_u pred0 = Some (pred_set, 1) /\
    shape pred_set = shape test_u /\
    test_sample g model myloss test_a test_u None (n - 1) = Some (Some p) /\
    (forall idx, inb [num_vars g; X; Y; T g] idx = true ->
       data pred_set (0 :: idx) = data p (0 :: idx)) /\
    (forall i idx, 0 < i -> data pred_set (i :: idx) = Fin 0).
Proof.
  intros Hwf Hm1 Hm2 HY HV HgX HgY Hstep HT Hk Ha Hu Hn.
  exact (testing_ok g model n X Y k test_a test_u Hwf Hm1 Hm2 HY HV HgX HgY Hstep HT Hk
           Ha Hu pred0 Hn).
Qed.

Lemma testing_keeps_last_sample_witness :
  exists model pred_set p,
    FNO2d_Multi.init example_globals 3 1 1 example_draws = Some model /\
    testing (lib := example_lib) example_globals model myloss
      (ones [2; 1; 4; 1; 2]) (ones [2; 1; 4; 1; 4]) None = Some (pred_set, 1) /\
    shape pred_set = [2; 1; 4; 1; 4] /\
    test_sample (lib := example_lib) example_globals model myloss
      (ones [2; 1; 4; 1; 2]) (ones [2; 1; 4; 1; 4]) None 1 = Some (Some p) /\
    (forall idx, inb [1; 4; 1; 4] idx = true ->
       data pred_set (0 :: idx) = data p (0 :: idx)) /\
    (forall i idx, 0 < i -> data pred_set (i :: idx) = Fin 0).
Proof.
  destruct (FNO_init_spec example_globals 3 1 1 example_draws ltac:(lia))
    as (model & E & Hwf & Hm1 & Hm2 & _).
  destruct (testing_keeps_last_sample (lib := example_lib) example_globals model 2 4 1 2
              (ones [2; 1; 4; 1; 2]) (ones [2; 1; 4; 1; 4]) None Hwf
              ltac:(rewrite Hm1; lia) ltac:(rewrite Hm2; simpl; lia) ltac:(lia)
              ltac:(simpl; lia) eq_refl eq_refl ltac:(simpl; lia) eq_refl ltac:(lia)
              eq_refl eq_refl ltac:(lia))
    as (pred_set & p & H).
  exists model, pred_set, p. split; [exact E | exact H].
Defined.

(** ** The constructor of the network, and the layers it never applies *)

Section NetworkConstruction.
Context {lib : TorchLib}.

(** X16.  [FNO2d_Multi(modes1, modes2, width)] raises exactly when [width]
    is 0 (the scale [1 / (width * width)] of its first Fourier layer divides
    by zero).  It accepts every number of modes: with [modes1 = 0] it
    returns a network whose forward pass raises on every input. *)
Theorem network_construction
  (g : Globals) (m1 m2 width : nat) (r : Draws) :
  (FNO2d_Multi.init g m1 m2 width r = None <-> width = 0) /\
  (forall m x, FNO2d_Multi.init g 0 m2 width r = Some m ->
               FNO2d_Multi.forward g m x = None).
Proof.
  split.
  - split.
    + intros E. destruct (Nat.eq_dec width 0) as [H0 | H0]; [exact H0 |].
      destruct (FNO_init_spec g m1 m2 width r H0) as (m & Em & _). congruence.
    + intros ->. apply FNO_init_none.
  - intros m x E.
    destruct (Nat.eq_dec width 0) as [H0 | H0].
    { subst width. rewrite FNO_init_none in E. discriminate. }
    destruct (FNO_init_spec g 0 m2 width r H0) as (m' & Em & Hwf & Hm1 & _).
    assert (m' = m) by congruence. subst m'.
    destruct (FNO2d_Multi.forward g m x) as [out |] eqn:Ef; [| reflexivity].
    destruct (forward_some g m x out Hwf Ef) as (B & V & X & Y & _ & _ & _ & _ & Hpos & _).
    rewrite Hm1 in Hpos. lia.
Qed.

(** The layers [fc_d0], [fc_d1] and [fc_d2] that the constructor builds
    (and [count_params] counts) have no part in the output: [forward] does
    not read them. *)
Lemma forward_ignores_unused_layers
  (g : Globals) (m : FNO2d_Multi.t) (d0 d1 d2 : Linear.t) (x : Tensor xreal) :
  FNO2d_Multi.forward g (with_fc_d m d0 d1 d2) x = FNO2d_Multi.forward g m x.
Proof. reflexivity. Qed.

End NetworkConstruction.

(** ** The samples of a batch do not influence each other *)

Section SampleIndependence.
Context {lib : TorchLib}.
Variables k k' B B' : nat.
Hypothesis Hk : k < B.
Hypothesis Hk' : k' < B'.

Lemma clamp5 (n a b c d kk v i j l : nat) :
  kk < n ->
  clamp1 [n; a; b; c; d] [kk; v; i; j; l] = kk :: clamp1 [a; b; c; d] [v; i; j; l].
Proof.
  intros H. cbn [clamp1]. destruct (Nat.eqb_spec n 1); [f_equal; lia | reflexivity].
Qed.

Lemma rfft2_same (x x' : Tensor xreal) (I P X Y : nat) :
  shape x = [B; I; P; X; Y] -> shape x' = [B'; I; P; X; Y] -> 0 < X -> 0 < Y ->
  same_sample k k' x x' ->
  exists f f',
    SpectralConv2d.rfft2 x = Some f /\ SpectralConv2d.rfft2 x' = Some f' /\
    shape f = [B; I; P; X; Y / 2 + 1] /\ shape f' = [B'; I; P; X; Y / 2 + 1] /\
    same_sample k k' f f'.
Proof using.
  intros Hx Hx' HX HY H.
  destruct (rfft2_spec x B I P X Y Hx HX HY) as (f & Ef & Hf).
  destruct (rfft2_spec x' B' I P X Y Hx' HX HY) as (f' & Ef' & Hf').
  exists f, f'. repeat (split; [assumption |]).
  intros v i j c.
  rewrite (rfft2_data x f B I P X Y Hx Ef), (rfft2_data x' f' B' I P X Y Hx' Ef').
  f_equal. extensionality n1. extensionality n2. apply H.
Qed.

Lemma slice_block_same {A} (t t' : Tensor A) (I P X Y start rows cols : nat) :
  shape t = [B; I; P; X; Y] -> shape t' = [B'; I; P; X; Y] ->
  same_sample k k' t t' ->
  exists s s',
    slice_block t start rows cols = Some s /\ slice_block t' start rows cols = Some s' /\
    shape s = [B; I; P; rows; cols] /\ shape s' = [B'; I; P; rows; cols] /\
    same_sample k k' s s'.
Proof using.
  intros Ht Ht' H.
  destruct (slice_block_spec t B I P X Y start rows cols Ht) as (s & Es & Hs & Hd).
  destruct (slice_block_spec t' B' I P X Y start rows cols Ht') as (s' & Es' & Hs' & Hd').
  exists s, s'. repeat (split; [assumption |]).
  intros v i j c. rewrite Hd, Hd'. apply H.
Qed.

Lemma compl_mul2d_same (lo lo' w : Tensor cplx) (I P rows cols O Q : nat) :
  shape lo = [B; I; P; rows; cols] -> shape lo' = [B'; I; P; rows; cols] ->
  shape w = [I; O; P; Q; rows; cols] ->
  same_sample k k' lo lo' ->
  exists r r',
    SpectralConv2d.compl_mul2d lo w = Some r /\ SpectralConv2d.compl_mul2d lo' w = Some r' /\
    shape r = [B; O; Q; rows; cols] /\ shape r' = [B'; O; Q; rows; cols] /\
    same_sample k k' r r'.
Proof using Hk Hk'.
  intros Hlo Hlo' Hw H.
  destruct (compl_mul2d_spec lo w B I P rows cols O Q Hlo Hw) as (r & Er & Hr & Hd).
  destruct (compl_mul2d_spec lo' w B' I P rows cols O Q Hlo' Hw) as (r' & Er' & Hr' & Hd').
  exists r, r'. repeat (split; [assumption |]).
  intros v i j c. rewrite Hd, Hd'. unfold SpectralConv2d.contraction.
  rewrite Hlo, Hlo'.
  f_equal. apply map_ext. intros ii. f_equal. apply map_ext. intros ip.
  rewrite (clamp5 B _ _ _ _ k _ _ _ _ Hk), (clamp5 B' _ _ _ _ k' _ _ _ _ Hk').
  cbn [clamp1]. f_equal. apply H.
Qed.

Lemma assign_block_same {A} (out out' rhs rhs' : Tensor A)
      (O Q X Y start rows cols : nat) :
  shape out = [B; O; Q; X; Y] -> shape out' = [B'; O; Q; X; Y] ->
  shape rhs = [B; O; Q; rows; cols] -> shape rhs' = [B'; O; Q; rows; cols] ->
  same_sample k k' out out' -> same_sample k k' rhs rhs' ->
  exists r r',
    assign_block out rhs start rows cols = Some r /\
    assign_block out' rhs' start rows cols = Some r' /\
    shape r = [B; O; Q; X; Y] /\ shape r' = [B'; O; Q; X; Y] /\
    same_sample k k' r r'.
Proof using Hk Hk'.
  intros Ho Ho' Hr Hr' Hout Hrhs. unfold assign_block.
  rewrite Ho, Ho', Hr, Hr', !expandable_refl.
  eexists. eexists. split; [reflexivity |]. split; [reflexivity |].
  split; [reflexivity |]. split; [reflexivity |].
  intros v i j c. cbn [data].
  destruct ((start <=? j) && (j <? start + rows) && (c <? cols)).
  - rewrite (clamp5 B _ _ _ _ k _ _ _ _ Hk), (clamp5 B' _ _ _ _ k' _ _ _ _ Hk').
    cbn [clamp1]. apply Hrhs.
  - apply Hout.
Qed.

Lemma irfft2_data (out_ft : Tensor cplx) (out : Tensor xreal) (n O Q X' Y' X Y : nat) :
  shape out_ft = [n; O; Q; X'; Y'] -> SpectralConv2d.irfft2 out_ft X Y = Some out ->
  forall b j q n1 n2,
    data out [b; j; q; n1; n2]
    = fft_irfft2 X Y (fun k1 k2 => data out_ft [b; j; q; k1; k2]) n1 n2.
Proof using.
  intros Hs E. unfold SpectralConv2d.irfft2 in E. rewrite Hs in E.
  destruct ((X =? 0) || (Y =? 0)); [discriminate |].
  injection E as <-. reflexivity.
Qed.

Lemma irfft2_same (o o' : Tensor cplx) (O Q X' Y' X Y : nat) :
  shape o = [B; O; Q; X'; Y'] -> shape o' = [B'; O; Q; X'; Y'] -> 0 < X -> 0 < Y ->
  same_sample k k' o o' ->
  exists r r',
    SpectralConv2d.irfft2 o X Y = Some r /\ SpectralConv2d.irfft2 o' X Y = Some r' /\
    shape r = [B; O; Q; X; Y] /\ shape r' = [B'; O; Q; X; Y] /\
    same_sample k k' r r'.
Proof using.
  intros Ho Ho' HX HY H.
  destruct (irfft2_spec o B O Q X' Y' X Y Ho HX HY) as (r & Er & Hr).
  destruct (irfft2_spec o' B' O Q X' Y' X Y Ho' HX HY) as (r' & Er' & Hr').
  exists r, r'. repeat (split; [assumption |]).
  intros v i j c.
  rewrite (irfft2_data o r B O Q X' Y' X Y Ho Er), (irfft2_data o' r' B' O Q X' Y' X Y Ho' Er').
  f_equal. extensionality k1. extensionality k2. apply H.
Qed.

(** The Fourier layer transforms each sample by itself. *)
Lemma spectral_forward_same (L : SpectralConv2d.t) (x x' : Tensor xreal) (X Y : nat) :
  SpectralConv2d.wf L ->
  shape x = [B; SpectralConv2d.in_channels_time L; SpectralConv2d.in_channels_dim L; X; Y] ->
  shape x' = [B'; SpectralConv2d.in_channels_time L; SpectralConv2d.in_channels_dim L; X; Y] ->
  0 < SpectralConv2d.modes1 L <= X -> SpectralConv2d.modes2 L <= Y / 2 + 1 -> 0 < Y ->
  same_sample k k' x x' ->
  exists r r',
    SpectralConv2d.forward L x = Some r /\ SpectralConv2d.forward L x' = Some r' /\
    shape r = [B; SpectralConv2d.out_channels_time L; SpectralConv2d.out_channels_dim L; X; Y] /\
    shape r' = [B'; SpectralConv2d.out_channels_time L; SpectralConv2d.out_channels_dim L; X; Y] /\
    same_sample k k' r r'.
Proof using Hk Hk'.
  intros [Hw1 Hw2] Hx Hx' Hm1 Hm2 HY H.
  unfold SpectralConv2d.forward, SpectralConv2d.forward_spectrum. rewrite Hx, Hx'.
  destruct (rfft2_same x x' _ _ X Y Hx Hx' ltac:(lia) HY H)
    as (f & f' & -> & -> & Hf & Hf' & Hff).
  cbn [obind].
  rewrite (Nat.min_l (SpectralConv2d.modes1 L) X),
    (Nat.min_l (SpectralConv2d.modes2 L) (Y / 2 + 1)) by lia.
  assert (Hstart : neg_start X (SpectralConv2d.modes1 L) = X - SpectralConv2d.modes1 L).
  { unfold neg_start. rewrite (proj2 (Nat.eqb_neq _ 0)) by lia. reflexivity. }
  rewrite Hstart.
  replace (X - (X - SpectralConv2d.modes1 L)) with (SpectralConv2d.modes1 L) by lia.
  destruct (slice_block_same f f' _ _ X (Y / 2 + 1) 0 (SpectralConv2d.modes1 L)
              (SpectralConv2d.modes2 L) Hf Hf' Hff)
    as (lo & lo' & -> & -> & Hlo & Hlo' & Hll).
  cbn [obind].
  destruct (compl_mul2d_same lo lo' (SpectralConv2d.weights1 L) _ _ _ _ _ _
              Hlo Hlo' Hw1 Hll) as (r1 & r1' & -> & -> & Hr1 & Hr1' & Hrr1).
  cbn [obind].
  destruct (assign_block_same
              (zeros czero [B; SpectralConv2d.out_channels_time L;
                            SpectralConv2d.out_channels_dim L; X; Y / 2 + 1])
              (zeros czero [B'; SpectralConv2d.out_channels_time L;
                            SpectralConv2d.out_channels_dim L; X; Y / 2 + 1])
              r1 r1' _ _ X (Y / 2 + 1) 0 (SpectralConv2d.modes1 L)
              (SpectralConv2d.modes2 L) eq_refl eq_refl Hr1 Hr1')
    as (o1 & o1' & -> & -> & Ho1 & Ho1' & Hoo1).
  { intros v i j c. reflexivity. }
  { exact Hrr1. }
  cbn [obind].
  destruct (slice_block_same f f' _ _ X (Y / 2 + 1) (X - SpectralConv2d.modes1 L)
              (SpectralConv2d.modes1 L) (SpectralConv2d.modes2 L) Hf Hf' Hff)
    as (hi & hi' & -> & -> & Hhi & Hhi' & Hhh).
  cbn [obind].
  destruct (compl_mul2d_same hi hi' (SpectralConv2d.weights2 L) _ _ _ _ _ _
              Hhi Hhi' Hw2 Hhh) as (r2 & r2' & -> & -> & Hr2 & Hr2' & Hrr2).
  cbn [obind].
  destruct (assign_block_same o1 o1' r2 r2' _ _ X (Y / 2 + 1)
              (X - SpectralConv2d.modes1 L) (SpectralConv2d.modes1 L)
              (SpectralConv2d.modes2 L) Ho1 Ho1' Hr2 Hr2' Hoo1 Hrr2)
    as (o2 & o2' & -> & -> & Ho2 & Ho2' & Hoo2).
  cbn [obind].
  apply (irfft2_same o2 o2' _ _ X (Y / 2 + 1) X Y Ho2 Ho2' ltac:(lia) HY Hoo2).
Qed.

Lemma conv3d_data (c : Conv3d.t) (x y : Tensor xreal) (N C D H W : nat) :
  shape x = [N; C; D; H; W] -> Conv3d.forward c x = Some y ->
  forall n o d h w,
    data y [n; o; d; h; w]
    = xadd (xsum (map (fun ci => xmul (data (Conv3d.weight c) [o; ci; 0; 0; 0])
                                      (data x [n; ci; d; h; w]))
                      (seq 0 (Conv3d.in_channels c))))
           (data (Conv3d.bias c) [o]).
Proof using.
  intros Hx E. unfold Conv3d.forward in E. rewrite Hx in E.
  destruct ((C =? Conv3d.in_channels c) && negb ((D =? 0) || (H =? 0) || (W =? 0)));
    [| discriminate].
  injection E as <-. reflexivity.
Qed.

Lemma conv3d_same (c : Conv3d.t) (x x' : Tensor xreal) (C D H W : nat) :
  shape x = [B; C; D; H; W] -> shape x' = [B'; C; D; H; W] ->
  C = Conv3d.in_channels c -> 0 < D -> 0 < H -> 0 < W ->
  same_sample k k' x x' ->
  exists y y',
    Conv3d.forward c x = Some y /\ Conv3d.forward c x' = Some y' /\
    shape y = [B; Conv3d.out_channels c; D; H; W] /\
    shape y' = [B'; Conv3d.out_channels c; D; H; W] /\
    same_sample k k' y y'.
Proof using.
  intros Hx Hx' HC HD HH HW Hs.
  destruct (conv3d_spec c x B C D H W Hx HC HD HH HW) as (y & Ey & Hy).
  destruct (conv3d_spec c x' B' C D H W Hx' HC HD HH HW) as (y' & Ey' & Hy').
  exists y, y'. repeat (split; [assumption |]).
  intros v i j l.
  rewrite (conv3d_data c x y B C D H W Hx Ey), (conv3d_data c x' y' B' C D H W Hx' Ey').
  f_equal. f_equal. apply map_ext. intros ci. f_equal. apply Hs.
Qed.

Lemma tbin_same_sample {A1 A2 A3} (f : A1 -> A2 -> A3)
      (a a' : Tensor A1) (b b' : Tensor A2) (s : list nat) :
  length s = 4 ->
  shape a = B :: s -> shape a' = B' :: s -> shape b = B :: s -> shape b' = B' :: s ->
  same_sample k k' a a' -> same_sample k k' b b' ->
  exists r r',
    tbin f a b = Some r /\ tbin f a' b' = Some r' /\
    shape r = B :: s /\ shape r' = B' :: s /\ same_sample k k' r r'.
Proof using Hk Hk'.
  intros Hlen Ha Ha' Hb Hb' Haa Hbb.
  destruct (tbin_same f a b (B :: s) Ha Hb) as (r & Er & Hr & _).
  destruct (tbin_same f a' b' (B' :: s) Ha' Hb') as (r' & Er' & Hr' & _).
  exists r, r'. repeat (split; [assumption |]).
  destruct s as [| s1 [| s2 [| s3 [| s4 [| ? ?]]]]]; try discriminate.
  intros v i j c.
  rewrite (tbin_some f a b r Er), (tbin_some f a' b' r' Er').
  rewrite Ha, Ha', Hb, Hb'. unfold bidx. cbn [length Nat.sub skipn].
  rewrite (clamp5 B _ _ _ _ k _ _ _ _ Hk), (clamp5 B' _ _ _ _ k' _ _ _ _ Hk').
  cbn [clamp1]. f_equal; [apply Haa | apply Hbb].
Qed.

Lemma tmap_same_sample {A1 A2} (f : A1 -> A2) (a a' : Tensor A1) :
  same_sample k k' a a' -> same_sample k k' (tmap f a) (tmap f a').
Proof using.
  intros H v i j c. unfold tmap. cbn [data]. f_equal. apply H.
Qed.

Lemma linear_same (l : Linear.t) (x x' : Tensor xreal) (V X Y C : nat) :
  shape x = [B; V; X; Y; C] -> shape x' = [B'; V; X; Y; C] ->
  C = Linear.in_features l ->
  same_sample k k' x x' ->
  exists y y',
    Linear.forward l x = Some y /\ Linear.forward l x' = Some y' /\
    shape y = [B; V; X; Y; Linear.out_features l] /\
    shape y' = [B'; V; X; Y; Linear.out_features l] /\
    same_sample k k' y y'.
Proof using.
  intros Hx Hx' HC H.
  destruct (linear_forward_spec l x B V X Y C Hx HC) as (y & Ey & Hy & Hd).
  destruct (linear_forward_spec l x' B' V X Y C Hx' HC) as (y' & Ey' & Hy' & Hd').
  exists y, y'. repeat (split; [assumption |]).
  intros v i j c. rewrite Hd, Hd'. unfold Linear.point.
  f_equal. f_equal. apply map_ext. intros ci. cbn [app]. f_equal. apply H.
Qed.

Lemma permute_04123_same {A} (x x' : Tensor A) (s1 s2 s3 s4 : nat) :
  shape x = [B; s1; s2; s3; s4] -> shape x' = [B'; s1; s2; s3; s4] ->
  same_sample k k' x x' ->
  exists y y',
    permute_04123 x = Some y /\ permute_04123 x' = Some y' /\
    shape y = [B; s4; s1; s2; s3] /\ shape y' = [B'; s4; s1; s2; s3] /\
    same_sample k k' y y'.
Proof using.
  intros Hx Hx' H. unfold permute_04123. rewrite Hx, Hx'.
  eexists. eexists. repeat (split; [reflexivity |]).
  intros v i j c. cbn [data]. apply H.
Qed.

Lemma permute_02341_same {A} (x x' : Tensor A) (s1 s2 s3 s4 : nat) :
  shape x = [B; s1; s2; s3; s4] -> shape x' = [B'; s1; s2; s3; s4] ->
  same_sample k k' x x' ->
  exists y y',
    permute_02341 x = Some y /\ permute_02341 x' = Some y' /\
    shape y = [B; s2; s3; s4; s1] /\ shape y' = [B'; s2; s3; s4; s1] /\
    same_sample k k' y y'.
Proof using.
  intros Hx Hx' H. unfold permute_02341. rewrite Hx, Hx'.
  eexists. eexists. repeat (split; [reflexivity |]).
  intros v i j c. cbn [data]. apply H.
Qed.

Section Network.
Variable g : Globals.
Variable m : FNO2d_Multi.t.
Variables X Y : nat.
Hypothesis Hwf : FNO2d_Multi.wf g m.
Hypothesis Hm1 : 0 < FNO2d_Multi.modes1 m <= X.
Hypothesis Hm2 : FNO2d_Multi.modes2 m <= Y / 2 + 1.
Hypothesis HY : 0 < Y.
Hypothesis HV : 0 < num_vars g.
Hypothesis HgX : length (x_grid g) = X.
Hypothesis HgY : length (y_grid g) = Y.

Lemma spec_block_same (act : bool) (i : nat) (x x' : Tensor xreal) :
  shape x = [B; FNO2d_Multi.width m; num_vars g; X; Y] ->
  shape x' = [B'; FNO2d_Multi.width m; num_vars g; X; Y] ->
  same_sample k k' x x' ->
  exists y y',
    spec_block (fun i => SpectralConv2d.forward (FNO2d_Multi.conv m i))
               (fun i => Conv3d.forward (FNO2d_Multi.w m i))
               (tbin xadd) (tmap F_gelu) act i x = Some y /\
    spec_block (fun i => SpectralConv2d.forward (FNO2d_Multi.conv m i))
               (fun i => Conv3d.forward (FNO2d_Multi.w m i))
               (tbin xadd) (tmap F_gelu) act i x' = Some y' /\
    shape y = [B; FNO2d_Multi.width m; num_vars g; X; Y] /\
    shape y' = [B'; FNO2d_Multi.width m; num_vars g; X; Y] /\
    same_sample k k' y y'.
Proof using Hk Hk' Hwf Hm1 Hm2 HY HV.
  clear HgX HgY. intros Hx Hx' H.
  destruct Hwf as (_ & _ & _ & _ & _ & _ & Hlayers).
  destruct (Hlayers i) as (Hcwf & Hit & Hot & Hid & Hod & Hcm1 & Hcm2 & Hwi & Hwo).
  unfold spec_block.
  destruct (spectral_forward_same (FNO2d_Multi.conv m i) x x' X Y Hcwf)
    as (c & c' & -> & -> & Hc & Hc' & Hcc).
  { rewrite Hit, Hid. exact Hx. }
  { rewrite Hit, Hid. exact Hx'. }
  { rewrite Hcm1. exact Hm1. }
  { rewrite Hcm2. exact Hm2. }
  { exact HY. }
  { exact H. }
  rewrite Hot, Hod in Hc, Hc'. cbn [obind].
  destruct (conv3d_same (FNO2d_Multi.w m i) x x' _ _ _ _ Hx Hx' (eq_sym Hwi) HV
              ltac:(lia) HY H) as (l & l' & -> & -> & Hl & Hl' & Hll).
  rewrite Hwo in Hl, Hl'. cbn [obind].
  destruct (tbin_same_sample xadd c c' l l' [FNO2d_Multi.width m; num_vars g; X; Y]
              eq_refl Hc Hc' Hl Hl' Hcc Hll)
    as (s & s' & -> & -> & Hs & Hs' & Hss).
  cbn [obind]. eexists. eexists. split; [reflexivity |]. split; [reflexivity |].
  destruct act.
  - split; [exact Hs |]. split; [exact Hs' |]. apply tmap_same_sample. exact Hss.
  - auto.
Qed.

Lemma spec_stack_same (acts : nat -> bool) (n i : nat) (x x' : Tensor xreal) :
  shape x = [B; FNO2d_Multi.width m; num_vars g; X; Y] ->
  shape x' = [B'; FNO2d_Multi.width m; num_vars g; X; Y] ->
  same_sample k k' x x' ->
  exists y y',
    spec_stack_from (fun i => SpectralConv2d.forward (FNO2d_Multi.conv m i))
                    (fun i => Conv3d.forward (FNO2d_Multi.w m i))
                    (tbin xadd) (tmap F_gelu) acts i n x = Some y /\
    spec_stack_from (fun i => SpectralConv2d.forward (FNO2d_Multi.conv m i))
                    (fun i => Conv3d.forward (FNO2d_Multi.w m i))
                    (tbin xadd) (tmap F_gelu) acts i n x' = Some y' /\
    shape y = [B; FNO2d_Multi.width m; num_vars g; X; Y] /\
    shape y' = [B'; FNO2d_Multi.width m; num_vars g; X; Y] /\
    same_sample k k' y y'.
Proof using Hk Hk' Hwf Hm1 Hm2 HY HV.
  revert i x x'. induction n as [| n IH]; intros i x x' Hx Hx' H; simpl.
  - exists x, x'. auto.
  - destruct (spec_block_same (acts i) i x x' Hx Hx' H)
      as (y & y' & -> & -> & Hy & Hy' & Hyy).
    cbn [obind]. apply IH; assumption.
Qed.

Lemma forward_same (x x' : Tensor xreal) :
  shape x = [B; num_vars g; X; Y; T_in g] ->
  shape x' = [B'; num_vars g; X; Y; T_in g] ->
  same_sample k k' x x' ->
  exists out out',
    FNO2d_Multi.forward g m x = Some out /\
    FNO2d_Multi.forward g m x' = Some out' /\
    shape out = [B; num_vars g; X; Y; step g] /\
    shape out' = [B'; num_vars g; X; Y; step g] /\
    same_sample k k' out out'.
Proof using Hk Hk' Hwf Hm1 Hm2 HY HV HgX HgY.
  intros Hx Hx' H. unfold FNO2d_Multi.forward, FNO2d_Multi.lift, FNO2d_Multi.project.
  destruct (grid_cat_spec g x B _ X Y Hx HgX HgY) as (xg & Exg & Hxs & Hxd).
  destruct (grid_cat_spec g x' B' _ X Y Hx' HgX HgY) as (xg' & Exg' & Hxs' & Hxd').
  assert (Hgg : same_sample k k' xg xg').
  { intros v i j c. rewrite Hxd, Hxd'. destruct (c <? T_in g); [apply H | reflexivity]. }
  destruct (FNO2d_Multi.get_grid g (shape x)) as [grid |]; [| discriminate].
  destruct (FNO2d_Multi.get_grid g (shape x')) as [grid' |]; [| discriminate].
  cbn [obind] in Exg, Exg' |- *. rewrite Exg, Exg'. cbn [obind].
  destruct Hwf as (Hi0 & Ho0 & Hi1 & Ho1 & Hi2 & Ho2 & _).
  destruct (linear_same (FNO2d_Multi.fc0 m) xg xg' _ X Y _ Hxs Hxs' (eq_sym Hi0) Hgg)
    as (u & u' & -> & -> & Hu & Hu' & Huu).
  rewrite Ho0 in Hu, Hu'. cbn [obind].
  destruct (permute_04123_same u u' _ _ _ _ Hu Hu' Huu)
    as (p & p' & -> & -> & Hp & Hp' & Hpp).
  cbn [obind]. unfold FNO2d_Multi.blocks. rewrite !block_stack_spec_stack.
  unfold spec_stack.
  destruct (spec_stack_same (fun i => i <? 3) 6 0 p p' Hp Hp' Hpp)
    as (q & q' & -> & -> & Hq & Hq' & Hqq).
  cbn [obind].
  destruct (permute_02341_same q q' _ _ _ _ Hq Hq' Hqq)
    as (z & z' & -> & -> & Hz & Hz' & Hzz).
  cbn [obind].
  destruct (linear_same (FNO2d_Multi.fc1 m) z z' _ X Y _ Hz Hz' (eq_sym Hi1) Hzz)
    as (h & h' & -> & -> & Hh & Hh' & Hhh).
  rewrite Ho1 in Hh, Hh'. cbn [obind].
  destruct (linear_same (FNO2d_Multi.fc2 m) (tmap F_gelu h) (tmap F_gelu h') _ X Y 128
              Hh Hh' (eq_sym Hi2) (tmap_same_sample F_gelu h h' Hhh))
    as (r & r' & -> & -> & Hr & Hr' & Hrr).
  rewrite Ho2 in Hr, Hr'.
  exists r, r'. auto.
Qed.

End Network.

End SampleIndependence.

(** X17.  The network treats the samples of a batch one by one: if sample
    [k] of a batch and sample [k'] of another batch (of any other size, on
    the same grid) hold the same window, the predictions for the two are
    the same.  So the prediction for a sample does not depend on the batch
    it is passed in; in particular it is what the network returns for the
    sample alone, as the testing loop with [batch_size = 1] passes it. *)
Theorem forward_samples_independent
  {lib : TorchLib} (g : Globals) (m : FNO2d_Multi.t) (x x' : Tensor xreal)
  (B B' X Y k k' : nat) :
  FNO2d_Multi.wf g m ->
  0 < FNO2d_Multi.modes1 m <= X ->
  FNO2d_Multi.modes2 m <= Y / 2 + 1 ->
  0 < Y -> 0 < num_vars g ->
  length (x_grid g) = X -> length (y_grid g) = Y ->
  shape x = [B; num_vars g; X; Y; T_in g] ->
  shape x' = [B'; num_vars g; X; Y; T_in g] ->
  k < B -> k' < B' ->
  same_sample k k' x x' ->
  exists out out',
    FNO2d_Multi.forward g m x = Some out /\
    FNO2d_Multi.forward g m x' = Some out' /\
    shape out = [B; num_vars g; X; Y; step g] /\
    shape out' = [B'; num_vars g; X; Y; step g] /\
    same_sample k k' out out'.
Proof.
  intros Hwf Hm1 Hm2 HY HV HgX HgY Hx Hx' Hk Hk' H.
  exact (forward_same k k' B B' Hk Hk' g m X Y Hwf Hm1 Hm2 HY HV HgX HgY x x' Hx Hx' H).
Qed.

Lemma forward_samples_independent_witness :
  exists model out out',
    FNO2d_Multi.init example_globals 3 1 1 example_draws = Some model /\
    FNO2d_Multi.forward (lib := example_lib) example_globals model two_samples
    = Some out /\
    FNO2d_Multi.forward (lib := example_lib) example_globals model
      (sample_batch two_samples 1) = Some out' /\
    shape out = [2; 1; 4; 1; 2] /\
    shape out' = [1; 1; 4; 1; 2] /\
    same_sample 1 0 out out'.
Proof.
  destruct (FNO_init_spec example_globals 3 1 1 example_draws ltac:(lia))
    as (model & E & Hwf & Hm1 & Hm2 & _).
  destruct (forward_samples_independent (lib := example_lib) example_globals model
              two_samples (sample_batch two_samples 1) 2 1 4 1 1 0 Hwf
              ltac:(rewrite Hm1; lia) ltac:(rewrite Hm2; simpl; lia) ltac:(lia)
              ltac:(simpl; lia) eq_refl eq_refl eq_refl eq_refl ltac:(lia) ltac:(lia))
    as (out & out' & H).
  { intros v i j c. reflexivity. }
  exists model, out, out'. split; [exact E | exact H].
Defined.

(** ** The rollout of a sample does not depend on its batch *)

Section RolloutSamples.
Context {lib : TorchLib}.
Variable g : Globals.
Variable model : FNO2d_Multi.t.
Variables B B' X Y k k' : nat.
Hypothesis Hwf : FNO2d_Multi.wf g model.
Hypothesis Hm1 : 0 < FNO2d_Multi.modes1 model <= X.
Hypothesis Hm2 : FNO2d_Multi.modes2 model <= Y / 2 + 1.
Hypothesis HY : 0 < Y.
Hypothesis HV : 0 < num_vars g.
Hypothesis HgX : length (x_grid g) = X.
Hypothesis HgY : length (y_grid g) = Y.
Hypothesis Hstep : 0 < step g <= T_in g.
Hypothesis Hbatch : batch_size g = B.
Hypothesis Hk : k < B.
Hypothesis Hk' : k' < B'.

Let g' := with_batch_size g B'.

Lemma passes_same (xx0 yy xx0' yy' : Tensor xreal) (j : nat) :
  shape xx0 = [B; num_vars g; X; Y; T_in g] ->
  shape yy = [B; num_vars g; X; Y; T g] ->
  shape xx0' = [B'; num_vars g; X; Y; T_in g] ->
  shape yy' = [B'; num_vars g; X; Y; T g] ->
  same_sample k k' xx0 xx0' ->
  j * step g <= T g ->
  exists st st',
    Rollout.run g model myloss yy (map (fun i => i * step g) (seq 0 j))
      (Rollout.mkState xx0 None None) = Some st /\
    Rollout.run g' model myloss yy' (map (fun i => i * step g) (seq 0 j))
      (Rollout.mkState xx0' None None) = Some st' /\
    Rollout.invariant g B X Y j st /\
    Rollout.invariant g' B' X Y j st' /\
    same_sample k k' (Rollout.xx st) (Rollout.xx st') /\
    (forall p p', Rollout.pred st = Some p -> Rollout.pred st' = Some p' ->
                  same_sample k k' p p').
Proof.
  intros Hxx0 Hyy Hxx0' Hyy' Hsame.
  assert (HB : 0 < B) by lia. assert (HB' : 0 < B') by lia.
  induction j as [| j IH]; intros Hj.
  - exists (Rollout.mkState xx0 None None), (Rollout.mkState xx0' None None).
    split; [reflexivity |]. split; [reflexivity |].
    split; [split; [exact Hxx0 | split; reflexivity] |].
    split; [split; [exact Hxx0' | split; reflexivity] |].
    split; [exact Hsame |]. intros p p' Hp. discriminate.
  - destruct (IH ltac:(lia)) as (st & st' & Erun & Erun' & Hinv & Hinv' & Hxx & Hpp).
    rewrite seq_S, map_app. cbn [map Nat.add].
    rewrite (run_app g model yy), (run_app g' model yy'), Erun, Erun'.
    cbn [obind Rollout.run].
    destruct (transition_ok g model B X Y Hwf Hm1 Hm2 HY HV HB Hbatch HgX HgY
                (proj1 Hstep) yy j st Hyy ltac:(lia) Hinv)
      as (s1 & im0 & p0 & l0 & E1 & _ & Ep0 & Hp0 & El0 & Hl0 & _).
    destruct (transition_content g model B X Y yy j st Hwf Hm1 Hm2 HY HV HB Hbatch
                HgX HgY Hstep Hyy ltac:(lia) Hinv)
      as (s2 & im & p1 & E2 & Eim & Hs2 & Hd2 & Ep1 & Hfirst & Hcat).
    assert (s2 = s1) by congruence. subst s2.
    assert (p1 = p0) by congruence. subst p1.
    destruct (transition_ok g' model B' X Y Hwf Hm1 Hm2 HY HV HB' eq_refl HgX HgY
                (proj1 Hstep) yy' j st' Hyy' ltac:(cbn [g' with_batch_size step T]; lia)
                Hinv')
      as (s1' & im0' & p0' & l0' & E1' & _ & Ep0' & Hp0' & El0' & Hl0' & _).
    destruct (transition_content g' model B' X Y yy' j st' Hwf Hm1 Hm2 HY HV HB' eq_refl
                HgX HgY Hstep Hyy' ltac:(cbn [g' with_batch_size step T]; lia) Hinv')
      as (s2' & im' & p1' & E2' & Eim' & Hs2' & Hd2' & Ep1' & Hfirst' & Hcat').
    assert (s2' = s1') by congruence. subst s2'.
    assert (p1' = p0') by congruence. subst p1'.
    cbn [g' with_batch_size step T T_in num_vars] in E1', Hs2', Hd2', Hcat', Hp0'.
    change (FNO2d_Multi.forward g' model (Rollout.xx st'))
      with (FNO2d_Multi.forward g model (Rollout.xx st')) in Eim'.
    destruct Hinv as (Hsx & Hpr & _). destruct Hinv' as (Hsx' & Hpr' & _).
    cbn [g' with_batch_size T_in num_vars] in Hsx'.
    destruct (forward_same k k' B B' Hk Hk' g model X Y Hwf Hm1 Hm2 HY HV HgX HgY
                (Rollout.xx st) (Rollout.xx st') Hsx Hsx' Hxx)
      as (out & out' & Eo & Eo' & _ & _ & Hoo).
    assert (out = im) by congruence. assert (out' = im') by congruence. subst out out'.
    rewrite E1. cbn [obind]. rewrite E1'.
    exists s1, s1'. split; [reflexivity |]. split; [reflexivity |].
    split.
    { split; [exact Hs2 |]. rewrite Ep0, El0. repeat split; try assumption; lia. }
    split.
    { split; [exact Hs2' |]. rewrite Ep0', El0'.
      cbn [g' with_batch_size step num_vars]. repeat split; try assumption; lia. }
    split.
    { intros v i jj c. rewrite Hd2, Hd2'.
      destruct (c <? T_in g - step g); [apply Hxx | apply Hoo]. }
    intros p p' Ep Ep'. rewrite Ep0 in Ep. rewrite Ep0' in Ep'.
    injection Ep as <-. injection Ep' as <-.
    destruct (Rollout.pred st) as [q |] eqn:Eq; destruct (Rollout.pred st') as [q' |] eqn:Eq'.
    + intros v i jj c. rewrite (Hcat q eq_refl), (Hcat' q' eq_refl).
      destruct (c <? j * step g); [apply (Hpp q q' eq_refl eq_refl) | apply Hoo].
    + lia.
    + lia.
    + rewrite (Hfirst Hpr), (Hfirst' Hpr'). exact Hoo.
Qed.

End RolloutSamples.

(** X18.  The rollout predicts for each sample by itself.  Take sample [k]
    of a batch of [batch_size] samples and sample [k'] of a batch of any
    other size [B'] (run with [batch_size = B'], as the testing block does
    with [B' = 1]), with the same window; then after every number [j >= 1] of
    passes the two windows and the two prediction buffers hold the same
    entries for the two samples.  The targets play no part in it: they need
    the right shapes only. *)
Theorem rollout_samples_independent
  {lib : TorchLib} (g : Globals) (model : FNO2d_Multi.t)
  (xx0 yy xx0' yy' : Tensor xreal) (B B' X Y k k' j : nat) :
  FNO2d_Multi.wf g model ->
  0 < FNO2d_Multi.modes1 model <= X ->
  FNO2d_Multi.modes2 model <= Y / 2 + 1 ->
  0 < Y -> 0 < num_vars g ->
  length (x_grid g) = X -> length (y_grid g) = Y ->
  0 < step g <= T_in g ->
  batch_size g = B -> k < B -> k' < B' ->
  shape xx0 = [B; num_vars g; X; Y; T_in g] ->
  shape yy = [B; num_vars g; X; Y; T g] ->
  shape xx0' = [B'; num_vars g; X; Y; T_in g] ->
  shape yy' = [B'; num_vars g; X; Y; T g] ->
  same_sample k k' xx0 xx0' ->
  0 < j -> j * step g <= T g ->
  exists st st' p p',
    Rollout.run g model myloss yy (map (fun i => i * step g) (seq 0 j))
      (Rollout.mkState xx0 None None) = Some st /\
    Rollout.run (with_batch_size g B') model myloss yy'
      (map (fun i => i * step g) (seq 0 j))
      (Rollout.mkState xx0' None None) = Some st' /\
    same_sample k k' (Rollout.xx st) (Rollout.xx st') /\
    Rollout.pred st = Some p /\ Rollout.pred st' = Some p' /\
    shape p = [B; num_vars g; X; Y; j * step g] /\
    shape p' = [B'; num_vars g; X; Y; j * step g] /\
    same_sample k k' p p'.
Proof.
  intros Hwf Hm1 Hm2 HY HV HgX HgY Hstep Hbatch Hk Hk' Hxx0 Hyy Hxx0' Hyy' Hsame Hj0 Hj.
  destruct (passes_same g model B B' X Y k k' Hwf Hm1 Hm2 HY HV HgX HgY Hstep Hbatch
              Hk Hk' xx0 yy xx0' yy' j Hxx0 Hyy Hxx0' Hyy' Hsame Hj)
    as (st & st' & E & E' & (_ & Hp & _) & (_ & Hp' & _) & Hxx & Hpp).
  destruct (Rollout.pred st) as [p |] eqn:Ep; [| lia].
  destruct (Rollout.pred st') as [p' |] eqn:Ep'; [| lia].
  exists st, st', p, p'. split; [exact E |]. split; [exact E' |].
  split; [exact Hxx |]. split; [exact Ep |]. split; [exact Ep' |].
  split; [exact (proj2 Hp) |]. split; [exact (proj2 Hp') |].
  apply Hpp; reflexivity.
Qed.

Lemma rollout_samples_independent_witness :
  exists model st st' p p',
    FNO2d_Multi.init example_globals 3 1 1 example_draws = Some model /\
    Rollout.run (lib := example_lib) (mkGlobals 2 4 2 1 2 [Fin 0; Fin 1; Fin 2; Fin 3]%R [Fin 0])
      model myloss (ones [2; 1; 4; 1; 4]) [0; 2]
      (Rollout.mkState two_samples None None) = Some st /\
    Rollout.run (lib := example_lib) example_globals
      model myloss (ones [1; 1; 4; 1; 4]) [0; 2]
      (Rollout.mkState (sample_batch two_samples 1) None None) = Some st' /\
    same_sample 1 0 (Rollout.xx st) (Rollout.xx st') /\
    Rollout.pred st = Some p /\ Rollout.pred st' = Some p' /\
    shape p = [2; 1; 4; 1; 4] /\
    shape p' = [1; 1; 4; 1; 4] /\
    same_sample 1 0 p p'.
Proof.
  destruct (FNO_init_spec example_globals 3 1 1 example_draws ltac:(lia))
    as (model & E & Hwf & Hm1 & Hm2 & _).
  destruct (rollout_samples_independent (lib := example_lib)
              (mkGlobals 2 4 2 1 2 [Fin 0; Fin 1; Fin 2; Fin 3]%R [Fin 0]) model
              two_samples (ones [2; 1; 4; 1; 4])
              (sample_batch two_samples 1) (ones [1; 1; 4; 1; 4])
              2 1 4 1 1 0 2 Hwf
              ltac:(rewrite Hm1; lia) ltac:(rewrite Hm2; simpl; lia) ltac:(lia)
              ltac:(simpl; lia) eq_refl eq_refl ltac:(simpl; lia) eq_refl
              ltac:(lia) ltac:(lia) eq_refl eq_refl eq_refl eq_refl)
    as (st & st' & p & p' & H).
  { intros v i j c. reflexivity. }
  { lia. }
  { simpl. lia. }
  exists model, st, st', p, p'. split; [exact E | exact H].
Defined.

(** ** The std-based normalizers fitted on a single sample *)

Section SingleSample.
Local Open Scope R_scope.

(** The unbiased standard deviation of one value divides by zero. *)
Lemma xstd_single (a : xreal) : xstd [a] = NaN.
Proof.
  unfold xstd, xmean, xsum. cbn [map fold_left length INR].
  destruct a as [v | | |]; cbn [xadd xdiv xsub xneg xmul inf_of_sign]; try reflexivity.
  - rewrite (sgn_pos 1) by lra. cbn [xadd xneg xmul xdiv].
    rewrite (sgn_zero (1 - 1)) by lra. unfold inf_of_sign.
    rewrite sgn_zero by (field). reflexivity.
  - rewrite (sgn_pos 1) by lra. reflexivity.
  - rewrite (sgn_pos 1) by lra. reflexivity.
Qed.

Lemma xdiv_nan (a : xreal) : xdiv a NaN = NaN.
Proof. destruct a; reflexivity. Qed.

(** X19.  Fitted on a single sample, the two std-based normalizers encode
    every entry as [NaN], whatever [eps] is: the unbiased standard deviation
    of one value is [0/0], and [NaN + eps] is [NaN].  (On constant data of
    two or more samples [eps] keeps the divisor away from zero; here it
    cannot.) *)
Theorem std_normalizers_single_sample (tr x : Tensor xreal) (eps : R) :
  (numel (shape tr) = 1%nat ->
   forall idx,
     data (GaussianNormalizer.encode (GaussianNormalizer.init tr eps) x) idx = NaN) /\
  (forall d tl, shape tr = 1%nat :: tl -> shape x = d :: tl ->
     exists e,
       UnitGaussianNormalizer.encode (UnitGaussianNormalizer.init tr eps) x = Some e /\
       shape e = shape x /\
       forall idx, inb (shape x) idx = true -> data e idx = NaN).
Proof.
  split.
  - intros Hn idx.
    assert (Hent : exists a, entries tr = [a]).
    { pose proof (length_indices (shape tr)) as Hl. rewrite Hn in Hl.
      unfold entries. destruct (indices (shape tr)) as [| i [| i' l]];
        try discriminate. eexists. reflexivity. }
    destruct Hent as [a Ha].
    unfold GaussianNormalizer.encode, GaussianNormalizer.init, tmap.
    cbn [data GaussianNormalizer.mean GaussianNormalizer.std GaussianNormalizer.eps].
    rewrite Ha, xstd_single. cbn [xadd]. apply xdiv_nan.
  - intros d tl Hs Hx.
    unfold UnitGaussianNormalizer.encode, UnitGaussianNormalizer.init, reduce_dim0.
    rewrite Hs.
    cbn [UnitGaussianNormalizer.mean UnitGaussianNormalizer.std UnitGaussianNormalizer.eps].
    set (mean := mkTensor tl (fun idx => xmean (column tr idx))).
    set (stdeps := tmap (fun v => xadd v (Fin eps))
                     (mkTensor tl (fun idx => xstd (column tr idx)))).
    destruct (tbin_batch xsub x mean d tl Hx eq_refl) as (num & -> & Hnum_s & _).
    cbn [obind].
    destruct (tbin_batch xdiv num stdeps d tl Hnum_s eq_refl) as (e & -> & He_s & He_d).
    exists e. split; [reflexivity |]. split; [congruence |].
    rewrite Hx. intros [| i idx] Hidx; [discriminate |].
    rewrite He_d by exact Hidx. subst stdeps. unfold tmap. cbn [data].
    unfold column. rewrite Hs. cbn [hd seq map].
    rewrite xstd_single. cbn [xadd]. apply xdiv_nan.
Qed.

End SingleSample.
